(** * tinygpt: a character-level decoder-only transformer (examples/tinygpt.py)

    A shallow embedding of the example program and the properties its
    specification states about it.

    Numbers.  Tensor entries are float32 in the program; here they are real
    numbers ([R]), and the additive attention mask, the only place where the
    program writes an infinity, has entries in [xreal] (a real or negative
    infinity).  Rounding, overflow and NaN are outside this model.  Random
    draws and sampled offsets are rationals ([Q]), so the batch sampler
    computes.  Integer tensors are [Z] with the width of their dtype written
    out where the program casts. *)

From Stdlib Require Import ZArith QArith Qround Reals Qreals Lra Lia Ascii String.
From Stdlib Require Lqa.
From stdpp Require Import base option list gmap sorting strings.

Local Open Scope Z_scope.

(** ** Vocabulary (the main block, lines 229-239) *)

Module Vocabulary.

(** Python compares one-character strings by code point. *)
Definition char_le (a b : ascii) : Prop := (N_of_ascii a <= N_of_ascii b)%N.

#[global] Instance char_le_dec a b : Decision (char_le a b) :=
decide (N_of_ascii a <= N_of_ascii b)%N.

(** [chars = sorted(list(set(text)))]: the set forgets order and
repetitions, [sorted] fixes the order again. *)
Definition chars (text : list ascii) : list ascii :=
merge_sort char_le (elements (list_to_set text : gset ascii)).

Definition vocab_size (text : list ascii) : nat := length (chars text).

(** [enumerate(l)] *)
Definition enumerate {A} (l : list A) : list (nat * A) :=
zip (seq 0 (length l)) l.

(** [{ ch:i for i,ch in enumerate(chars) }]: entries are written in
order, a later one replaces an earlier one with the same key. *)
Definition stoi (cs : list ascii) : gmap ascii nat :=
foldl (fun m p => <[p.2 := p.1]> m) ∅ (enumerate cs).

(** [{ i:ch for i,ch in enumerate(chars) }] *)
Definition itos (cs : list ascii) : gmap nat ascii :=
foldl (fun m p => <[p.1 := p.2]> m) ∅ (enumerate cs).

(** [encode = lambda s: [stoi[c] for c in s]]; [None] is the KeyError of
a character that is not in the vocabulary. *)
Definition encode (cs : list ascii) (s : list ascii) : option (list nat) :=
mapM (fun c => stoi cs !! c) s.

(** [decode = lambda l: ''.join([itos[i] for i in l])] *)
Definition decode (cs : list ascii) (l : list nat) : option (list ascii) :=
mapM (fun i => itos cs !! i) l.

End Vocabulary.


(** ** Hyperparameters (lines 16-26) *)

Record hyper := {
  batch_size : nat;      (* independent sequences processed in parallel *)
  block_size : nat;      (* maximum context length for predictions *)
  max_iters : nat;
  eval_interval : nat;
  eval_iters : nat;
  n_embd : nat;
  n_head : nat;
  n_layer : nat;
  dropout : Q
}.

(** The values the program sets. *)
Definition tinygpt_hyper : hyper := {|
  batch_size := 64; block_size := 128; max_iters := 5000;
  eval_interval := 500; eval_iters := 200;
  n_embd := 192; n_head := 4; n_layer := 4; dropout := 2 # 10
|}.

(** ** Integer dtypes and Python indexing *)

(** A value stored in a signed [w]-bit integer. *)
Definition wrap (w : Z) (z : Z) : Z := (z + 2 ^ (w - 1)) mod 2 ^ w - 2 ^ (w - 1).

Definition representable (w : Z) (z : Z) : Prop := - 2 ^ (w - 1) <= z < 2 ^ (w - 1).

(** The cast of a float to int32: the fraction is dropped (towards zero). *)
Definition cast_int32 (q : Q) : Z := wrap 32 (Z.quot (Qnum q) (Zpos (Qden q))).

(** [l[i:j]] for integers [i], [j]: a negative bound counts from the end,
    and both bounds are clipped to the list. *)
Definition slice_bound (len : Z) (k : Z) : Z :=
  if k <? 0 then Z.max 0 (k + len) else Z.min k len.

Definition py_slice {A} (l : list A) (i j : Z) : list A :=
  let len := Z.of_nat (length l) in
  let a := slice_bound len i in
  let b := slice_bound len j in
  take (Z.to_nat (b - a)) (drop (Z.to_nat a) l).

(** [l[i:]] *)
Definition py_slice_from {A} (l : list A) (i : Z) : list A :=
  drop (Z.to_nat (slice_bound (Z.of_nat (length l)) i)) l.

(** [l[-1]]; the IndexError of an empty list is [None]. *)
Definition py_last {A} (l : list A) : option A := last l.

(** ** The program's global state *)

(** A generator of uniform draws from [0, 1): its state is the sequence of
    the draws still to come. *)
Definition rng := nat -> Q.

Definition rng_ok (g : rng) : Prop := forall n, (0 <= g n)%Q /\ (g n < 1)%Q.

Definition rng_head (g : rng) : Q := g O.
Definition rng_tail (g : rng) : rng := fun n => g (S n).

Inductive split := Train | Val.

(** What a run does, in order: its prints, and marks for the calls a
    property speaks about (the program keeps no such log). *)
Inductive event :=
  | EvBatch (s : split)                       (* get_batch(split) *)
  | EvModel (training no_grad : bool) (T : nat) (loss : option R)
                                              (* model(idx, targets) *)
  | EvOptimizer                               (* zero_grad, backward, step *)
  | EvReport (iter : nat) (train_loss val_loss : option R)
                                              (* print(f"step {iter}: ...") *)
  | EvToken (token : list ascii).             (* print(token, end='') *)

Record world := {
  training : bool;       (* Tensor.training *)
  no_grad : bool;        (* the tensor library's switch that turns the
                            recording of gradients off (Tensor.no_grad);
                            no statement of the program assigns it *)
  tensor_rng : rng;      (* the tensor library's generator *)
  numpy_rng : rng;       (* numpy's module-level generator (np.random) *)
  trace : list event
}.

Definition with_training (b : bool) (w : world) : world :=
  {| training := b; no_grad := no_grad w; tensor_rng := tensor_rng w;
     numpy_rng := numpy_rng w; trace := trace w |}.

Definition with_tensor_rng (g : rng) (w : world) : world :=
  {| training := training w; no_grad := no_grad w; tensor_rng := g;
     numpy_rng := numpy_rng w; trace := trace w |}.

Definition with_numpy_rng (g : rng) (w : world) : world :=
  {| training := training w; no_grad := no_grad w;
     tensor_rng := tensor_rng w; numpy_rng := g; trace := trace w |}.

Definition with_trace (t : list event) (w : world) : world :=
  {| training := training w; no_grad := no_grad w;
     tensor_rng := tensor_rng w; numpy_rng := numpy_rng w; trace := t |}.

(** Code that reads and writes the global state and may raise. *)
Definition M (A : Type) : Type := world -> option (A * world).

#[global] Instance M_ret : MRet M := fun A a w => Some (a, w).
#[global] Instance M_bind : MBind M := fun A B f m w =>
  match m w with
  | Some (a, w') => f a w'
  | None => None
  end.

(** A Python exception nobody catches. *)
Definition raise {A} : M A := fun _ => None.

Definition lift {A} (o : option A) : M A := fun w =>
  match o with Some a => Some (a, w) | None => None end.

Definition get_training : M bool := fun w => Some (training w, w).

(** The mark of a model call records whether gradients are recorded. *)
Definition get_no_grad : M bool := fun w => Some (no_grad w, w).

Definition set_training (b : bool) : M unit := fun w =>
  Some (tt, with_training b w).

Definition emit (e : event) : M unit := fun w =>
  Some (tt, with_trace (trace w ++ [e]) w).

(** One draw of the tensor library's generator. *)
Definition tensor_draw : M Q := fun w =>
  Some (rng_head (tensor_rng w), with_tensor_rng (rng_tail (tensor_rng w)) w).

(** One draw of [np.random]. *)
Definition numpy_draw : M Q := fun w =>
  Some (rng_head (numpy_rng w), with_numpy_rng (rng_tail (numpy_rng w)) w).

(** [for x in l: s = body(x, s)] *)
Fixpoint for_each {A S} (l : list A) (body : A -> S -> M S) (s : S) : M S :=
  match l with
  | [] => mret s
  | x :: l' => s' ← body x s; for_each l' body s'
  end.

(** [range(n)] *)
Definition range (n : nat) : list nat := seq 0 n.

(** ** Random tensors *)

(** [Tensor.manual_seed(seed)] gives the tensor library a fresh generator
    made from the seed.  How the library turns a seed into draws is not
    part of the sources: [default_rng] stands for it.  The call does not
    touch numpy's module-level generator. *)
Definition manual_seed (default_rng : Z -> rng) (seed : Z) : M unit := fun w =>
  Some (tt, with_tensor_rng (default_rng seed) w).

(** [Tensor.rand(n)]: [n] draws. *)
Definition Tensor_rand (n : nat) : M (list Q) :=
  mapM (fun _ => tensor_draw) (range n).

(** [Tensor.uniform(n, low=low, high=high)] is
    [(high - low) * Tensor.rand(n) + low]. *)
Definition Tensor_uniform (n : nat) (low high : Z) : M (list Q) :=
  us ← Tensor_rand n;
  mret (map (fun u => (inject_Z (high - low) * u + inject_Z low)%Q) us).

(** ** The batch sampler (lines 68-74) *)

Section Sampler.
Context (hp : hyper).
(** The two halves of the encoded corpus (module-level variables). *)
Context (train_data val_data : list Z).

Definition split_data (s : split) : list Z :=
match s with Train => train_data | Val => val_data end.

(** The start offsets of line 71. *)
Definition get_batch_ix (data : list Z) : M (list Z) :=
us ← Tensor_uniform (batch_size hp) 0
 (Z.of_nat (length data) - Z.of_nat (block_size hp));
mret (map cast_int32 us).

Definition get_batch (s : split) : M (list (list Z) * list (list Z)) :=
let data := split_data s in
ix ← get_batch_ix data;
let x := map (fun i => py_slice data i (i + Z.of_nat (block_size hp))) ix in
let y := map (fun i => py_slice data (i + 1)
                   (i + Z.of_nat (block_size hp) + 1)) ix in
_ ← emit (EvBatch s);
mret (x, y).

End Sampler.

(** ** Tensors *)

(** A real or negative infinity: the entries of masked scores. *)
Inductive xreal := Fin (r : R) | NegInf.

Abbreviation vec := (list R).
Abbreviation mat := (list (list R)).
Abbreviation tensor3 := (list (list (list R))).

(** A numpy array as numpy stores it: a shape and the entries in row-major
    order. *)
Record ndarray (A : Type) := NDArray { shape : list nat; data : list A }.
Arguments NDArray {A} _ _.
Arguments shape {A} _.
Arguments data {A} _.

Definition numel (s : list nat) : nat := foldr Nat.mul 1%nat s.

Definition well_shaped {A} (a : ndarray A) : Prop :=
  length (data a) = numel (shape a).

Section TensorOps.
Local Open Scope R_scope.

Definition xadd (a b : xreal) : xreal :=
match a, b with
| Fin x, Fin y => Fin (x + y)
| _, _ => NegInf
end.

(** [exp]; the exponential of negative infinity is 0. *)
Definition xexp (a : xreal) : R :=
match a with Fin x => exp x | NegInf => 0 end.

Definition sum (l : list R) : R := foldr Rplus 0 l.

Definition dot (a b : vec) : R := sum (zip_with Rmult a b).

Definition vadd (a b : vec) : vec := zip_with Rplus a b.

(** [a + b] for two tensors of one shape. *)
Definition tadd (a b : tensor3) : tensor3 := zip_with (zip_with vadd) a b.

(** [a @ transpose(b, -2, -1)]: entry (i, j) is row i of [a] times row j
of [b]. *)
Definition matmul_nt (a b : mat) : mat := map (fun ai => map (dot ai) b) a.

Definition column (j : nat) (b : mat) : vec := map (fun row => nth j row 0) b.

(** [a @ b] *)
Definition matmul (a b : mat) : mat :=
map (fun ai => map (fun j => dot ai (column j b))
           (range (length (hd [] b)))) a.

(** Modelled from the spec: [Tensor.softmax] over the last axis (the
tensor library is not part of the sources).  Each entry is its
exponential over the sum of the exponentials of its row. *)
Definition softmax (row : list xreal) : vec :=
let e := map xexp row in
map (fun v => v / sum e) e.

(** Modelled from the spec: [Tensor.log_softmax] over the last axis, the
logarithm of the softmax: each entry minus the logarithm of the sum of
the exponentials of its row. *)
Definition log_softmax (row : vec) : vec :=
map (fun v => v - ln (sum (map exp row))) row.

(** [Tensor.relu] *)
Definition relu (x : R) : R := Rmax 0 x.

(** [np.triu(m, k)]: entries below the k-th diagonal become [zero]. *)
Definition triu {A} (zero : A) (k : nat) (m : list (list A)) : list (list A) :=
imap (fun i row => imap (fun j x => if (i + k <=? j)%nat then x else zero) row) m.

(** [np.ones((T,T)) * -np.inf] *)
Definition neg_inf_matrix (T : nat) : list (list xreal) :=
replicate T (replicate T NegInf).

(** The causal mask of line 97. *)
Definition causal_mask (T : nat) : list (list xreal) :=
triu (Fin 0) 1 (neg_inf_matrix T).

(** [Tensor.arange(T, dtype=dtypes.int8)]: 0, 1, ..., T-1 stored in
eight bits. *)
Definition arange_int8 (T : nat) : list Z :=
map (fun t => wrap 8 (Z.of_nat t)) (range T).

End TensorOps.

(** ** Layers of the library (tinygrad.nn is not part of the sources) *)

Section Layers.
Local Open Scope R_scope.

(** Modelled from the spec: a linear map, [x @ weight.T + bias], with
[weight] of shape (out, in) and an optional bias. *)
Record Linear := { weight : mat; bias : option vec }.

Definition Linear_call (l : Linear) (x : vec) : vec :=
let y := map (fun row => dot row x) (weight l) in
match bias l with
| Some b => vadd y b
| None => y
end.

(** Modelled from the spec: normalization of a feature vector to mean 0
and variance 1, then a learned scale and shift. *)
Record LayerNorm := { ln_weight : vec; ln_bias : vec; ln_eps : R }.

Definition mean (v : vec) : R := sum v / INR (length v).

Definition LayerNorm_call (l : LayerNorm) (x : vec) : vec :=
let y := map (fun a => a - mean x) x in
let var := mean (map (fun a => a * a) y) in
let n := map (fun a => a / sqrt (var + ln_eps l)) y in
vadd (zip_with Rmult n (ln_weight l)) (ln_bias l).

(** Modelled from the spec: a table of embedding vectors, one row per
index, looked up by index.  The library reads the table through a
one-hot product, so an index that names no row yields the zero
vector. *)
Record Embedding := { emb_weight : mat }.

Definition Embedding_call (e : Embedding) (i : Z) : vec :=
let zero := replicate (length (hd [] (emb_weight e))) 0 in
if (0 <=? i)%Z then default zero (emb_weight e !! Z.to_nat i) else zero.

(** Modelled from the spec: dropout is active during training only.  An
entry is kept when its draw is at least [p], and kept entries are
scaled by 1/(1-p). *)
Definition dropout_entry (p : Q) (x : R) : M R :=
u ← tensor_draw;
mret (if Qle_bool p u then (x * / (1 - Q2R p))%R else 0%R).

Definition Tensor_dropout (p : Q) (x : tensor3) : M tensor3 :=
t ← get_training;
if t : bool then mapM (mapM (mapM (dropout_entry p))) x else mret x.

End Layers.

(** ** The transformer (lines 77-178) *)

Section Transformer.
Context (hp : hyper).
Local Open Scope R_scope.

(** *** Head: one head of self-attention *)

(** [to_kqv] computes keys, queries and values with one linear map
(no bias). *)
Record Head := { to_kqv : Linear }.

(** The three parts of [kqv.reshape(B, T, 3, -1)] along the last axis. *)
Definition kqv_part (i : nat) (v : vec) : vec :=
let hs := (length v / 3)%nat in
take hs (drop (i * hs) v).

(** [n_embd**-0.5], line 95, for [n_embd >= 1] (the program sets 192).
The embedding does not cover [n_embd = 0]: there Python raises
ZeroDivisionError (0 to a negative power), while [Rpower 0 _] is 1 and
the definition below returns a number. *)
Definition attention_scale : R := Rpower (INR (n_embd hp)) (- (1 / 2)).

(** The attention weights of one batch row, lines 86-99: scores, the
causal mask, softmax over the last axis. *)
Definition attention_weights_row (h : Head) (x : mat) : mat :=
let T := length x in
let kqv := map (Linear_call (to_kqv h)) x in
let k := map (kqv_part 0) kqv in
let q := map (kqv_part 1) kqv in
let wei := map (map (fun s => s * attention_scale)) (matmul_nt q k) in
let mask := causal_mask T in
let wei := zip_with (zip_with xadd) (map (map Fin) wei) mask in
map softmax wei.

Definition attention_weights (h : Head) (x : tensor3) : tensor3 :=
map (attention_weights_row h) x.

Definition attention_values (h : Head) (x : tensor3) : tensor3 :=
map (fun xb => map (fun xt => kqv_part 2 (Linear_call (to_kqv h) xt)) xb) x.

Definition Head_call (h : Head) (x : tensor3) : M tensor3 :=
let v := attention_values h x in
wei ← Tensor_dropout (dropout hp) (attention_weights h x);
(* the weighted aggregation of the values *)
mret (zip_with matmul wei v).

(** *** MultiHeadAttention: several heads in parallel *)

Record MultiHeadAttention := { heads : list Head; proj : Linear }.

(** [a.cat(b, dim=-1)] *)
Definition cat_last (a b : tensor3) : tensor3 := zip_with (zip_with app) a b.

Definition MultiHeadAttention_call (m : MultiHeadAttention) (x : tensor3)
: M tensor3 :=
match heads m with
| [] => raise                          (* self.heads[0]: IndexError *)
| h0 :: hs =>
o0 ← Head_call h0 x;
os ← mapM (fun h => Head_call h x) hs;
let out := foldl cat_last o0 os in
Tensor_dropout (dropout hp) (map (map (Linear_call (proj m))) out)
end.

(** *** FeedForward: a linear layer followed by a non-linearity *)

Inductive layer := LinearLayer (l : Linear) | ReluLayer.

Definition layer_call (l : layer) (x : vec) : vec :=
match l with
| LinearLayer l => Linear_call l x
| ReluLayer => map relu x
end.

Record FeedForward := { net : list layer }.

(** [x.sequential(self.net)] *)
Definition sequential (ls : list layer) (x : vec) : vec :=
foldl (fun y l => layer_call l y) x ls.

Definition FeedForward_call (f : FeedForward) (x : tensor3) : M tensor3 :=
Tensor_dropout (dropout hp) (map (map (sequential (net f))) x).

(** *** Block: communication followed by computation *)

Record Block := {
sa : MultiHeadAttention;
ffwd : FeedForward;
ln1 : LayerNorm;
ln2 : LayerNorm
}.

Definition Block_call (b : Block) (x : tensor3) : M tensor3 :=
a ← MultiHeadAttention_call (sa b) (map (map (LayerNorm_call (ln1 b))) x);
let x := tadd x a in
f ← FeedForward_call (ffwd b) (map (map (LayerNorm_call (ln2 b))) x);
mret (tadd x f).

End Transformer.

(** ** The loss (lines 44-52) *)

Section Loss.
Local Open Scope R_scope.

(** The position a numpy index names on an axis of size [n]; a negative
index counts from the end, anything else is an IndexError. *)
Definition np_index (n : nat) (j : Z) : option nat :=
if decide (0 <= j < Z.of_nat n)%Z then Some (Z.to_nat j)
else if decide (- Z.of_nat n <= j < 0)%Z then Some (Z.to_nat (j + Z.of_nat n))
else None.

(** [y[range(y.shape[0]), YY] = v]: row i gets [v] in column YY[i]. *)
Fixpoint assign_columns (y : mat) (YY : list Z) (v : R) : option mat :=
match y, YY with
| [], [] => Some []
| row :: y', j :: YY' =>
k ← np_index (length row) j;
rest ← assign_columns y' YY' v;
Some (<[k := v]> row :: rest)
| _, _ => None
end.

(** [a.reshape(s)]: the same entries under another shape. *)
Definition reshape {A} (a : ndarray A) (s : list nat) : option (ndarray A) :=
if decide (numel s = length (data a)) then Some (NDArray s (data a)) else None.

(** [a.mul(b)] for operands of one shape. Operands of different shapes
are not modelled (the program multiplies tensors of equal shape). *)
Definition Tensor_mul (a b : ndarray R) : option (ndarray R) :=
if decide (shape a = shape b)
then Some (NDArray (shape a) (zip_with Rmult (data a) (data b)))
else None.

(** [a.mean()]: the sum of all entries over their number; an empty tensor
has no mean. *)
Definition Tensor_mean (a : ndarray R) : option R :=
match data a with
| [] => None
| _ => Some (sum (data a) / INR (length (data a)))
end.

(** negative Log Loss function *)
Definition cross_entropy (out : ndarray R) (Y : ndarray Z) : option R :=
num_classes ← last (shape out);
let YY := map (wrap 32) (data Y) in
let y := replicate (length YY) (replicate num_classes 0) in
y ← assign_columns y YY (-1 * INR num_classes);
y ← reshape (NDArray [length y; num_classes] (concat y))
      (shape Y ++ [num_classes]);
p ← Tensor_mul out y;
Tensor_mean p.

End Loss.

(** ** The language model (lines 150-178) *)

Section LanguageModel.
Context (hp : hyper).
Local Open Scope R_scope.

Record GPTLanguageModel := {
token_embedding_table : Embedding;
position_embedding_table : Embedding;
blocks : list Block;
ln_f : LayerNorm;
lm_head : Linear
}.

(** A tensor of the trunk as the library stores it. *)
Definition ndarray_of_tensor3 (x : tensor3) : ndarray R :=
NDArray [length x; length (hd [] x); length (hd [] (hd [] x))]
  (concat (concat x)).

Definition ndarray_of_tokens (y : list (list Z)) : ndarray Z :=
NDArray [length y; length (hd [] y)] (concat y).

(** [model(idx, targets)]; [idx] and [targets] are (B,T) tensors of
integers. *)
Definition GPTLanguageModel_call (m : GPTLanguageModel)
(idx : list (list Z)) (targets : option (list (list Z)))
: M (tensor3 * option R) :=
let T := length (hd [] idx) in
let tok_emb := map (map (Embedding_call (token_embedding_table m))) idx in
let pos_emb := map (Embedding_call (position_embedding_table m))
             (arange_int8 T) in
let x := map (fun xb => zip_with vadd xb pos_emb) tok_emb in
x ← for_each (blocks m) (Block_call hp) x;
let x := map (map (LayerNorm_call (ln_f m))) x in
let logits := map (map (Linear_call (lm_head m))) x in
loss ← match targets with
 | None => mret None
 | Some targets =>
     (* log softmax to get predictions for the loss *)
     let predictions := map (map log_softmax) logits in
     l ← lift (cross_entropy (ndarray_of_tensor3 predictions)
                             (ndarray_of_tokens targets));
     mret (Some l)
 end;
t ← get_training;
g ← get_no_grad;
_ ← emit (EvModel t g T loss);
mret (logits, loss).

End LanguageModel.

(** ** Sampling (numpy is a library the program calls) *)

#[global] Instance Rle_decision (x y : R) : Decision (x <= y)%R := Rle_dec x y.
#[global] Instance Req_decision : EqDecision R := Req_dec_T.

Section Sampling.
Local Open Scope R_scope.

(** [p.cumsum()] *)
Fixpoint cumsum_from (acc : R) (p : vec) : vec :=
match p with
| [] => []
| x :: p' => (acc + x) :: cumsum_from (acc + x) p'
end.

Definition cumsum (p : vec) : vec := cumsum_from 0 p.

(** [cdf.searchsorted(u, side='right')] on a sorted [cdf]: the number of
leading entries that are at most [u]. *)
Fixpoint searchsorted_right (cdf : vec) (u : R) : nat :=
match cdf with
| [] => O
| c :: cdf' => if decide (c <= u) then S (searchsorted_right cdf' u) else O
end.

(** The index the cumulative distribution of [p] gives the draw [u]:
[cdf = p.cumsum(); cdf /= cdf[-1]; cdf.searchsorted(u, side='right')]. *)
Definition inverse_cdf (p : vec) (u : Q) : nat :=
let cdf := cumsum p in
let cdf := map (fun c => c / default 0 (last cdf)) cdf in
searchsorted_right cdf (Q2R u).

(** [np.random.choice(len(p), size=1, p=p)]: numpy refuses (ValueError) an
empty range, a negative probability and probabilities that do not sum
to 1; it then inverts the normalised cumulative distribution at one
uniform draw of its module-level generator.  The result is an array
with one index. *)
Definition choice (p : vec) : M (list nat) :=
if decide (p = []) then raise
else if decide (Forall (fun x => 0 <= x) p /\ sum p = 1) then
u ← numpy_draw;
mret [inverse_cdf p u]
else raise.

End Sampling.

(** ** Generation (lines 180-203) *)

Section Generate.
Context (hp : hyper).
(** The vocabulary [chars] that the global [decode] reads. *)
Context (cs : list ascii).

(** [idx[:, -block_size:]] *)
Definition crop (idx : list (list Z)) : list (list Z) :=
map (fun row => py_slice_from row (- Z.of_nat (block_size hp))) idx.

(** One round of the loop: the context and the output so far go in, the
new ones come out. *)
Definition generate_step (m : GPTLanguageModel)
(st : list (list Z) * list ascii) : M (list (list Z) * list ascii) :=
let idx := st.1 in
let out := st.2 in
(* crop idx to the last block_size tokens *)
let idx_cond := crop idx in
(* get the predictions *)
r ← GPTLanguageModel_call hp m idx_cond None;
(* focus only on the last time step *)
logits ← lift (mapM py_last r.1);
(* apply softmax to get probabilities *)
let probs := map (fun l => softmax (map Fin l)) logits in
(* sample from the distribution *)
idx_next ← mapM choice probs;
first ← lift (head idx_next);
token ← lift (Vocabulary.decode cs first);
_ ← emit (EvToken token);
let out := out ++ token in
(* append sampled index to the running sequence *)
let idx := zip_with (fun row n => row ++ map Z.of_nat n) idx idx_next in
let idx := crop idx in
mret (idx, out).

Definition generate (m : GPTLanguageModel) (idx : list (list Z))
(max_new_tokens : nat) : M (list ascii) :=
st ← for_each (range max_new_tokens) (fun _ => generate_step m) (idx, []);
mret st.2.

End Generate.

(** ** Evaluation and the training loop (lines 54-65 and 255-271) *)

Section Training.
Context (hp : hyper).
Context (train_data val_data : list Z).
(** The optimizer and automatic differentiation belong to the library:
[optimizer_step] stands for [zero_grad], [backward] and [step], which
turn the parameters and the optimizer's state into new ones from the
batch and the generator state the forward pass started with. *)
Context {opt_state : Type}.
Context (optimizer_step : opt_state -> GPTLanguageModel ->
   list (list Z) -> list (list Z) -> rng ->
   opt_state * GPTLanguageModel).
Local Open Scope R_scope.

(** [losses.mean()] of a numpy array; the mean of an empty array is nan
([None]). *)
Definition np_mean (l : list R) : option R :=
match l with
| [] => None
| _ => Some (sum l / INR (length l))
end.

(** The dictionary [out] of [estimate_loss], keyed by split. *)
Definition loss_dict := split -> option (option R).

Definition dict_set (d : loss_dict) (k : split) (v : option R) : loss_dict :=
fun k' => match k, k' with
    | Train, Train | Val, Val => Some v
    | _, _ => d k'
    end.

(** The inner loop of [estimate_loss] for one split. *)
Definition estimate_split (m : GPTLanguageModel) (s : split) : M (option R) :=
losses ← for_each (range (eval_iters hp))
(fun k (losses : list R) =>
b ← get_batch hp train_data val_data s;
r ← GPTLanguageModel_call hp m b.1 (Some b.2);
loss ← lift r.2;
mret (<[k := loss]> losses))
(replicate (eval_iters hp) 0);
mret (np_mean losses).

Definition estimate_loss (m : GPTLanguageModel) : M loss_dict :=
_ ← set_training false;
out ← for_each [Train; Val]
(fun s (out : loss_dict) =>
avg ← estimate_split m s;
mret (dict_set out s avg))
(fun _ => None);
_ ← set_training true;
mret out.

(** [iter % eval_interval == 0 or iter == max_iters - 1]; the remainder
by zero is a ZeroDivisionError. *)
Definition is_checkpoint (iter : nat) : option bool :=
if (eval_interval hp =? 0)%nat then None
else Some ((iter mod eval_interval hp =? 0)%nat
     || (iter =? max_iters hp - 1)%nat).

Definition get_tensor_rng : M rng := fun w => Some (tensor_rng w, w).

(** One round of the training loop. *)
Definition train_iter (iter : nat) (st : opt_state * GPTLanguageModel)
: M (opt_state * GPTLanguageModel) :=
ck ← lift (is_checkpoint iter);
(* every once in a while evaluate the loss on train and val sets *)
_ ← (if ck : bool then
 losses ← estimate_loss st.2;
 tl ← lift (losses Train);
 vl ← lift (losses Val);
 emit (EvReport iter tl vl)
else mret tt);
(* sample a batch of data *)
b ← get_batch hp train_data val_data Train;
(* evaluate the loss *)
g ← get_tensor_rng;
r ← GPTLanguageModel_call hp st.2 b.1 (Some b.2);
_ ← emit EvOptimizer;
mret (optimizer_step st.1 st.2 b.1 b.2 g).

Definition training_loop (o : opt_state) (m : GPTLanguageModel)
: M (opt_state * GPTLanguageModel) :=
_ ← set_training true;
for_each (range (max_iters hp)) train_iter (o, m).

End Training.

(** ** Stating what a run does *)

(** [returns c w Q]: run in [w], [c] raises nothing, and its result and the
    state it leaves satisfy [Q]. *)
Definition returns {A} (c : M A) (w : world) (Q : A -> world -> Prop) : Prop :=
  exists a w', c w = Some (a, w') /\ Q a w'.

(** The generator after [n] draws. *)
Definition rng_skip (n : nat) (g : rng) : rng := Nat.iter n rng_tail g.

(** ** A small configuration to run the definitions on *)

Definition small_hyper : hyper := {|
  batch_size := 3; block_size := 2; max_iters := 3;
  eval_interval := 2; eval_iters := 2;
  n_embd := 1; n_head := 1; n_layer := 1; dropout := 2 # 10
|}.

(** A generator whose every draw is [q]. *)
Definition constant_rng (q : Q) : rng := fun _ => q.

Definition small_world : world := {|
  training := true;
  no_grad := false;
  tensor_rng := constant_rng (1 # 2);
  numpy_rng := constant_rng (1 # 4);
  trace := []
|}.

Definition small_data : list Z := [1; 0; 1; 1; 0; 1].

(** [steps w w']: from [w] to [w'] only draws of the tensor generator
    happened, and none at all outside training. *)
Definition steps (w w' : world) : Prop :=
  (exists n, w' = with_tensor_rng (rng_skip n (tensor_rng w)) w)
  /\ (training w = false -> w' = w).

(** The batch and time extents of a tensor. *)
Definition extents {A} (x : list (list A)) : list nat := map length x.

(** Every attention layer of the model has a head to start the
    concatenation with. *)
Definition model_ok (m : GPTLanguageModel) : Prop :=
  Forall (fun b => heads (sa b) <> []) (blocks m).

(** ** The loss as the specification words it *)

Section LossSpec.
Local Open Scope R_scope.

(** The classes of one position: [-C] at the true class, 0 elsewhere. *)
Definition target_row (C : nat) (y : Z) : vec :=
map (fun c => if decide (Z.of_nat c = y) then - INR C else 0) (range C).

(** The target tensor: one such row per position of [Y], in [Y]'s shape
with the classes as last axis. *)
Definition nll_target (C : nat) (Y : ndarray Z) : ndarray R :=
NDArray (shape Y ++ [C]) (concat (map (target_row C) (data Y))).

(** The mean over all entries of the element-wise product. *)
Definition mean_of_product (a b : ndarray R) : R :=
sum (zip_with Rmult (data a) (data b)) / INR (length (data a)).

(** The mean negative log-likelihood: minus the log-probability that row
[i] of [out] gives its target class, averaged over the rows. *)
Definition mean_nll (C : nat) (out : ndarray R) (Y : ndarray Z) : R :=
sum (imap (fun i y => - nth (i * C + Z.to_nat y) (data out) 0) (data Y))
/ INR (length (data Y)).

(** Targets that name a class. *)
Definition valid_targets (C : nat) (Y : ndarray Z) : Prop :=
Forall (fun y => (0 <= y < Z.of_nat C)%Z) (data Y).

End LossSpec.

(** The output projection has [V] rows, and a bias, if any, of [V]
    entries. *)
Definition lm_head_ok (V : nat) (m : GPTLanguageModel) : Prop :=
  length (weight (lm_head m)) = V
  /\ match bias (lm_head m) with Some b => length b = V | None => True end.

(** An integer tensor of shape (B, T). *)
Definition tokens_shape (B T : nat) (idx : list (list Z)) : Prop :=
  length idx = B /\ Forall (fun row => length row = T) idx.

(** A real tensor of shape (B, T, V). *)
Definition tensor3_shape (B T V : nat) (x : tensor3) : Prop :=
  length x = B
  /\ Forall (fun xb => length xb = T /\ Forall (fun v => length v = V) xb) x.

(** Targets for a (B, T) batch over [V] classes: of that shape, naming
    classes, and not empty; the class count fits the int32 the targets are
    cast to.  No targets at all is fine too. *)
Definition targets_ok (B T V : nat) (targets : option (list (list Z))) : Prop :=
  match targets with
  | None => True
  | Some tg =>
      tokens_shape B T tg
      /\ Forall (Forall (fun y => 0 <= y < Z.of_nat V)) tg
      /\ (1 <= T)%nat /\ (1 <= V)%nat /\ Z.of_nat V <= 2 ^ 31
  end.

(** Small tensors: log-probabilities of two positions over two classes,
    and their targets. *)
Definition small_out : ndarray R := NDArray [2; 2]%nat [-1; -2; -3; -1]%R.
Definition small_targets : ndarray Z := NDArray [2]%nat [0; 1].

(** A small model: one block with one head, embedding dimension 1, two
    tokens; its output projection is zero, so all its logits are 0. *)
Definition small_linear (rows : mat) (b : option vec) : Linear :=
  {| weight := rows; bias := b |}.

Definition small_norm : LayerNorm :=
  {| ln_weight := [1%R]; ln_bias := [0%R]; ln_eps := 1%R |}.

Definition small_block : Block := {|
  sa := {| heads := [ {| to_kqv := small_linear [[1]; [1]; [1]]%R None |} ];
           proj := small_linear [[1%R]] (Some [0%R]) |};
  ffwd := {| net := [ LinearLayer (small_linear [[1]; [1]; [1]; [1]]%R
                                                (Some [0; 0; 0; 0]%R));
                      ReluLayer;
                      LinearLayer (small_linear [[1; 1; 1; 1]]%R (Some [0%R])) ] |};
  ln1 := small_norm;
  ln2 := small_norm
|}.

Definition small_model : GPTLanguageModel := {|
  token_embedding_table := {| emb_weight := [[1]; [2]]%R |};
  position_embedding_table := {| emb_weight := [[0]; [1]]%R |};
  blocks := [small_block];
  ln_f := small_norm;
  lm_head := small_linear [[0]; [0]]%R (Some [0; 0]%R)
|}.

(** The last [n] entries of a list. *)
Definition last_n {A} (n : nat) (l : list A) : list A := drop (length l - n) l.

(** The contexts with the tokens drawn for each row appended. *)
Definition append_tokens (idx : list (list Z)) (appended : list (list nat))
  : list (list Z) :=
  zip_with (fun row a => row ++ map Z.of_nat a) idx appended.

(** What generation leaves in the trace: round [j] calls the model on
    [min (T + j) block_size] positions, without targets, and prints the
    character of its token. *)
Definition generation_trace (hp : hyper) (mode ng : bool) (T : nat)
    (out : list ascii) : list event :=
  concat (imap (fun j c => [EvModel mode ng (Nat.min (T + j) (block_size hp)) None;
                            EvToken [c]]) out).

(** A vocabulary of two characters. *)
Definition small_chars : list ascii := ["a"; "b"]%char.

(** ** The training loop as the specification words it *)

Section TrainingSpec.
Context (hp : hyper).
(** Whether the recording of gradients is switched off during the run. *)
Context (ng : bool).

(** The average of a list of losses: their sum over their number; no
number (nan) for no loss. *)
Definition average (losses : list R) : option R :=
if decide (losses = []) then None
else Some (sum losses / INR (length losses))%R.

(** Evaluation on one split: one batch of that split and one model call
in evaluation mode per loss. *)
Definition eval_events (s : split) (losses : list R) : list event :=
flat_map (fun l => [EvBatch s; EvModel false ng (block_size hp) (Some l)]) losses.

(** An evaluation checkpoint: [eval_iters] batches of the train split, as
many of the validation split, then the report of both averages. *)
Definition checkpoint_events (iter : nat) (lt lv : list R) : list event :=
eval_events Train lt ++ eval_events Val lv
++ [EvReport iter (average lt) (average lv)].

(** A training step: a train batch, a model call in training mode, the
optimizer. *)
Definition step_events (l : R) : list event :=
[EvBatch Train; EvModel true ng (block_size hp) (Some l); EvOptimizer].

(** What iteration [iter] does: a checkpoint first when [iter] is a
multiple of [eval_interval] or the last iteration, then the training
step. *)
Definition iteration_events (iter : nat) (evs : list event) : Prop :=
exists l : R,
if ((iter mod eval_interval hp =? 0)%nat || (iter =? max_iters hp - 1)%nat)%bool
then exists lt lv : list R,
   length lt = eval_iters hp /\ length lv = eval_iters hp
   /\ evs = checkpoint_events iter lt lv ++ step_events l
else evs = step_events l.

(** A split a batch can be drawn from: longer than a block, short enough
for int32 offsets, and made of tokens below [V]. *)
Definition data_ok (V : nat) (data : list Z) : Prop :=
(block_size hp < length data)%nat
/\ Z.of_nat (length data) < 2 ^ 31
/\ Forall (fun y => 0 <= y < Z.of_nat V) data.

End TrainingSpec.

(** A probability distribution: not empty, no negative entry, sum 1. *)
Definition distribution (p : list R) : Prop :=
  p <> [] /\ Forall (fun x => (0 <= x)%R) p /\ sum p = 1%R.

(** An optimizer that changes nothing, to run the loop on. *)
Definition idle_optimizer (o : unit) (m : GPTLanguageModel)
    (xb yb : list (list Z)) (g : rng) : unit * GPTLanguageModel := (o, m).

(** A state of the program in evaluation mode whose numpy generator always
    draws [q]. *)
Definition numpy_world (q : Q) : world := {|
  training := false;
  no_grad := false;
  tensor_rng := constant_rng (1 # 2);
  numpy_rng := constant_rng q;
  trace := []
|}.

(** Seeding the tensor library, then generating one token from the
    context [[0]] with the small model. *)
Definition seeded_generation : M (list ascii) :=
  _ ← manual_seed (fun _ => constant_rng (1 # 2)) 31337;
  generate small_hyper small_chars small_model [[0]] 1.

(** The class a target in [-C, C) names: a negative target counts from
    the last class. *)
Definition target_class (C : nat) (y : Z) : Z := y mod Z.of_nat C.

(** A target numpy accepts as a column index of [C] classes, after the
    cast to int32. *)
Definition index_ok (C : nat) (y : Z) : Prop :=
  - Z.of_nat C <= wrap 32 y < Z.of_nat C.

(** Targets counted from the last class. *)
Definition small_negative_targets : ndarray Z := NDArray [2]%nat [-1; 0].

(** ** Evaluation mode

    With [Tensor.training] off dropout is the identity, and the calls of
    the transformer compute these functions of their input and leave the
    global state alone. *)

Section Evaluation.
Context (hp : hyper).

(** [Head.__call__], lines 86-104, with line 100 the identity. *)
Definition Head_eval (h : Head) (x : tensor3) : tensor3 :=
zip_with matmul (attention_weights hp h x) (attention_values h x).

Definition MultiHeadAttention_eval (m : MultiHeadAttention) (x : tensor3)
: option tensor3 :=
match heads m with
| [] => None
| h0 :: hs =>
let out := foldl cat_last (Head_eval h0 x) (map (fun h => Head_eval h x) hs) in
Some (map (map (Linear_call (proj m))) out)
end.

Definition Block_eval (b : Block) (x : tensor3) : option tensor3 :=
a ← MultiHeadAttention_eval (sa b) (map (map (LayerNorm_call (ln1 b))) x);
let x := tadd x a in
let f := map (map (sequential (net (ffwd b))))
       (map (map (LayerNorm_call (ln2 b))) x) in
Some (tadd x f).

Fixpoint blocks_eval (bs : list Block) (x : tensor3) : option tensor3 :=
match bs with
| [] => Some x
| b :: bs' => x' ← Block_eval b x; blocks_eval bs' x'
end.

End Evaluation.

(** Two batches of sequences of the same extents that agree on the first
    [n] positions of every sequence. *)
Definition agree {A} (n : nat) (x x' : list (list A)) : Prop :=
  Forall2 (fun xb xb' => length xb = length xb' /\ take n xb = take n xb') x x'.

(** Two states in evaluation mode with the same numpy generator; the
    tensor generator and the trace may differ. *)
Definition same_numpy (w w' : world) : Prop :=
  training w = false /\ training w' = false /\ numpy_rng w = numpy_rng w'.

(** Two runs that raise together or return the same value in states with
    the same numpy generator. *)
Definition sim {A} (o o' : option (A * world)) : Prop :=
  match o, o' with
  | Some (a, w), Some (a', w') => a = a' /\ same_numpy w w'
  | None, None => True
  | _, _ => False
  end.

(** ** The train and validation split (lines 241-245) *)

Section Split.

(** The double nearest to 0.9: the literal of line 243. *)
Definition double_0_9 : Q := 8106479329266893 # 9007199254740992.

(** The integer nearest to [q], ties to even. *)
Definition round_half_even (q : Q) : Z :=
let f := Qfloor q in
match Qcompare (q - inject_Z f) (1 # 2) with
| Lt => f
| Gt => f + 1
| Eq => if Z.even f then f else f + 1
end.

(** [2 ^ e] for an integer [e]. *)
Definition pow2 (e : Z) : Q :=
if 0 <=? e then inject_Z (2 ^ e) else 1 # Z.to_pos (2 ^ (- e)).

(** The double nearest to [q] (53 significant bits, ties to even), for
[q = 0] and for [q] in the range of the normal doubles; the program
rounds the product of a length and 0.9. *)
Definition round_double (q : Q) : Q :=
if Qle_bool q 0 then 0
else
(* 2^k <= q < 2^(k+1) *)
let k := Z.log2 (Qfloor (q * inject_Z (2 ^ 53))) - 53 in
let ulp := pow2 (k - 52) in
inject_Z (round_half_even (q / ulp)) * ulp.

(** [int(x)] of a float: the fraction is dropped (towards zero). *)
Definition int_of_float (q : Q) : Z :=
if Qle_bool 0 q then Qfloor q else Qceiling q.

(** [n = int(0.9*data.shape[0])]: the length becomes a double (exactly,
below 2^53), the product is rounded to a double. *)
Definition split_point (L : nat) : Z :=
int_of_float (round_double (double_0_9 * inject_Z (Z.of_nat L))).

(** [train_data = data[:n]] and [val_data = data[n:]] *)
Definition split_corpus (data : list Z) : list Z * list Z :=
let n := split_point (length data) in
(py_slice data 0 n, py_slice_from data n).

(** [data = Tensor(encode(text), dtype=dtypes.int64)] *)
Definition corpus (text : list ascii) : option (list Z) :=
l ← Vocabulary.encode (Vocabulary.chars text) text;
Some (map (fun i => wrap 64 (Z.of_nat i)) l).

End Split.

(** Code that leaves numpy's generator as it found it. *)
Definition keeps_numpy {A} (c : M A) : Prop :=
  forall w a w', c w = Some (a, w') -> numpy_rng w' = numpy_rng w.

(** ** The program (lines 229-277) *)

Section Program.
Context (hp : hyper).
Context {opt_state : Type}.
Context (optimizer_step : opt_state -> GPTLanguageModel ->
   list (list Z) -> list (list Z) -> rng -> opt_state * GPTLanguageModel).

(** The main block from the text on: vocabulary, data, split, training
loop, generation of 1000 tokens from the context [[0]].  The library
builds the model and the optimizer ([GPTLanguageModel(vocab_size)],
[optim.AdamW]): [m] and [o] stand for what it built.  The result is the
string [out]; the prints around the loop are not part of the trace. *)
Definition main (text : list ascii) (o : opt_state) (m : GPTLanguageModel)
: M (list ascii) :=
let chars := Vocabulary.chars text in
data ← lift (corpus text);
let splits := split_corpus data in
let train_data := splits.1 in
let val_data := splits.2 in
st ← training_loop hp train_data val_data optimizer_step o m;
_ ← set_training false;
(* generate output tokens *)
let context := [[0]] in
generate hp chars st.2 context 1000.

End Program.

(** A text of 24 characters over two letters. *)
Definition small_text : list ascii :=
  list_ascii_of_string "abbabaabbaababbabaababba".

(** ** Sampling and a round of generation, as the specification words them *)

(** [k] is the outcome the categorical distribution [p] gives the uniform
    draw [u]: the draw falls into the [k]-th interval of the cumulative
    distribution, [p_0 + ... + p_(k-1) <= u < p_0 + ... + p_k]. *)
Definition sampled (p : list R) (u : Q) (k : nat) : Prop :=
  (k < length p)%nat /\ (sum (take k p) <= Q2R u < sum (take (S k) p))%R.

(** One round of generation takes the contexts and the output [s] in the
    state [w] to [s'] and [w']: the model is called, without targets, on
    the last [block_size] tokens of every context ([T'] positions); for
    every batch row the logits of the final time position are softmaxed
    into a probability distribution; row [b] gets the one outcome that
    distribution gives the [b]-th next draw of numpy's generator; the
    outcomes are appended to the contexts, which are cut to their last
    [block_size] tokens again, and the character of the first row's
    outcome is appended to the output. *)
Definition generation_round (hp : hyper) (cs : list ascii) (m : GPTLanguageModel)
    (B T' : nat) (s : list (list Z) * list ascii) (w : world)
    (s' : list (list Z) * list ascii) (w' : world) : Prop :=
  exists (logits : tensor3) (w1 : world) (lasts : list (list R)) (next : list nat),
    GPTLanguageModel_call hp m (map (last_n (block_size hp)) s.1) None w
      = Some ((logits, None), w1)
    /\ tensor3_shape B T' (length cs) logits
    /\ Forall2 (fun xb l => xb !! (T' - 1)%nat = Some l) logits lasts
    /\ Forall (fun l => distribution (softmax (map Fin l))) lasts
    /\ length next = B
    /\ (forall (b : nat) (l : list R) (k : nat),
          lasts !! b = Some l -> next !! b = Some k ->
          (k < length cs)%nat
          /\ sampled (softmax (map Fin l)) (numpy_rng w b) k
          /\ forall k', sampled (softmax (map Fin l)) (numpy_rng w b) k' -> k' = k)
    /\ s'.1 = map (last_n (block_size hp))
                  (zip_with (fun row k => row ++ [Z.of_nat k]) s.1 next)
    /\ (exists (k : nat) (c : ascii),
          next !! 0%nat = Some k /\ cs !! k = Some c /\ s'.2 = s.2 ++ [c])
    /\ numpy_rng w' = rng_skip B (numpy_rng w).

(** *** Properties of the vocabulary *)

Module VocabularyFacts.
Import Vocabulary.

#[global] Instance char_le_total : Total char_le.
Proof. intros a b. unfold char_le. lia. Qed.

#[global] Instance char_le_trans : Transitive char_le.
Proof. intros a b c. unfold char_le. lia. Qed.

Lemma chars_perm text :
chars text ≡ₚ elements (list_to_set text : gset ascii).
Proof. apply merge_sort_Permutation. Qed.

Lemma chars_NoDup text : NoDup (chars text).
Proof. rewrite chars_perm. apply NoDup_elements. Qed.

Lemma elem_of_chars text c : c ∈ chars text ↔ c ∈ text.
Proof. rewrite chars_perm, elem_of_elements, elem_of_list_to_set. done. Qed.

Lemma chars_Sorted text : Sorted char_le (chars text).
Proof. apply (Sorted_merge_sort char_le). Qed.

Lemma enumerate_snoc {A} (l : list A) x :
enumerate (l ++ [x]) = enumerate l ++ [(length l, x)].
Proof.
unfold enumerate. rewrite length_app, seq_app. simpl.
rewrite zip_with_app by (by rewrite length_seq). done.
Qed.

Lemma stoi_snoc cs x : stoi (cs ++ [x]) = <[x := length cs]> (stoi cs).
Proof. unfold stoi. rewrite enumerate_snoc, foldl_app. done. Qed.

Lemma itos_snoc cs x : itos (cs ++ [x]) = <[length cs := x]> (itos cs).
Proof. unfold itos. rewrite enumerate_snoc, foldl_app. done. Qed.

(** The index table is the list itself, read by position. *)
Lemma itos_lookup cs (i : nat) : itos cs !! i = cs !! i.
Proof.
induction cs as [|x cs IH] using rev_ind; [done|].
rewrite itos_snoc. destruct (decide (i = length cs)) as [->|Hne].
- rewrite lookup_insert_eq, lookup_app_r, Nat.sub_diag by lia. done.
- rewrite lookup_insert_ne by done. rewrite IH.
destruct (decide (i < length cs)%nat).
+ by rewrite lookup_app_l.
+ rewrite !lookup_ge_None_2; [done|rewrite length_app; simpl; lia|lia].
Qed.

(** Without repeated characters the character table inverts it. *)
Lemma stoi_lookup cs c (i : nat) :
NoDup cs → stoi cs !! c = Some i ↔ cs !! i = Some c.
Proof.
induction cs as [|x cs IH] using rev_ind in i |- *; intros Hnd.
- unfold stoi. simpl. rewrite lookup_empty. done.
- apply NoDup_app in Hnd as (Hcs & Hx & _). rewrite stoi_snoc.
destruct (decide (c = x)) as [->|Hne].
+ rewrite lookup_insert_eq. split.
* intros [= <-]. by rewrite lookup_app_r, Nat.sub_diag by lia.
* intros Hi. f_equal. destruct (decide (i < length cs)%nat).
-- rewrite lookup_app_l in Hi by done.
   apply list_elem_of_lookup_2 in Hi.
   exfalso. apply (Hx x); [done|]. by apply list_elem_of_singleton.
-- apply lookup_lt_Some in Hi. rewrite length_app in Hi.
   simpl in Hi. lia.
+ rewrite lookup_insert_ne by done. rewrite IH by done. split.
* intros Hi. rewrite lookup_app_l; [done|by eapply lookup_lt_Some].
* intros Hi. destruct (decide (i < length cs)%nat).
-- by rewrite lookup_app_l in Hi.
-- rewrite lookup_app_r in Hi by lia.
   apply list_lookup_singleton_Some in Hi as [_ ->]. done.
Qed.

Lemma stoi_is_Some cs c : NoDup cs → c ∈ cs → is_Some (stoi cs !! c).
Proof.
intros Hnd [i Hi]%list_elem_of_lookup_1. exists i. by apply stoi_lookup.
Qed.

(** Encoding then decoding a string over the vocabulary gives it back. *)
Lemma encode_decode_known cs s :
NoDup cs → Forall (fun c => c ∈ cs) s →
∃ l, encode cs s = Some l ∧ decode cs l = Some s
∧ Forall (fun i => (i < length cs)%nat) l.
Proof.
intros Hnd. unfold encode, decode. induction 1 as [|c s Hc _ (l & He & Hd & Hl)].
- by exists [].
- destruct (stoi_is_Some cs c Hnd Hc) as [i Hi]. exists (i :: l).
pose proof Hi as Hi'. apply stoi_lookup in Hi'; [|done].
simpl. rewrite Hi. simpl. rewrite He. simpl.
rewrite itos_lookup, Hi'. simpl. rewrite Hd. simpl.
split_and!; [done..|]. constructor; [by eapply lookup_lt_Some|done].
Qed.

End VocabularyFacts.

(** ** Reasoning about code in [M] *)

Section MonadFacts.
Context {A B : Type}.

Lemma bind_Some (c : M A) (f : A -> M B) w a w' :
c w = Some (a, w') -> (c ≫= f) w = f a w'.
Proof. intros H. unfold mbind, M_bind. by rewrite H. Qed.

Lemma bind_inv (c : M A) (f : A -> M B) w r :
(c ≫= f) w = Some r -> exists a w', c w = Some (a, w') /\ f a w' = Some r.
Proof.
unfold mbind, M_bind. destruct (c w) as [[a w']|]; [|done]. eauto.
Qed.

Lemma returns_ret (a : A) w (Q : A -> world -> Prop) :
Q a w -> returns (mret a) w Q.
Proof. intros. by exists a, w. Qed.

Lemma returns_bind (c : M A) (f : A -> M B) w (Q : B -> world -> Prop) :
returns c w (fun a w' => returns (f a) w' Q) -> returns (c ≫= f) w Q.
Proof.
intros (a & w' & Hc & b & w'' & Hf & HQ). exists b, w''.
by rewrite (bind_Some _ _ _ _ _ Hc).
Qed.

Lemma returns_mono (c : M A) w (P Q : A -> world -> Prop) :
returns c w P -> (forall a w', P a w' -> Q a w') -> returns c w Q.
Proof. intros (a & w' & Hc & HP) HPQ. exists a, w'. auto. Qed.

Lemma returns_lift (o : option A) a w (Q : A -> world -> Prop) :
o = Some a -> Q a w -> returns (lift o) w Q.
Proof. intros -> HQ. by exists a, w. Qed.

End MonadFacts.

(** A loop with an invariant [I] over the accumulator and the state. *)
Lemma returns_for_each {A S} (l : list A) (body : A -> S -> M S)
    (I : list A -> S -> world -> Prop) s w :
  I [] s w ->
  (forall done x s w, done ++ [x] `prefix_of` l -> I done s w ->
     returns (body x s) w (I (done ++ [x]))) ->
  returns (for_each l body s) w (I l).
Proof.
  intros H0 Hstep.
  assert (forall rest done s w, done ++ rest = l -> I done s w ->
            returns (for_each rest body s) w (I l)) as Hgen.
  { induction rest as [|x rest IH]; intros done s' w' Heq HI.
    - rewrite app_nil_r in Heq. subst. by apply returns_ret.
    - simpl. apply returns_bind.
      eapply returns_mono.
      + apply (Hstep done); [|done]. exists rest. by rewrite <- app_assoc.
      + intros s'' w'' HI'. apply (IH (done ++ [x])); [|done].
        by rewrite <- app_assoc. }
  by apply (Hgen l []).
Qed.

(** The same loop with its run: the states it goes through, one per round
    and the last, each round taking one to the next. *)
Lemma returns_for_each_run {A St} (l : list A) (body : A -> St -> M St)
    (I : list A -> St -> world -> Prop) s w :
  I [] s w ->
  (forall done x s w, done ++ [x] `prefix_of` l -> I done s w ->
     returns (body x s) w (I (done ++ [x]))) ->
  exists run : list (St * world),
    length run = S (length l)
    /\ run !! 0%nat = Some (s, w)
    /\ (exists p, run !! length l = Some p
                  /\ for_each l body s w = Some p /\ I l p.1 p.2)
    /\ forall (j : nat) x p, l !! j = Some x -> run !! j = Some p ->
         I (take j l) p.1 p.2
         /\ exists p', run !! S j = Some p' /\ body x p.1 p.2 = Some p'.
Proof.
  intros H0 Hstep.
  assert (forall rest done s w, done ++ rest = l -> I done s w ->
            exists run : list (St * world),
              length run = S (length rest)
              /\ run !! 0%nat = Some (s, w)
              /\ (exists p, run !! length rest = Some p
                            /\ for_each rest body s w = Some p /\ I l p.1 p.2)
              /\ forall (j : nat) x p, rest !! j = Some x -> run !! j = Some p ->
                   I (done ++ take j rest) p.1 p.2
                   /\ exists p', run !! S j = Some p' /\ body x p.1 p.2 = Some p')
    as Hgen.
  { induction rest as [|x rest IH]; intros done s' w' Heq HI.
    - rewrite app_nil_r in Heq. subst. exists [(s', w')].
      split_and!; [done|done|by exists (s', w')|done].
    - destruct (Hstep done x s' w') as (s1 & w1 & Hb & HI1); [|done|].
      { exists rest. by rewrite <- app_assoc. }
      destruct (IH (done ++ [x]) s1 w1) as (run & Hlen & Hhd & (p & Hp & Hfor & HIp) & Hrun);
        [by rewrite <- app_assoc|done|].
      exists ((s', w') :: run). split_and!.
      + simpl. by rewrite Hlen.
      + done.
      + exists p. split_and!; [done| |done].
        cbn [for_each]. by rewrite (bind_Some _ _ _ _ _ Hb).
      + intros [|j] y q Hy Hq; simpl in Hy, Hq.
        * injection Hy as <-. injection Hq as <-. simpl.
          rewrite app_nil_r. split; [done|]. by exists (s1, w1).
        * destruct (Hrun j y q Hy Hq) as [HIq Hnext].
          split; [|done]. by rewrite <- app_assoc in HIq. }
  destruct (Hgen l [] s w eq_refl H0) as (run & ? & ? & ? & Hrun).
  exists run. split_and!; [done..|]. intros j x p Hx Hp. by apply Hrun.
Qed.

Lemma prefix_range (done : list nat) (x n : nat) :
done ++ [x] `prefix_of` range n -> x = length done /\ (length done < n)%nat.
Proof.
intros [rest Hr]. unfold range in Hr.
assert (seq 0 n !! length done = Some x) as Hl.
{ rewrite Hr, <- app_assoc, lookup_app_r, Nat.sub_diag by lia. done. }
apply lookup_seq in Hl. lia.
Qed.

(** [mapM] in [M]: every call returns, under an invariant of the state. *)
Lemma returns_mapM {A B} (f : A -> M B) (l : list A)
    (I : world -> Prop) (P : A -> B -> Prop) w :
  I w ->
  (forall x w, x ∈ l -> I w -> returns (f x) w (fun y w' => P x y /\ I w')) ->
  returns (mapM f l) w (fun ys w' => Forall2 P l ys /\ I w').
Proof.
  revert w. induction l as [|x l IH]; intros w HI Hf.
  - apply returns_ret. split; [constructor|done].
  - simpl. apply returns_bind. eapply returns_mono.
    { apply Hf; [by left|done]. }
    intros y w' [HP HI']. apply returns_bind. eapply returns_mono.
    { apply IH; [done|]. intros x' w'' Hx'. apply Hf. by right. }
    intros ys w'' [HF HI'']. apply returns_ret. split; [by constructor|done].
Qed.

(** ** The vocabulary round trip *)

Import Vocabulary VocabularyFacts.

(** C5.  For every text, with the vocabulary [chars] built from that text
    (its distinct characters, sorted by code point), encoding the text and
    decoding the result returns the text.  The two tables are inverse to
    each other: a character has an index exactly when it occurs in the
    text, an index has a character exactly when it is below [vocab_size],
    and [stoi] maps [c] to [i] exactly when [itos] maps [i] to [c]. *)
Theorem decode_encode_round_trip (text : list ascii) :
  let cs := chars text in
  (encode cs text ≫= decode cs = Some text)
  /\ Sorted char_le cs /\ NoDup cs
  /\ (forall c, c ∈ text <-> is_Some (stoi cs !! c))
  /\ (forall i : nat, (i < vocab_size text)%nat <-> is_Some (itos cs !! i))
  /\ (forall c (i : nat), stoi cs !! c = Some i <-> itos cs !! i = Some c).
Proof.
  intros cs. pose proof (chars_NoDup text) as Hnd. fold cs in Hnd.
  split_and!.
  - destruct (encode_decode_known cs text Hnd) as (l & He & Hd & _).
    { apply Forall_forall. intros c Hc. by apply elem_of_chars. }
    rewrite He. simpl. done.
  - apply chars_Sorted.
  - done.
  - intros c. rewrite <- (elem_of_chars text c). fold cs. split.
    + by apply stoi_is_Some.
    + intros [i Hi]. apply stoi_lookup in Hi; [|done].
      by eapply list_elem_of_lookup_2.
  - intros i. rewrite itos_lookup. unfold vocab_size. fold cs.
    symmetry. apply lookup_lt_is_Some.
  - intros c i. rewrite itos_lookup. by apply stoi_lookup.
Qed.

(** ** Random draws *)

Lemma rng_skip_apply n g k : rng_skip n g k = g (k + n)%nat.
Proof.
  revert k. induction n as [|n IH]; intros k; simpl.
  - by rewrite Nat.add_0_r.
  - unfold rng_tail. fold (rng_skip n g). rewrite IH. f_equal. lia.
Qed.

Lemma rng_skip_ok n g : rng_ok g -> rng_ok (rng_skip n g).
Proof. intros Hg k. rewrite rng_skip_apply. apply Hg. Qed.

Lemma rng_tail_ok g : rng_ok g -> rng_ok (rng_tail g).
Proof. intros Hg k. apply Hg. Qed.

Lemma mapM_tensor_draw {A} (l : list A) w :
  mapM (fun _ => tensor_draw) l w
  = Some (map (tensor_rng w) (seq 0 (length l)),
          with_tensor_rng (rng_skip (length l) (tensor_rng w)) w).
Proof.
  revert w. induction l as [|x l IH]; intros w.
  - by destruct w.
  - cbn [mapM]. erewrite bind_Some by reflexivity.
    erewrite bind_Some by apply IH.
    unfold mret, M_ret. f_equal. f_equal.
    + cbn [length seq map]. f_equal.
      rewrite <- seq_shift, List.map_map. done.
    + unfold with_tensor_rng. cbn [training tensor_rng numpy_rng trace length].
      f_equal. unfold rng_skip. by rewrite Nat.iter_succ_r.
Qed.

Lemma Tensor_rand_eq n w :
  Tensor_rand n w
  = Some (map (tensor_rng w) (seq 0 n),
          with_tensor_rng (rng_skip n (tensor_rng w)) w).
Proof.
  unfold Tensor_rand, range. rewrite mapM_tensor_draw, length_seq. done.
Qed.

(** ** The batch sampler *)

Lemma wrap_representable w z :
  0 < w -> representable w z -> wrap w z = z.
Proof.
  unfold representable, wrap. intros Hw Hz.
  assert (2 ^ w = 2 * 2 ^ (w - 1)) as Hp.
  { rewrite <- Z.pow_succ_r by lia. f_equal. lia. }
  rewrite Z.mod_small by lia. lia.
Qed.

Lemma cast_int32_floor (q : Q) (n : Z) :
  (0 <= q)%Q -> (q < inject_Z n)%Q -> n <= 2 ^ 31 ->
  cast_int32 q = Qfloor q /\ 0 <= Qfloor q < n.
Proof.
  intros H0 Hn H31.
  assert (0 <= Qfloor q < n) as Hfl.
  { split.
    - change 0 with (Qfloor 0). by apply Qfloor_resp_le.
    - rewrite Zlt_Qlt. eapply Qle_lt_trans; [apply Qfloor_le|done]. }
  split; [|done]. unfold cast_int32.
  assert (Qnum q ÷ Z.pos (Qden q) = Qfloor q) as ->.
  { destruct q as [a b]. simpl. apply Z.quot_div_nonneg; [|lia].
    unfold Qle in H0. simpl in H0. lia. }
  apply wrap_representable; [lia|]. unfold representable. simpl. lia.
Qed.

Lemma py_slice_window {A} (l : list A) (i : Z) (n : nat) :
  0 <= i -> i + Z.of_nat n <= Z.of_nat (length l) ->
  py_slice l i (i + Z.of_nat n) = take n (drop (Z.to_nat i) l).
Proof.
  intros Hi Hn. unfold py_slice, slice_bound.
  destruct (Z.ltb_spec i 0); [lia|].
  destruct (Z.ltb_spec (i + Z.of_nat n) 0); [lia|].
  rewrite !Z.min_l by lia. f_equal. lia.
Qed.

Lemma lookup_window {A} (l : list A) (i n t : nat) :
  (t < n)%nat -> take n (drop i l) !! t = l !! (i + t)%nat.
Proof. intros Ht. by rewrite lookup_take_lt, lookup_drop. Qed.

Section SamplerFacts.
Context (hp : hyper) (train_data val_data : list Z).

(** The offsets are the floors of the scaled draws, and lie in
[0, L - block_size). *)
Lemma get_batch_ix_spec (data : list Z) w :
rng_ok (tensor_rng w) ->
(block_size hp < length data)%nat ->
Z.of_nat (length data) < 2 ^ 31 ->
exists ix,
get_batch_ix hp data w
= Some (ix, with_tensor_rng (rng_skip (batch_size hp) (tensor_rng w)) w)
/\ length ix = batch_size hp
/\ Forall (fun i => 0 <= i < Z.of_nat (length data) - Z.of_nat (block_size hp)) ix.
Proof.
intros Hg HL H31. unfold get_batch_ix, Tensor_uniform.
set (H := Z.of_nat (length data) - Z.of_nat (block_size hp)).
eexists. split; [|split].
- erewrite bind_Some; [|erewrite bind_Some by apply Tensor_rand_eq; reflexivity].
reflexivity.
- by rewrite !length_map, length_seq.
- rewrite !Forall_map. apply Forall_forall. intros k _. simpl.
destruct (Hg k) as [H0 H1].
assert (0 < inject_Z H)%Q as HH.
{ change 0%Q with (inject_Z 0). rewrite <- Zlt_Qlt. unfold H. lia. }
rewrite Z.sub_0_r. change (inject_Z 0) with 0%Q.
destruct (cast_int32_floor (inject_Z H * tensor_rng w k + 0) H) as [-> ?];
[| |unfold H; lia|done].
+ rewrite Qplus_0_r. apply Qmult_le_0_compat; [by apply Qlt_le_weak|done].
+ rewrite Qplus_0_r. rewrite <- (Qmult_1_r (inject_Z H)) at 2.
by apply Qmult_lt_l.
Qed.

Lemma get_batch_eq (s : split) w ix w1 :
get_batch_ix hp (split_data train_data val_data s) w = Some (ix, w1) ->
get_batch hp train_data val_data s w
= Some ((map (fun i => py_slice (split_data train_data val_data s) i
                   (i + Z.of_nat (block_size hp))) ix,
   map (fun i => py_slice (split_data train_data val_data s) (i + 1)
                   (i + Z.of_nat (block_size hp) + 1)) ix),
  with_trace (trace w1 ++ [EvBatch s]) w1).
Proof. intros Hix. unfold get_batch. by erewrite bind_Some by apply Hix. Qed.

End SamplerFacts.

(** C4.  For a token sequence (the data of the chosen split) longer than
    [block_size] whose positions fit the int32 offsets, [get_batch] returns
    [batch_size] input windows and [batch_size] target windows, each of
    [block_size] tokens.  Every start offset drawn on line 71 lies in
    [0, L - block_size); window k reads the sequence from its offset on,
    entirely inside the sequence, and target k is the same window one
    position further. *)
Theorem get_batch_windows (hp : hyper) (train_data val_data : list Z)
    (s : split) (w : world) :
  let data := split_data train_data val_data s in
  let L := Z.of_nat (length data) in
  let bs := block_size hp in
  rng_ok (tensor_rng w) ->
  (bs < length data)%nat ->
  L < 2 ^ 31 ->
  exists ix x y w1 w',
    get_batch_ix hp data w = Some (ix, w1)
    /\ get_batch hp train_data val_data s w = Some ((x, y), w')
    /\ length ix = batch_size hp
    /\ Forall (fun i => 0 <= i < L - Z.of_nat bs) ix
    /\ length x = batch_size hp /\ length y = batch_size hp
    /\ Forall (fun row => length row = bs) x
    /\ Forall (fun row => length row = bs) y
    /\ forall (k : nat) i, ix !! k = Some i ->
         exists xk yk, x !! k = Some xk /\ y !! k = Some yk
           /\ forall t : nat, (t < bs)%nat ->
                is_Some (data !! (Z.to_nat i + t + 1)%nat)
                /\ xk !! t = data !! (Z.to_nat i + t)%nat
                /\ yk !! t = data !! (Z.to_nat i + t + 1)%nat.
Proof.
  intros data L bs Hg HL H31.
  destruct (get_batch_ix_spec hp data w Hg HL H31) as (ix & Hix & Hlen & Hrange).
  pose proof (get_batch_eq hp train_data val_data s w ix _ Hix) as Hgb.
  fold data in Hgb. fold bs in Hgb.
  assert (forall i, i ∈ ix ->
            py_slice data i (i + Z.of_nat bs) = take bs (drop (Z.to_nat i) data)
            /\ py_slice data (i + 1) (i + Z.of_nat bs + 1)
               = take bs (drop (Z.to_nat i + 1) data)) as Hsl.
  { intros i Hi. rewrite Forall_forall in Hrange. specialize (Hrange i Hi).
    fold L bs in Hrange. split.
    - apply py_slice_window; lia.
    - replace (i + Z.of_nat bs + 1) with (i + 1 + Z.of_nat bs) by lia.
      rewrite py_slice_window by lia. do 2 f_equal. lia. }
  do 5 eexists. split; [exact Hix|]. split; [exact Hgb|].
  split_and!; [done|done|by rewrite length_map|by rewrite length_map|..].
  - apply Forall_map, Forall_forall. intros i Hi.
    rewrite Forall_forall in Hrange. specialize (Hrange i Hi). fold L bs in Hrange.
    destruct (Hsl i Hi) as [-> _]. simpl. rewrite length_take, length_drop. fold L. lia.
  - apply Forall_map, Forall_forall. intros i Hi.
    rewrite Forall_forall in Hrange. specialize (Hrange i Hi). fold L bs in Hrange.
    destruct (Hsl i Hi) as [_ ->]. simpl. rewrite length_take, length_drop. lia.
  - intros k i Hk.
    assert (i ∈ ix) as Hi by (by eapply list_elem_of_lookup_2).
    rewrite Forall_forall in Hrange. specialize (Hrange i Hi). fold L bs in Hrange.
    destruct (Hsl i Hi) as [Hx Hy].
    exists (take bs (drop (Z.to_nat i) data)), (take bs (drop (Z.to_nat i + 1) data)).
    rewrite !list_lookup_fmap, Hk. simpl. rewrite Hx, Hy.
    split_and!; [done..|]. intros t Ht. split_and!.
    + apply lookup_lt_is_Some. lia.
    + by apply lookup_window.
    + rewrite lookup_window by done. f_equal. lia.
Qed.

Lemma constant_rng_ok (q : Q) : (0 <= q)%Q -> (q < 1)%Q -> rng_ok (constant_rng q).
Proof. intros H0 H1 n. by split. Qed.

Lemma get_batch_windows_witness :
  rng_ok (tensor_rng small_world)
  /\ (block_size small_hyper < length small_data)%nat
  /\ Z.of_nat (length small_data) < 2 ^ 31
  /\ exists ix x y w1 w',
      get_batch_ix small_hyper small_data small_world = Some (ix, w1)
      /\ get_batch small_hyper small_data [] Train small_world = Some ((x, y), w')
      /\ length ix = 3%nat
      /\ Forall (fun i => 0 <= i < 6 - 2) ix.
Proof.
  assert (rng_ok (tensor_rng small_world)) as Hg.
  { apply constant_rng_ok; unfold Qle, Qlt; simpl; lia. }
  assert (block_size small_hyper < length small_data)%nat as HL by (simpl; lia).
  assert (Z.of_nat (length small_data) < 2 ^ 31) as H31 by (simpl; lia).
  split_and!; [done..|].
  destruct (get_batch_windows small_hyper small_data [] Train small_world Hg HL H31)
    as (ix & x & y & w1 & w' & H1 & H2 & H3 & H4 & _).
  by exists ix, x, y, w1, w'.
Defined.

(** ** The forward pass: what it leaves of the state, and shapes *)

Lemma with_tensor_rng_self w : with_tensor_rng (tensor_rng w) w = w.
Proof. by destruct w. Qed.

Lemma steps_refl w : steps w w.
Proof.
  split; [|done]. exists O. by rewrite <- (with_tensor_rng_self w) at 1.
Qed.

Lemma rng_skip_add n m g : rng_skip n (rng_skip m g) = rng_skip (n + m) g.
Proof. unfold rng_skip. by rewrite Nat.iter_add. Qed.

Lemma steps_trans w1 w2 w3 : steps w1 w2 -> steps w2 w3 -> steps w1 w3.
Proof.
  intros [[n Hn] H1] [[m Hm] H2]. split.
  - exists (m + n)%nat. rewrite Hm, Hn. unfold with_tensor_rng. simpl.
    by rewrite rng_skip_add.
  - intros Ht. rewrite H2; rewrite (H1 Ht); done.
Qed.

Lemma steps_training w w' : steps w w' -> training w' = training w.
Proof. by intros [[n ->] _]. Qed.

Lemma steps_numpy_rng w w' : steps w w' -> numpy_rng w' = numpy_rng w.
Proof. by intros [[n ->] _]. Qed.

Lemma steps_trace w w' : steps w w' -> trace w' = trace w.
Proof. by intros [[n ->] _]. Qed.

Lemma steps_no_grad w w' : steps w w' -> no_grad w' = no_grad w.
Proof. by intros [[n ->] _]. Qed.

Lemma steps_rng_ok w w' : steps w w' -> rng_ok (tensor_rng w) -> rng_ok (tensor_rng w').
Proof. intros [[n ->] _] Hg. simpl. by apply rng_skip_ok. Qed.

Lemma steps_draw w : training w = true ->
  steps w (with_tensor_rng (rng_tail (tensor_rng w)) w).
Proof. intros Ht. split; [by exists 1%nat|]. by rewrite Ht. Qed.

Lemma Forall2_extent {A B} (x : list (list A)) (y : list (list B)) :
  Forall2 (fun a b => length b = length a) x y -> extents y = extents x.
Proof. unfold extents. induction 1; simpl; congruence. Qed.

(** Dropout keeps the extents; outside training it is the identity and
    draws nothing. *)
Lemma Tensor_dropout_spec p (x : tensor3) w :
  returns (Tensor_dropout p x) w (fun y w' =>
    steps w w' /\ extents y = extents x /\ (training w = false -> y = x)).
Proof.
  unfold Tensor_dropout. apply returns_bind. exists (training w), w.
  split; [done|]. destruct (training w) eqn:Ht.
  - eapply returns_mono.
    + apply (returns_mapM _ x (fun w' => steps w w' /\ training w' = true)
                          (fun a b => length b = length a));
        [split; [apply steps_refl|done]|].
      intros xb w1 _ [Hs1 Ht1]. eapply returns_mono.
      * apply (returns_mapM _ xb (fun w' => steps w w' /\ training w' = true)
                            (fun _ _ => True)); [done|].
        intros xt w2 _ [Hs2 Ht2]. eapply returns_mono.
        -- apply (returns_mapM _ xt (fun w' => steps w w' /\ training w' = true)
                              (fun _ _ => True)); [done|].
           intros e w3 _ [Hs3 Ht3]. unfold dropout_entry.
           apply returns_bind. eexists _, _. split; [reflexivity|].
           apply returns_ret. split; [done|]. split; [|done].
           eapply steps_trans; [done|]. by apply steps_draw.
        -- intros yt w3 [_ ?]. done.
      * intros yb w2 [HF ?]. split; [|done]. symmetry. by eapply Forall2_length.
    + intros y w' [HF [Hs _]]. split_and!; [done| |done].
      by apply Forall2_extent.
  - apply returns_ret. split_and!; [apply steps_refl|done|done].
Qed.

Lemma extents_map_map (f : vec -> vec) (x : tensor3) :
  extents (map (map f) x) = extents x.
Proof.
  unfold extents. rewrite List.map_map. apply map_ext. intros a.
  by rewrite length_map.
Qed.

Lemma extents_zip_with {A B C} (f : list A -> list B -> list C)
    (a : list (list A)) (b : list (list B)) :
  (forall u v, length (f u v) = length u) ->
  length a = length b ->
  extents (zip_with f a b) = extents a.
Proof.
  intros Hf. revert b. induction a as [|u a IH]; intros [|v b] Hl; try done.
  simpl in *. f_equal; [apply Hf|]. apply IH. lia.
Qed.

Lemma extents_zip_with_same {A} (f : A -> A -> A) (a b : list (list A)) :
  extents a = extents b ->
  extents (zip_with (zip_with f) a b) = extents a.
Proof.
  revert b. induction a as [|u a IH]; intros [|v b] Hl; try done.
  simpl in *. injection Hl as Hu Ha. f_equal; [|by apply IH].
  rewrite length_zip_with. lia.
Qed.

Lemma Forall2_const_l {A B} (P : B -> Prop) (l : list A) (k : list B) :
  Forall2 (fun _ y => P y) l k -> Forall P k.
Proof. induction 1; by constructor. Qed.

Lemma extents_length {A B} (x : list (list A)) (y : list (list B)) :
  extents x = extents y -> length x = length y.
Proof. unfold extents. intros H. by rewrite <- (length_map length x), H, length_map. Qed.

Lemma length_causal_mask T : length (causal_mask T) = T.
Proof.
  unfold causal_mask, triu, neg_inf_matrix. by rewrite length_imap, length_replicate.
Qed.

Section TransformerFacts.
Context (hp : hyper).

Lemma length_attention_weights_row h (x : mat) :
length (attention_weights_row hp h x) = length x.
Proof.
unfold attention_weights_row, matmul_nt.
rewrite length_map, length_zip_with, !length_map, length_causal_mask. lia.
Qed.

Lemma extents_attention_weights h (x : tensor3) :
extents (attention_weights hp h x) = extents x.
Proof.
unfold attention_weights, extents. rewrite List.map_map. apply map_ext.
intros xb. apply length_attention_weights_row.
Qed.

Lemma Head_call_spec h (x : tensor3) w :
returns (Head_call hp h x) w (fun y w' => steps w w' /\ extents y = extents x).
Proof.
unfold Head_call. apply returns_bind. eapply returns_mono.
{ apply Tensor_dropout_spec. }
intros wei w' (Hs & He & _). apply returns_ret. split; [done|].
rewrite extents_zip_with.
- by rewrite He, extents_attention_weights.
- intros u v. unfold matmul. by rewrite length_map.
- rewrite (extents_length _ _ He), (extents_length _ _ (extents_attention_weights h x)).
unfold attention_values. by rewrite length_map.
Qed.

Lemma extents_foldl_cat_last (o0 : tensor3) (os : list tensor3) :
Forall (fun o => extents o = extents o0) os ->
extents (foldl cat_last o0 os) = extents o0.
Proof.
revert o0. induction os as [|o os IH]; intros o0 HF; [done|].
inversion HF as [|? ? Ho Hos]; subst. simpl.
assert (extents (cat_last o0 o) = extents o0) as Hc.
{ unfold cat_last. by apply extents_zip_with_same. }
rewrite IH; [done|]. eapply Forall_impl; [exact Hos|].
intros o' Ho'. simpl in Ho'. congruence.
Qed.

Lemma MultiHeadAttention_call_spec m (x : tensor3) w :
heads m <> [] ->
returns (MultiHeadAttention_call hp m x) w (fun y w' =>
steps w w' /\ extents y = extents x).
Proof.
intros Hh. unfold MultiHeadAttention_call.
destruct (heads m) as [|h0 hs]; [done|].
apply returns_bind. eapply returns_mono; [apply Head_call_spec|].
intros o0 w1 [Hs1 He0]. apply returns_bind. eapply returns_mono.
{ apply (returns_mapM _ hs (fun w' => steps w w')
                (fun _ o => extents o = extents x)); [done|].
intros h w2 _ Hs2. eapply returns_mono; [apply Head_call_spec|].
intros o w3 [Hs3 He]. split; [done|]. by eapply steps_trans. }
intros os w2 [HF Hs2]. eapply returns_mono; [apply Tensor_dropout_spec|].
intros y w3 (Hs3 & He & _). split; [by eapply steps_trans|].
rewrite He, extents_map_map, extents_foldl_cat_last; [done|].
apply Forall2_const_l in HF. eapply Forall_impl; [exact HF|].
intros o Ho. simpl in Ho. congruence.
Qed.

Lemma FeedForward_call_spec f (x : tensor3) w :
returns (FeedForward_call hp f x) w (fun y w' =>
steps w w' /\ extents y = extents x).
Proof.
unfold FeedForward_call. eapply returns_mono; [apply Tensor_dropout_spec|].
intros y w' (Hs & He & _). split; [done|]. by rewrite He, extents_map_map.
Qed.

Lemma Block_call_spec b (x : tensor3) w :
heads (sa b) <> [] ->
returns (Block_call hp b x) w (fun y w' => steps w w' /\ extents y = extents x).
Proof.
intros Hh. unfold Block_call. apply returns_bind. eapply returns_mono.
{ by apply MultiHeadAttention_call_spec. }
intros a w1 [Hs1 Ha]. rewrite extents_map_map in Ha.
assert (extents (tadd x a) = extents x) as Hx1.
{ unfold tadd. by apply extents_zip_with_same. }
apply returns_bind. eapply returns_mono; [apply FeedForward_call_spec|].
intros f w2 [Hs2 Hf]. rewrite extents_map_map in Hf.
apply returns_ret. split; [by eapply steps_trans|].
unfold tadd at 1. rewrite extents_zip_with_same; [done|]. by rewrite Hf.
Qed.

Lemma blocks_spec (bs : list Block) (x : tensor3) w :
Forall (fun b => heads (sa b) <> []) bs ->
returns (for_each bs (Block_call hp) x) w (fun y w' =>
steps w w' /\ extents y = extents x).
Proof.
intros Hbs.
apply (returns_for_each bs (Block_call hp)
   (fun _ y w' => steps w w' /\ extents y = extents x)).
- split; [apply steps_refl|done].
- intros done b y w1 Hpre [Hs1 He1]. eapply returns_mono.
+ apply Block_call_spec. rewrite Forall_forall in Hbs. apply Hbs.
destruct Hpre as [rest ->]. rewrite <- app_assoc. apply elem_of_app. right. by left.
+ intros y' w2 [Hs2 He2]. split; [by eapply steps_trans|congruence].
Qed.

End TransformerFacts.

(** ** The loss *)

Section LossFacts.
Local Open Scope R_scope.

Lemma numel_app s1 s2 : numel (s1 ++ s2) = (numel s1 * numel s2)%nat.
Proof. induction s1 as [|n s1 IH]; simpl; [lia|]. rewrite IH. lia. Qed.

Lemma numel_snoc s (C : nat) : numel (s ++ [C]) = (numel s * C)%nat.
Proof. rewrite numel_app. simpl. lia. Qed.

Lemma np_index_valid (C : nat) (y : Z) :
(0 <= y < Z.of_nat C)%Z -> np_index C y = Some (Z.to_nat y).
Proof. intros Hy. unfold np_index. by rewrite decide_True. Qed.

Lemma insert_zeros (C k : nat) (v : R) :
(k < C)%nat ->
<[k := v]> (replicate C 0) = map (fun c => if decide (c = k) then v else 0) (range C).
Proof.
intros Hk. apply list_eq. intros i. unfold range.
rewrite list_lookup_fmap.
destruct (decide (i < C)%nat) as [Hi|Hi].
- rewrite lookup_seq_lt by done. simpl.
destruct (decide (i = k)) as [->|Hne].
+ rewrite list_lookup_insert_eq; [done|]. by rewrite length_replicate.
+ rewrite list_lookup_insert_ne by done.
by apply lookup_replicate_2.
- rewrite lookup_seq_ge by lia. simpl.
apply lookup_ge_None_2. rewrite length_insert, length_replicate. lia.
Qed.

Lemma target_row_insert (C : nat) (y : Z) :
(0 <= y < Z.of_nat C)%Z ->
<[Z.to_nat y := -1 * INR C]> (replicate C 0) = target_row C y.
Proof.
intros Hy. rewrite insert_zeros by lia. unfold target_row.
apply map_ext. intros c.
destruct (decide (c = Z.to_nat y)), (decide (Z.of_nat c = y)); try lia; lra.
Qed.

Lemma length_target_row C y : length (target_row C y) = C.
Proof. unfold target_row, range. by rewrite length_map, length_seq. Qed.

(** The index assignment of line 49 builds the target rows. *)
Lemma assign_columns_targets (C : nat) (YY : list Z) :
Forall (fun y => (0 <= y < Z.of_nat C)%Z) YY ->
assign_columns (replicate (length YY) (replicate C 0)) YY (-1 * INR C)
= Some (map (target_row C) YY).
Proof.
induction 1 as [|y YY Hy _ IH]; [done|].
simpl. rewrite length_replicate, np_index_valid by done. simpl.
rewrite IH. simpl. by rewrite target_row_insert.
Qed.

Lemma length_concat_rows (C : nat) (YY : list Z) :
length (concat (map (target_row C) YY)) = (length YY * C)%nat.
Proof.
induction YY as [|y YY IH]; [done|].
simpl. rewrite length_app, length_target_row, IH. lia.
Qed.

Lemma wrap32_targets (C : nat) (YY : list Z) :
(Z.of_nat C <= 2 ^ 31)%Z ->
Forall (fun y => (0 <= y < Z.of_nat C)%Z) YY ->
map (wrap 32) YY = YY.
Proof.
intros HC. induction 1 as [|y YY Hy _ IH]; [done|].
simpl. rewrite IH. f_equal. apply wrap_representable; [lia|].
unfold representable. simpl. lia.
Qed.

(** What [cross_entropy] returns, step by step. *)
Lemma cross_entropy_eq (C : nat) (out : ndarray R) (Y : ndarray Z) :
shape out = shape Y ++ [C] ->
well_shaped out -> well_shaped Y ->
valid_targets C Y ->
(Z.of_nat C <= 2 ^ 31)%Z ->
(0 < numel (shape out))%nat ->
cross_entropy out Y = Some (mean_of_product out (nll_target C Y)).
Proof.
intros Hsh Hout HY Hval HC Hn. unfold cross_entropy.
rewrite Hsh, last_snoc. simpl.
rewrite (wrap32_targets C) by done.
rewrite assign_columns_targets by done. simpl.
unfold reshape. simpl.
rewrite decide_True; [|by rewrite numel_snoc, length_concat_rows, HY].
simpl. unfold Tensor_mul. simpl. rewrite decide_True by done. simpl.
unfold Tensor_mean. simpl.
assert (length (zip_with Rmult (data out) (concat (map (target_row C) (data Y))))
  = length (data out)) as Hlen.
{ rewrite length_zip_with, length_concat_rows, Hout, Hsh, numel_snoc, HY. lia. }
destruct (zip_with Rmult (data out) (concat (map (target_row C) (data Y))))
as [|p ps] eqn:Hp.
- simpl in Hlen. rewrite Hout in Hlen. lia.
- unfold mean_of_product. simpl data. rewrite Hp, Hlen. done.
Qed.

Lemma sum_app (a b : list R) : sum (a ++ b) = sum a + sum b.
Proof. induction a as [|x a IH]; simpl; [lra|]. rewrite IH. lra. Qed.

Lemma sum_zip_app (a1 a2 b1 b2 : list R) :
length a1 = length b1 ->
sum (zip_with Rmult (a1 ++ a2) (b1 ++ b2))
= sum (zip_with Rmult a1 b1) + sum (zip_with Rmult a2 b2).
Proof. intros Hl. by rewrite zip_with_app, sum_app. Qed.

Lemma nth_drop_add {A} (l : list A) (n j : nat) (d : A) :
nth (n + j) l d = nth j (drop n l) d.
Proof. by rewrite !nth_lookup, lookup_drop. Qed.

(** A row times a row that is [v] at [k] and 0 elsewhere. *)
Lemma sum_mul_indicator (a : list R) (k : nat) (v : R) (s n : nat) :
(n <= length a)%nat ->
sum (zip_with Rmult a (map (fun c => if decide (c = k) then v else 0) (seq s n)))
= if decide (s <= k < s + n)%nat then nth (k - s) a 0 * v else 0.
Proof.
revert a s. induction n as [|n IH]; intros a s Hn.
- simpl. rewrite zip_with_nil_r. simpl. by rewrite decide_False by lia.
- destruct a as [|x a]; [simpl in Hn; lia|]. simpl in Hn.
simpl. rewrite IH by lia.
destruct (decide (s = k)) as [->|Hne].
+ rewrite Nat.sub_diag, decide_False, decide_True by lia. simpl. lra.
+ destruct (decide (S s <= k < S s + n)%nat).
* rewrite decide_True by lia.
replace (k - s)%nat with (S (k - S s)) by lia. simpl. lra.
* rewrite decide_False by lia. lra.
Qed.

Lemma sum_mul_target_row (C : nat) (a : list R) (y : Z) :
(0 <= y < Z.of_nat C)%Z -> (C <= length a)%nat ->
sum (zip_with Rmult a (target_row C y)) = INR C * - nth (Z.to_nat y) a 0.
Proof.
intros Hy Ha. unfold target_row, range.
rewrite (map_ext _ (fun c => if decide (c = Z.to_nat y) then - INR C else 0)).
- rewrite sum_mul_indicator by done. rewrite decide_True by lia.
rewrite Nat.sub_0_r. lra.
- intros c. destruct (decide (Z.of_nat c = y)), (decide (c = Z.to_nat y)); try lia; done.
Qed.

(** The sum of the products picks, in every row, the entry of the true
class, times [-C]. *)
Lemma sum_mul_targets (C : nat) (ys : list Z) (d : list R) :
Forall (fun y => (0 <= y < Z.of_nat C)%Z) ys ->
length d = (length ys * C)%nat ->
sum (zip_with Rmult d (concat (map (target_row C) ys)))
= INR C * sum (imap (fun i y => - nth (i * C + Z.to_nat y) d 0) ys).
Proof.
intros Hys. revert d. induction Hys as [|y ys Hy _ IH]; intros d Hd.
- simpl. rewrite zip_with_nil_r. simpl. lra.
- simpl in Hd. rewrite <- (take_drop C d) at 1. simpl concat.
rewrite sum_zip_app by (rewrite length_take, length_target_row; lia).
rewrite IH by (rewrite length_drop; lia).
rewrite sum_mul_target_row; [|done|rewrite length_take; lia].
rewrite imap_cons. simpl sum. simpl Nat.mul. simpl Nat.add.
rewrite Rmult_plus_distr_l. f_equal.
+ f_equal. f_equal. rewrite !nth_lookup, lookup_take_lt by lia. done.
+ f_equal. f_equal. apply imap_ext. intros i y' _. simpl.
f_equal. rewrite <- nth_drop_add. f_equal. lia.
Qed.

Lemma mean_of_product_nll (C : nat) (out : ndarray R) (Y : ndarray Z) :
shape out = shape Y ++ [C] ->
well_shaped out -> well_shaped Y ->
valid_targets C Y ->
(0 < numel (shape out))%nat ->
mean_of_product out (nll_target C Y) = mean_nll C out Y.
Proof.
intros Hsh Hout HY Hval Hn. unfold mean_of_product, mean_nll. simpl data.
assert (length (data out) = (length (data Y) * C)%nat) as Hlen.
{ by rewrite Hout, Hsh, numel_snoc, HY. }
rewrite sum_mul_targets by done. rewrite Hlen, mult_INR.
rewrite Hout in Hlen. 
assert (0 < INR C) as HC by (apply lt_0_INR; nia).
assert (0 < INR (length (data Y))) as HN by (apply lt_0_INR; nia).
field. lra.
Qed.

End LossFacts.

(** ** Softmax and log-softmax *)

Section SoftmaxFacts.
Local Open Scope R_scope.

Lemma sum_nonneg (l : list R) : Forall (fun x => 0 <= x) l -> 0 <= sum l.
Proof. induction 1; simpl; lra. Qed.

Lemma sum_exp_pos (row : vec) : row <> [] -> 0 < sum (map exp row).
Proof.
destruct row as [|x row]; [done|]. intros _. simpl.
pose proof (exp_pos x).
assert (0 <= sum (map exp row)).
{ apply sum_nonneg. apply Forall_forall. intros y Hy.
apply list_elem_of_In, in_map_iff in Hy as (z & <- & _).
left. apply exp_pos. }
lra.
Qed.

Lemma elem_le_sum (l : list R) x :
Forall (fun y => 0 <= y) l -> x ∈ l -> x <= sum l.
Proof.
induction 1 as [|y l Hy Hl IH]; intros Hx.
- by apply elem_of_nil in Hx.
- simpl. pose proof (sum_nonneg l Hl).
apply elem_of_cons in Hx as [->|Hx]; [lra|]. specialize (IH Hx). lra.
Qed.

(** A log-probability is never positive. *)
Lemma log_softmax_nonpos (row : vec) :
Forall (fun v => v <= 0) (log_softmax row).
Proof.
unfold log_softmax. apply Forall_forall. intros v Hv.
apply list_elem_of_In, in_map_iff in Hv as (x & <- & Hx).
apply list_elem_of_In in Hx.
assert (exp x <= sum (map exp row)) as Hle.
{ apply elem_le_sum.
- apply Forall_forall. intros y Hy.
apply list_elem_of_In, in_map_iff in Hy as (z & <- & _). left. apply exp_pos.
- apply list_elem_of_In, in_map. by apply list_elem_of_In. }
assert (x <= ln (sum (map exp row))); [|lra].
rewrite <- (ln_exp x) at 1.
destruct Hle as [Hlt| ->]; [|lra].
left. apply ln_increasing; [apply exp_pos|done].
Qed.

Lemma length_log_softmax row : length (log_softmax row) = length row.
Proof. unfold log_softmax. by rewrite length_map. Qed.

Lemma map_xexp_Fin (row : vec) : map xexp (map Fin row) = map exp row.
Proof. rewrite List.map_map. by apply map_ext. Qed.

(** The softmax of finite scores is a probability distribution. *)
Lemma softmax_Fin_nonneg (row : vec) :
row <> [] -> Forall (fun p => 0 <= p) (softmax (map Fin row)).
Proof.
intros Hne. unfold softmax. rewrite map_xexp_Fin.
pose proof (sum_exp_pos row Hne) as Hs.
apply Forall_forall. intros p Hp.
apply list_elem_of_In, in_map_iff in Hp as (v & <- & Hv).
apply in_map_iff in Hv as (x & <- & _).
apply Rmult_le_pos; [left; apply exp_pos|].
left. by apply Rinv_0_lt_compat.
Qed.

Lemma sum_map_div (l : list R) (s : R) : sum (map (fun v => v / s) l) = sum l / s.
Proof. induction l as [|x l IH]; simpl; [lra|]. rewrite IH. lra. Qed.

Lemma softmax_Fin_sum (row : vec) : row <> [] -> sum (softmax (map Fin row)) = 1.
Proof.
intros Hne. unfold softmax. rewrite map_xexp_Fin.
rewrite sum_map_div. pose proof (sum_exp_pos row Hne). field. lra.
Qed.

Lemma length_softmax row : length (softmax row) = length row.
Proof. unfold softmax. by rewrite !length_map. Qed.

End SoftmaxFacts.

(** ** The model call *)

Section ModelFacts.
Context (hp : hyper).
Local Open Scope R_scope.

Lemma length_Linear_call (l : Linear) (V : nat) (x : vec) :
length (weight l) = V ->
match bias l with Some b => length b = V | None => True end ->
length (Linear_call l x) = V.
Proof.
intros Hw Hb. unfold Linear_call. destruct (bias l) as [b|].
- unfold vadd. rewrite length_zip_with, length_map. lia.
- by rewrite length_map.
Qed.

Lemma length_concat_uniform {A} (l : list (list A)) (n : nat) :
Forall (fun r => length r = n) l -> length (concat l) = (length l * n)%nat.
Proof. induction 1 as [|r l Hr _ IH]; [done|]. simpl. rewrite length_app. lia. Qed.

Lemma tensor3_shape_of_extents (B T V : nat) (x : tensor3) (idx : list (list Z)) :
extents x = extents idx -> tokens_shape B T idx ->
Forall (Forall (fun v => length v = V)) x ->
tensor3_shape B T V x.
Proof.
intros He [HB HT] HV. split.
- rewrite <- HB. apply (extents_length _ _ He).
- apply Forall_forall. intros xb Hxb. split.
+ assert (length xb ∈ extents idx) as Hin.
{ rewrite <- He. unfold extents. apply list_elem_of_In, in_map.
by apply list_elem_of_In. }
unfold extents in Hin. apply list_elem_of_In, in_map_iff in Hin as (r & <- & Hr).
rewrite Forall_forall in HT. apply HT. by apply list_elem_of_In.
+ rewrite Forall_forall in HV. by apply HV.
Qed.

Lemma ndarray_of_tensor3_shape (B T V : nat) (x : tensor3) :
tensor3_shape B T V x -> (1 <= B)%nat -> (1 <= T)%nat ->
shape (ndarray_of_tensor3 x) = [B; T; V] /\ well_shaped (ndarray_of_tensor3 x).
Proof.
intros [HB Hx] H1 H2.
assert (Forall (fun xb => length xb = T) x) as HT.
{ eapply Forall_impl; [exact Hx|]. by intros xb [? _]. }
assert (Forall (fun v => length v = V) (concat x)) as HV.
{ apply Forall_concat. eapply Forall_impl; [exact Hx|]. by intros xb [_ ?]. }
assert (shape (ndarray_of_tensor3 x) = [B; T; V]) as Hsh.
{ unfold ndarray_of_tensor3. simpl.
destruct x as [|xb x]; [simpl in HB; lia|]. simpl.
inversion Hx as [|? ? [HTb HVb] _]; subst.
destruct xb as [|v xb]; [simpl in H2; lia|]. simpl.
inversion HVb; subst. done. }
split; [done|]. unfold well_shaped. rewrite Hsh. simpl.
rewrite (length_concat_uniform _ V) by done.
rewrite (length_concat_uniform _ T) by done.
rewrite HB. ring.
Qed.

Lemma ndarray_of_tokens_shape (B T : nat) (y : list (list Z)) :
tokens_shape B T y -> (1 <= B)%nat ->
shape (ndarray_of_tokens y) = [B; T] /\ well_shaped (ndarray_of_tokens y).
Proof.
intros [HB HT] H1.
assert (shape (ndarray_of_tokens y) = [B; T]) as Hsh.
{ unfold ndarray_of_tokens. simpl. destruct y as [|r y]; [simpl in HB; lia|].
inversion HT; subst. done. }
split; [done|]. unfold well_shaped. rewrite Hsh. simpl.
rewrite (length_concat_uniform _ T) by done. rewrite HB. ring.
Qed.

Lemma nth_nonpos (d : list R) (j : nat) : Forall (fun x => x <= 0) d -> nth j d 0 <= 0.
Proof.
intros Hd. destruct (nth_in_or_default j d 0) as [Hin| ->]; [|lra].
rewrite Forall_forall in Hd. apply Hd. by apply list_elem_of_In.
Qed.

Lemma sum_imap_nonneg {A} (f : nat -> A -> R) (l : list A) :
(forall i y, 0 <= f i y) -> 0 <= sum (imap f l).
Proof.
revert f. induction l as [|y l IH]; intros f Hf; simpl; [lra|].
specialize (IH (f ∘ S)). pose proof (Hf O y).
assert (0 <= sum (imap (f ∘ S) l)) by (apply IH; intros; apply Hf). lra.
Qed.

(** The mean negative log-likelihood of non-positive entries is not
negative. *)
Lemma mean_nll_nonneg (C : nat) (out : ndarray R) (Y : ndarray Z) :
Forall (fun x => x <= 0) (data out) -> 0 <= mean_nll C out Y.
Proof.
intros Hd. unfold mean_nll.
assert (0 <= sum (imap (fun i y => - nth (i * C + Z.to_nat y) (data out) 0) (data Y))).
{ apply sum_imap_nonneg. intros i y.
pose proof (nth_nonpos (data out) (i * C + Z.to_nat y) Hd). lra. }
destruct (data Y) as [|y ys]; [simpl; rewrite Rdiv_0_r; lra|].
apply Rle_mult_inv_pos; [done|]. apply lt_0_INR. simpl. lia.
Qed.

End ModelFacts.

Section ModelCall.
Context (hp : hyper).
Local Open Scope R_scope.

Lemma extents_embeddings (tok pos : Embedding) (idx : list (list Z)) (B T : nat) :
tokens_shape B T idx ->
extents (map (fun xb => zip_with vadd xb (map (Embedding_call pos) (arange_int8 T)))
       (map (map (Embedding_call tok)) idx))
= extents idx.
Proof.
intros [_ HT]. unfold extents. rewrite !List.map_map.
induction HT as [|r idx Hr _ IH]; [done|]. simpl. f_equal; [|done].
unfold arange_int8, range. rewrite length_zip_with, !length_map, length_seq. lia.
Qed.

Lemma hd_tokens_length (B T : nat) (idx : list (list Z)) :
(1 <= B)%nat -> tokens_shape B T idx -> length (hd [] idx) = T.
Proof.
intros HB [Hl HT]. destruct idx as [|r idx]; [simpl in Hl; lia|].
by inversion HT.
Qed.

(** The model call returns logits of shape (B, T, V); apart from draws of
the tensor generator it only adds its mark to the trace; with targets
it returns a loss, the mean negative log-likelihood of the targets
under the log-softmax of the logits, which is not negative. *)
Lemma GPTLanguageModel_call_spec (m : GPTLanguageModel) (idx : list (list Z))
(targets : option (list (list Z))) (w : world) (B T V : nat) :
model_ok m -> lm_head_ok V m -> (1 <= B)%nat ->
tokens_shape B T idx -> targets_ok B T V targets ->
returns (GPTLanguageModel_call hp m idx targets) w (fun r w' =>
tensor3_shape B T V r.1
/\ (exists x : tensor3, r.1 = map (map (Linear_call (lm_head m))) x)
/\ (exists w1, steps w w1
  /\ w' = with_trace (trace w ++ [EvModel (training w) (no_grad w) T r.2]) w1)
/\ match targets with
| None => r.2 = None
| Some tg =>
   let predictions := ndarray_of_tensor3 (map (map log_softmax) r.1) in
   shape predictions = shape (ndarray_of_tokens tg) ++ [V]
   /\ exists l, r.2 = Some l
        /\ cross_entropy predictions (ndarray_of_tokens tg) = Some l
        /\ l = mean_nll V predictions (ndarray_of_tokens tg)
        /\ 0 <= l
end).
Proof.
intros Hm [Hw Hb] HB Hidx Htg.
unfold GPTLanguageModel_call. cbv zeta.
rewrite (hd_tokens_length B T idx HB Hidx).
apply returns_bind. eapply returns_mono; [by apply blocks_spec|].
intros xf w1 [Hs1 He1]. rewrite (extents_embeddings _ _ idx B T Hidx) in He1.
set (logits := map (map (Linear_call (lm_head m)))
             (map (map (LayerNorm_call (ln_f m))) xf)).
assert (tensor3_shape B T V logits) as Hlog.
{ apply (tensor3_shape_of_extents B T V logits idx); [|done|].
- unfold logits. by rewrite !extents_map_map.
- unfold logits. apply Forall_map, Forall_forall. intros xb _.
apply Forall_map, Forall_forall. intros v _. by apply length_Linear_call. }
assert (forall (loss : option R) (Q : tensor3 * option R -> world -> Prop),
Q (logits, loss)
(with_trace (trace w ++ [EvModel (training w) (no_grad w) T loss]) w1) ->
returns (t ← get_training; g ← get_no_grad; _ ← emit (EvModel t g T loss);
       mret (logits, loss)) w1 Q)
as Htail.
{ intros loss Q HQ. apply returns_bind. exists (training w1), w1. split; [done|].
apply returns_bind. exists (no_grad w1), w1. split; [done|].
apply returns_bind. eexists tt, _. split; [reflexivity|].
apply returns_ret.
by rewrite (steps_training _ _ Hs1), (steps_no_grad _ _ Hs1), (steps_trace _ _ Hs1). }
destruct targets as [tg|].
- destruct Htg as (Htg & Hval & HT & HV & H31).
set (pred := map (map log_softmax) logits).
assert (tensor3_shape B T V pred) as Hpred.
{ destruct Hlog as [HlB Hl]. split; [unfold pred; by rewrite length_map|].
unfold pred. apply Forall_map. eapply Forall_impl; [exact Hl|].
intros xb [HxT HxV]. simpl. split; [by rewrite length_map|].
apply Forall_map. eapply Forall_impl; [exact HxV|].
intros v Hv. simpl. by rewrite length_log_softmax. }
destruct (ndarray_of_tensor3_shape B T V pred Hpred HB HT) as [Hsh Hws].
destruct (ndarray_of_tokens_shape B T tg Htg HB) as [HshY HwsY].
assert (shape (ndarray_of_tensor3 pred) = shape (ndarray_of_tokens tg) ++ [V])
as Hshapes by (by rewrite Hsh, HshY).
assert (valid_targets V (ndarray_of_tokens tg)) as Hvt.
{ unfold valid_targets. simpl. by apply Forall_concat. }
assert (0 < numel (shape (ndarray_of_tensor3 pred)))%nat as Hnum.
{ rewrite Hsh. simpl. nia. }
pose proof (cross_entropy_eq V _ _ Hshapes Hws HwsY Hvt H31 Hnum) as Hce.
rewrite (mean_of_product_nll V _ _ Hshapes Hws HwsY Hvt Hnum) in Hce.
apply returns_bind. eapply returns_bind. fold pred.
eapply returns_lift; [exact Hce|]. apply returns_ret.
apply Htail. simpl. split_and!; [done|by eexists|by exists w1|done|].
eexists. split_and!; [done|done|done|].
apply mean_nll_nonneg. simpl. apply Forall_concat, Forall_concat.
unfold pred. apply Forall_map, Forall_forall. intros xb _.
apply Forall_map, Forall_forall. intros v _. apply log_softmax_nonpos.
- apply returns_bind. apply returns_ret. apply Htail. simpl.
split_and!; [done|by eexists|by exists w1|done].
Qed.

End ModelCall.

(** ** The loss: the claims *)

Section LossClaims.
Local Open Scope R_scope.

Lemma lookup_target_rows (C : nat) (ys : list Z) (i c : nat) (y : Z) :
ys !! i = Some y -> (c < C)%nat ->
concat (map (target_row C) ys) !! (i * C + c)%nat
= Some (if decide (Z.of_nat c = y) then - INR C else 0).
Proof.
revert i. induction ys as [|y0 ys IH]; intros i Hi Hc; [done|].
simpl. destruct i as [|i].
- injection Hi as ->. simpl. rewrite lookup_app_l by (by rewrite length_target_row).
unfold target_row, range. rewrite list_lookup_fmap, lookup_seq_lt by done. done.
- simpl in Hi. rewrite lookup_app_r by (rewrite length_target_row; lia).
rewrite length_target_row.
replace (S i * C + c - C)%nat with (i * C + c)%nat by lia. by apply IH.
Qed.

(** C2.  For log-probabilities [out] of shape (..., C) and targets [Y] of
the leading shape that name classes, [cross_entropy out Y] is the mean
over all entries of the element-wise product of [out] with the target
tensor [nll_target C Y]; that tensor has the shape of [out] and holds
[-C] at the true class of every position and 0 everywhere else.  (The
tensors are not empty, and the class count fits the int32 the targets
are cast to.) *)
Theorem cross_entropy_mean_of_product (C : nat) (out : ndarray R) (Y : ndarray Z) :
shape out = shape Y ++ [C] ->
well_shaped out -> well_shaped Y ->
valid_targets C Y ->
(Z.of_nat C <= 2 ^ 31)%Z ->
(0 < numel (shape out))%nat ->
cross_entropy out Y = Some (mean_of_product out (nll_target C Y))
/\ shape (nll_target C Y) = shape out
/\ length (data (nll_target C Y)) = length (data out)
/\ forall (i c : nat) (y : Z), data Y !! i = Some y -> (c < C)%nat ->
data (nll_target C Y) !! (i * C + c)%nat
= Some (if decide (Z.of_nat c = y) then - INR C else 0).
Proof.
intros Hsh Hout HY Hval HC Hn. split_and!.
- by apply cross_entropy_eq.
- by rewrite Hsh.
- simpl. by rewrite length_concat_rows, Hout, Hsh, numel_snoc, HY.
- intros i c y Hi Hc. simpl. by apply lookup_target_rows.
Qed.

Lemma small_tensors_ok :
shape small_out = shape small_targets ++ [2%nat]
/\ well_shaped small_out /\ well_shaped small_targets
/\ valid_targets 2 small_targets
/\ (Z.of_nat 2 <= 2 ^ 31)%Z
/\ (0 < numel (shape small_out))%nat.
Proof.
split_and!; try done.
- unfold valid_targets. simpl. repeat constructor; lia.
- simpl. lia.
Defined.

Lemma cross_entropy_mean_of_product_witness :
cross_entropy small_out small_targets
= Some (mean_of_product small_out (nll_target 2 small_targets)).
Proof.
destruct small_tensors_ok as (H1 & H2 & H3 & H4 & H5 & H6).
exact (proj1 (cross_entropy_mean_of_product 2 small_out small_targets
          H1 H2 H3 H4 H5 H6)).
Defined.

(** C9.  Under the same conditions the value of [cross_entropy] is exactly
the mean negative log-likelihood: minus the log-probability of the
true class, averaged over the positions.  The factor [-C] in the
target tensor cancels against the C classes the mean runs over. *)
Theorem cross_entropy_is_mean_nll (C : nat) (out : ndarray R) (Y : ndarray Z) :
shape out = shape Y ++ [C] ->
well_shaped out -> well_shaped Y ->
valid_targets C Y ->
(Z.of_nat C <= 2 ^ 31)%Z ->
(0 < numel (shape out))%nat ->
cross_entropy out Y = Some (mean_nll C out Y).
Proof.
intros Hsh Hout HY Hval HC Hn.
rewrite <- (mean_of_product_nll C out Y) by done. by apply cross_entropy_eq.
Qed.

Lemma cross_entropy_is_mean_nll_witness :
cross_entropy small_out small_targets = Some (mean_nll 2 small_out small_targets)
/\ mean_nll 2 small_out small_targets = 1.
Proof.
destruct small_tensors_ok as (H1 & H2 & H3 & H4 & H5 & H6).
split.
- exact (cross_entropy_is_mean_nll 2 small_out small_targets H1 H2 H3 H4 H5 H6).
- unfold mean_nll. simpl. lra.
Defined.

End LossClaims.

(** ** The loss of the model call *)


Lemma small_model_ok : model_ok small_model /\ lm_head_ok 2 small_model.
Proof.
  split.
  - unfold model_ok. simpl. repeat constructor. done.
  - by split.
Defined.


(** ** Positions *)

Lemma wrap_is_representable w z : 0 < w -> representable w (wrap w z).
Proof.
  intros Hw. unfold representable, wrap.
  assert (2 ^ w = 2 * 2 ^ (w - 1)) as Hp.
  { rewrite <- Z.pow_succ_r by lia. f_equal. lia. }
  assert (0 < 2 ^ (w - 1)) by (apply Z.pow_pos_nonneg; lia).
  pose proof (Z.mod_pos_bound (z + 2 ^ (w - 1)) (2 ^ w)). lia.
Qed.

Lemma lookup_arange_int8 (T t : nat) :
  (t < T)%nat -> arange_int8 T !! t = Some (wrap 8 (Z.of_nat t)).
Proof.
  intros Ht. unfold arange_int8, range.
  by rewrite list_lookup_fmap, lookup_seq_lt.
Qed.

(** C10.  The positions the model looks its position table up at are
    0 .. T-1 stored in eight bits.  They are the positions themselves
    exactly when T <= 128.  For T > 128 every position from 128 on is not
    representable in int8, and the index stored for it is another number;
    nothing fails: the list of indices still has T entries, and the model
    call returns for an input of any width T, whatever [block_size] is. *)
Theorem arange_int8_positions (T : nat) :
  length (arange_int8 T) = T
  /\ ((T <= 128)%nat <-> arange_int8 T = map Z.of_nat (range T))
  /\ ((128 < T)%nat ->
      forall t : nat, (128 <= t < T)%nat ->
        ~ representable 8 (Z.of_nat t)
        /\ exists p, arange_int8 T !! t = Some p
                     /\ representable 8 p /\ p <> Z.of_nat t)
  /\ (forall (hp : hyper) (m : GPTLanguageModel) (idx : list (list Z))
        (w : world) (B V : nat),
        model_ok m -> lm_head_ok V m -> (1 <= B)%nat -> tokens_shape B T idx ->
        exists logits w',
          GPTLanguageModel_call hp m idx None w = Some ((logits, None), w')
          /\ tensor3_shape B T V logits).
Proof.
  split_and!.
  - unfold arange_int8, range. by rewrite length_map, length_seq.
  - split.
    + intros HT. unfold arange_int8. apply map_ext_in. intros t Ht.
      apply in_seq in Ht. apply wrap_representable; [lia|].
      unfold representable. simpl. lia.
    + intros Heq. destruct (decide (T <= 128)%nat) as [|Hgt]; [done|]. exfalso.
      assert (arange_int8 T !! 128%nat = Some 128) as H128.
      { rewrite Heq. unfold range. rewrite list_lookup_fmap, lookup_seq_lt by lia. done. }
      rewrite lookup_arange_int8 in H128 by lia. by vm_compute in H128.
  - intros HT t Ht.
    assert (~ representable 8 (Z.of_nat t)) as Hnr.
    { unfold representable. simpl. lia. }
    split; [done|]. exists (wrap 8 (Z.of_nat t)).
    split_and!; [apply lookup_arange_int8; lia|apply wrap_is_representable; lia|].
    intros Heq. apply Hnr. rewrite <- Heq. apply wrap_is_representable. lia.
  - intros hp m idx w B V Hm Hh HB Hidx.
    destruct (GPTLanguageModel_call_spec hp m idx None w B T V)
      as ([logits loss] & w' & Hcall & Hshape & _ & _ & Hnone); [done..|].
    simpl in *. subst loss. by exists logits, w'.
Qed.

(** ** The causal mask *)

Section Causal.
Context (hp : hyper).
Local Open Scope R_scope.

(** Entry (t, t') of the mask is negative infinity above the diagonal and
0 on and below it. *)
Lemma lookup_causal_mask (T t t' : nat) :
(t < T)%nat -> (t' < T)%nat ->
exists row, causal_mask T !! t = Some row
/\ length row = T
/\ row !! t' = Some (if (t + 1 <=? t')%nat then NegInf else Fin 0).
Proof.
intros Ht Ht'. unfold causal_mask, triu, neg_inf_matrix.
eexists. rewrite list_lookup_imap, lookup_replicate_2 by done. simpl.
split_and!; [done|by rewrite length_imap, length_replicate|].
rewrite list_lookup_imap, lookup_replicate_2 by done. simpl.
by destruct (t + 1 <=? t')%nat.
Qed.

(** A masked score gets weight exactly 0. *)
Lemma softmax_masked (row : list xreal) (t' : nat) :
row !! t' = Some NegInf -> softmax row !! t' = Some 0.
Proof.
intros Hr. unfold softmax. cbv zeta. rewrite !list_lookup_fmap, Hr. simpl.
by rewrite Rdiv_0_l.
Qed.

Lemma attention_weights_row_masked (h : Head) (xb : mat) (t t' : nat) :
(t < t')%nat -> (t' < length xb)%nat ->
exists row, attention_weights_row hp h xb !! t = Some row
/\ length row = length xb
/\ row !! t' = Some 0.
Proof.
intros Htt HT. unfold attention_weights_row.
set (kqv := map (Linear_call (to_kqv h)) xb).
set (wei := map (map (fun s => s * attention_scale hp))
          (matmul_nt (map (kqv_part 1) kqv) (map (kqv_part 0) kqv))).
assert (length kqv = length xb) as Hkqv by (unfold kqv; by rewrite length_map).
assert (exists wt, wei !! t = Some wt /\ length wt = length xb) as (wt & Hwt & Hlw).
{ destruct (lookup_lt_is_Some_2 kqv t) as [v Hv]; [lia|].
eexists. unfold wei, matmul_nt. rewrite !list_lookup_fmap, Hv. simpl.
split; [done|]. by rewrite !length_map. }
destruct (lookup_causal_mask (length xb) t t') as (mrow & Hm & Hlm & Hmt); [lia|done|].
destruct (lookup_lt_is_Some_2 wt t') as [s Hs]; [lia|].
eexists. rewrite list_lookup_fmap, lookup_zip_with, list_lookup_fmap, Hwt, Hm.
simpl. split_and!; [done| |].
- rewrite length_softmax, length_zip_with, length_map. lia.
- apply softmax_masked.
rewrite lookup_zip_with, list_lookup_fmap, Hs, Hmt. simpl.
destruct (Nat.leb_spec (t + 1) t'); [done|lia].
Qed.

End Causal.

(** C1.  In every attention head, whatever its weights and whatever the
    input (a batch of rows of T feature vectors, T >= 1), the attention
    weights after the causal mask and the softmax form a (B, T, T) tensor
    whose entry (t, t') is exactly 0 whenever t' > t.  Every head of every
    layer is such a head applied to such an input. *)
Theorem causal_attention_weights_zero (hp : hyper) (h : Head) (x : tensor3)
    (b t t' : nat) (xb : mat) :
  x !! b = Some xb -> (t < t')%nat -> (t' < length xb)%nat ->
  exists wb row,
    attention_weights hp h x !! b = Some wb
    /\ length wb = length xb
    /\ wb !! t = Some row
    /\ length row = length xb
    /\ row !! t' = Some 0%R.
Proof.
  intros Hb Htt HT.
  destruct (attention_weights_row_masked hp h xb t t' Htt HT) as (row & Hrow & Hl & H0).
  exists (attention_weights_row hp h xb), row.
  unfold attention_weights. rewrite list_lookup_fmap, Hb. simpl.
  split_and!; [done|apply length_attention_weights_row|done..].
Qed.

Lemma causal_attention_weights_zero_witness :
  exists wb row,
    attention_weights small_hyper {| to_kqv := small_linear [[1]; [1]; [1]]%R None |}
      [[[1]; [2]; [3]]]%R !! 0%nat = Some wb
    /\ wb !! 0%nat = Some row
    /\ row !! 2%nat = Some 0%R.
Proof.
  destruct (causal_attention_weights_zero small_hyper
              {| to_kqv := small_linear [[1]; [1]; [1]]%R None |}
              [[[1]; [2]; [3]]]%R 0 0 2 [[1]; [2]; [3]]%R)
    as (wb & row & H1 & _ & H2 & _ & H3); [done|lia|simpl; lia|].
  by exists wb, row.
Defined.

(** ** Sampling *)

Section SamplingFacts.
Local Open Scope R_scope.

Lemma last_cumsum_from (acc : R) (p : vec) :
p <> [] -> last (cumsum_from acc p) = Some (acc + sum p).
Proof.
revert acc. induction p as [|x p IH]; intros acc Hp; [done|].
destruct p as [|y p].
- simpl. f_equal. lra.
- specialize (IH (acc + x) ltac:(done)). cbn [cumsum_from sum foldr] in *.
rewrite last_cons_cons, IH. f_equal. lra.
Qed.

Lemma length_cumsum_from (acc : R) (p : vec) : length (cumsum_from acc p) = length p.
Proof. revert acc. induction p as [|x p IH]; intros acc; simpl; [done|]. by rewrite IH. Qed.

(** The insertion point stays below the length when the last entry is above
the value searched. *)
Lemma searchsorted_right_lt (cdf : vec) (u c : R) :
last cdf = Some c -> u < c -> (searchsorted_right cdf u < length cdf)%nat.
Proof.
induction cdf as [|x cdf IH]; intros Hl Hu; [done|].
simpl. destruct (decide (x <= u)) as [Hx|Hx]; [|lia].
destruct cdf as [|y cdf].
- simpl in Hl. injection Hl as ->. lra.
- rewrite last_cons_cons in Hl. specialize (IH Hl Hu).
cbn [length] in *. lia.
Qed.

(** A draw below 1 selects an index of a distribution. *)
Lemma inverse_cdf_lt (p : vec) (u : Q) :
p <> [] -> sum p = 1 -> (u < 1)%Q -> (inverse_cdf p u < length p)%nat.
Proof.
intros Hp Hs Hu. unfold inverse_cdf, cumsum. cbv zeta.
rewrite last_cumsum_from by done. simpl.
rewrite <- (length_cumsum_from 0 p).
rewrite <- (length_map (fun c => c / (0 + sum p)) (cumsum_from 0 p)).
apply (searchsorted_right_lt _ _ 1).
- rewrite fmap_last, last_cumsum_from by done. simpl. f_equal. rewrite Hs. lra.
- apply Qlt_Rlt in Hu. by rewrite RMicromega.Q2R_1 in Hu.
Qed.

Lemma lookup_cumsum_from (acc : R) (p : vec) (i : nat) :
(i < length p)%nat ->
cumsum_from acc p !! i = Some (acc + sum (take (S i) p)).
Proof.
revert acc i. induction p as [|x p IH]; intros acc i Hi; [simpl in Hi; lia|].
destruct i as [|i].
- cbn [cumsum_from take sum foldr]. rewrite take_0. simpl. f_equal. lra.
- change (cumsum_from acc (x :: p) !! S i) with (cumsum_from (acc + x) p !! i).
rewrite IH by (simpl in Hi; lia).
change (take (S (S i)) (x :: p)) with (x :: take (S i) p).
change (sum (x :: take (S i) p)) with (x + sum (take (S i) p)).
f_equal. lra.
Qed.

(** [searchsorted_right] returns the number [k] of an entry above the
value searched, with every entry before it at most that value. *)
Lemma searchsorted_right_spec (cdf : vec) (u : R) :
(forall i c, (i < searchsorted_right cdf u)%nat -> cdf !! i = Some c -> c <= u)
/\ (forall c, cdf !! searchsorted_right cdf u = Some c -> u < c).
Proof.
induction cdf as [|x cdf [IH1 IH2]]; [by split|].
simpl. destruct (decide (x <= u)) as [Hx|Hx]; split.
- intros [|i] c Hi Hc; simpl in Hc; [by injection Hc as <-|].
apply (IH1 i); [lia|done].
- intros c Hc. simpl in Hc. by apply IH2.
- intros i c Hi. lia.
- intros c Hc. simpl in Hc. injection Hc as <-. lra.
Qed.

Lemma sum_take_le (p : vec) (i j : nat) :
Forall (fun x => 0 <= x) p -> (i <= j)%nat -> sum (take i p) <= sum (take j p).
Proof.
intros Hp. revert i j. induction Hp as [|x p Hx Hp IH]; intros i j Hij.
- rewrite !take_nil. lra.
- destruct i as [|i]; [|destruct j as [|j]; [lia|]].
+ rewrite take_0. change (sum []) with 0. apply sum_nonneg.
  apply Forall_take. by constructor.
+ cbn [take sum foldr]. specialize (IH i j ltac:(lia)).
  unfold sum in IH. lra.
Qed.

(** The index drawn is the outcome of the draw, and the only one. *)
Lemma inverse_cdf_sampled (p : vec) (u : Q) :
p <> [] -> Forall (fun x => 0 <= x) p -> sum p = 1 ->
(0 <= u)%Q -> (u < 1)%Q ->
sampled p u (inverse_cdf p u).
Proof.
intros Hp Hnn Hs Hu0 Hu1.
pose proof (inverse_cdf_lt p u Hp Hs Hu1) as Hlt.
split; [done|]. unfold inverse_cdf, cumsum in *. cbv zeta in *.
rewrite last_cumsum_from in * by done. simpl in *.
set (cdf := map (fun c => c / (0 + sum p)) (cumsum_from 0 p)) in *.
assert (forall i, (i < length p)%nat -> cdf !! i = Some (sum (take (S i) p))) as Hcdf.
{ intros i Hi. unfold cdf. rewrite list_lookup_fmap, lookup_cumsum_from by done.
simpl. f_equal. rewrite Hs. field. }
destruct (searchsorted_right_spec cdf (Q2R u)) as [Hbefore Hat].
set (k := searchsorted_right cdf (Q2R u)) in *. split.
- destruct k as [|k0] eqn:Hk.
+ rewrite take_0. change (sum []) with 0. apply Qle_Rle in Hu0.
  by rewrite RMicromega.Q2R_0 in Hu0.
+ apply (Hbefore k0); [lia|]. apply Hcdf. lia.
- apply Hat. by apply Hcdf.
Qed.

Lemma sampled_unique (p : vec) (u : Q) (k k' : nat) :
Forall (fun x => 0 <= x) p -> sampled p u k -> sampled p u k' -> k = k'.
Proof.
intros Hp [_ [Hl Hu]] [_ [Hl' Hu']].
destruct (lt_eq_lt_dec k k') as [[Hlt| ->]|Hgt]; [|done|].
- pose proof (sum_take_le p (S k) k' Hp ltac:(lia)). lra.
- pose proof (sum_take_le p (S k') k Hp ltac:(lia)). lra.
Qed.

Lemma choice_eq (p : vec) (w : world) :
p <> [] -> Forall (fun x => 0 <= x) p -> sum p = 1 ->
choice p w = Some ([inverse_cdf p (rng_head (numpy_rng w))],
             with_numpy_rng (rng_tail (numpy_rng w)) w).
Proof.
intros Hp Hn Hs. unfold choice.
rewrite decide_False by done. rewrite decide_True by done. done.
Qed.

End SamplingFacts.

(** ** Generation *)

Section GenerateFacts.
Context (hp : hyper) (cs : list ascii).
Local Open Scope R_scope.

Lemma py_slice_from_last_n {A} (row : list A) (n : nat) :
(1 <= n)%nat -> py_slice_from row (- Z.of_nat n) = last_n n row.
Proof.
intros Hn. unfold py_slice_from, slice_bound, last_n.
destruct (Z.ltb_spec (- Z.of_nat n) 0); [|lia]. f_equal. lia.
Qed.

Lemma length_last_n {A} (n : nat) (l : list A) :
length (last_n n l) = Nat.min (length l) n.
Proof. unfold last_n. rewrite length_drop. lia. Qed.

Lemma crop_last_n (idx : list (list Z)) :
(1 <= block_size hp)%nat -> crop hp idx = map (last_n (block_size hp)) idx.
Proof.
intros Hbs. unfold crop. apply map_ext. intros row.
by apply py_slice_from_last_n.
Qed.

Lemma crop_shape (B T : nat) (idx : list (list Z)) :
(1 <= block_size hp)%nat -> tokens_shape B T idx ->
tokens_shape B (Nat.min T (block_size hp)) (crop hp idx).
Proof.
intros Hbs [HB HT]. rewrite crop_last_n by done. split; [by rewrite length_map|].
apply Forall_map. eapply Forall_impl; [exact HT|].
intros row Hr. simpl. by rewrite length_last_n, Hr.
Qed.

Lemma last_n_snoc {A} (n : nat) (l : list A) (x : A) :
(1 <= n)%nat -> last_n n (last_n n l ++ [x]) = last_n n (l ++ [x]).
Proof.
intros Hn. unfold last_n. rewrite !length_app, length_drop. simpl.
destruct (decide (length l <= n)%nat) as [Hle|Hgt].
- replace (length l - n)%nat with O by lia. simpl. by rewrite Nat.sub_0_r.
- rewrite !drop_app_le by (rewrite ?length_drop; lia).
rewrite drop_drop. do 2 f_equal. lia.
Qed.

Lemma mapM_py_last (B T V : nat) (logits : tensor3) :
tensor3_shape B T V logits -> (1 <= T)%nat ->
exists lasts, mapM py_last logits = Some lasts
/\ length lasts = B /\ Forall (fun l => length l = V) lasts.
Proof.
intros [HB Hx] HT. revert B HB.
induction Hx as [|xb x [HxT HxV] _ IH]; intros B HB.
- exists []. by rewrite <- HB.
- destruct (IH _ eq_refl) as (lasts & Hm & Hl & HV).
destruct (last xb) as [l|] eqn:Hlast.
+ exists (l :: lasts). split_and!; [|simpl in *; lia|].
{ apply mapM_Some. constructor; [done|]. by apply mapM_Some. }
constructor; [|done]. rewrite Forall_forall in HxV. apply HxV.
by apply last_Some_elem_of.
+ apply last_None in Hlast. subst xb. simpl in HxT. lia.
Qed.

Lemma zip_with_singletons (idx : list (list Z)) (next : list nat) :
zip_with (fun row n => row ++ map Z.of_nat n) idx (map (fun k => [k]) next)
= zip_with (fun row k => row ++ [Z.of_nat k]) idx next.
Proof.
revert next. induction idx as [|r idx IH]; intros [|k next]; simpl; [done..|].
by rewrite IH.
Qed.

(** Drawing from several distributions in turn uses the draws of numpy's
generator in order. *)
Lemma mapM_choice_eq (probs : list (list R)) (w : world) :
Forall distribution probs ->
mapM choice probs w
= Some (map (fun k => [k])
        (zip_with (fun p n => inverse_cdf p (numpy_rng w n)) probs
                  (seq 0 (length probs))),
    with_numpy_rng (rng_skip (length probs) (numpy_rng w)) w).
Proof.
intros Hp. revert w. induction Hp as [|p probs (Hne & Hnn & Hs) _ IH]; intros w.
- by destruct w.
- cbn [mapM]. erewrite bind_Some by (by apply choice_eq).
erewrite bind_Some by apply IH.
unfold mret, M_ret. f_equal. f_equal.
+ cbn [length seq zip_with map]. f_equal.
rewrite <- seq_shift. f_equal. by rewrite zip_with_fmap_r.
+ unfold with_numpy_rng. cbn [training tensor_rng numpy_rng trace length].
f_equal. unfold rng_skip. by rewrite Nat.iter_succ_r.
Qed.

Lemma softmax_distribution (l : list R) :
l <> [] -> distribution (softmax (map Fin l)).
Proof.
intros Hne. split_and!.
- intros Heq. apply (f_equal length) in Heq.
rewrite length_softmax, length_map in Heq. by destruct l.
- by apply softmax_Fin_nonneg.
- by apply softmax_Fin_sum.
Qed.

(** One round of generation: the model sees the cropped context; for each
row the logits of the last position are softmaxed into a distribution
and one token is drawn from it with the next draw of numpy's
generator; the tokens are appended, the first row's token is decoded
and printed. *)
Lemma generate_step_spec (m : GPTLanguageModel)
(st : list (list Z) * list ascii) (w : world) (B T : nat) :
model_ok m -> lm_head_ok (length cs) m ->
(1 <= length cs)%nat -> (1 <= block_size hp)%nat ->
(1 <= B)%nat -> (1 <= T)%nat ->
tokens_shape B T st.1 -> rng_ok (numpy_rng w) ->
returns (generate_step hp cs m st) w (fun st' w' =>
exists (next : list nat) (k0 : nat) (c : ascii) (lasts : list (list R)),
length next = B
/\ Forall (fun k => (k < length cs)%nat) next
/\ head next = Some k0 /\ cs !! k0 = Some c
/\ st'.1 = crop hp (zip_with (fun row k => row ++ [Z.of_nat k]) st.1 next)
/\ st'.2 = st.2 ++ [c]
/\ training w' = training w
/\ rng_ok (numpy_rng w')
/\ trace w' = trace w ++ [EvModel (training w) (no_grad w)
                                  (Nat.min T (block_size hp)) None;
                          EvToken [c]]
/\ (exists x : tensor3,
      Forall2 (fun xb l => exists v, last xb = Some v
                             /\ l = Linear_call (lm_head m) v) x lasts)
/\ Forall (fun l => distribution (softmax (map Fin l))) lasts
/\ next = zip_with (fun l n => inverse_cdf (softmax (map Fin l)) (numpy_rng w n))
                   lasts (seq 0 B)
/\ numpy_rng w' = rng_skip B (numpy_rng w)
/\ no_grad w' = no_grad w
/\ exists (logits : tensor3) (wa : world),
     GPTLanguageModel_call hp m (crop hp st.1) None w = Some ((logits, None), wa)
     /\ tensor3_shape B (Nat.min T (block_size hp)) (length cs) logits
     /\ mapM py_last logits = Some lasts).
Proof.
intros Hm Hh HV Hbs HB HT Hidx Hg.
set (V := length cs) in *. set (T' := Nat.min T (block_size hp)).
unfold generate_step. cbv zeta.
destruct (GPTLanguageModel_call_spec hp m (crop hp st.1) None w B T' V)
as ([logits loss] & wa & Hcall & Hshape & (x & Hx) & (w1 & Hs1 & Hwa) & Hnone);
[done|done|done|by apply crop_shape|done|].
simpl in Hshape, Hx, Hwa, Hnone. subst loss.
apply returns_bind. exists (logits, None), wa. split; [exact Hcall|]. simpl.
destruct (mapM_py_last B T' V logits Hshape) as (lasts & Hlasts & HlB & HlV);
[unfold T'; lia|].
apply returns_bind. eapply returns_lift; [exact Hlasts|].
assert (training wa = training w
    /\ trace wa = trace w ++ [EvModel (training w) (no_grad w) T' None]
    /\ numpy_rng wa = numpy_rng w /\ no_grad wa = no_grad w)
as (Htr & Htrace & Hga & Hnga).
{ subst wa. simpl.
rewrite (steps_training _ _ Hs1), (steps_numpy_rng _ _ Hs1), (steps_no_grad _ _ Hs1).
done. }
assert (Forall (fun l => distribution (softmax (map Fin l))) lasts) as Hdist.
{ eapply Forall_impl; [exact HlV|]. intros l Hl. simpl in Hl.
apply softmax_distribution. intros ->. simpl in Hl. lia. }
set (probs := map (fun l => softmax (map Fin l)) lasts).
set (next := zip_with (fun l n => inverse_cdf (softmax (map Fin l)) (numpy_rng w n))
                  lasts (seq 0 B)).
assert (mapM choice probs wa
    = Some (map (fun k => [k]) next,
            with_numpy_rng (rng_skip B (numpy_rng w)) wa)) as Hch.
{ rewrite mapM_choice_eq by (unfold probs; by apply Forall_map).
unfold probs, next. rewrite length_map, HlB, Hga. by rewrite zip_with_fmap_l. }
apply returns_bind. eexists _, _. split; [exact Hch|].
assert (length next = B) as HnB.
{ unfold next. rewrite length_zip_with, length_seq. lia. }
assert (Forall (fun k => (k < V)%nat) next) as HnV.
{ unfold next. apply Forall_forall. intros k Hk.
apply elem_of_lookup_zip_with in Hk as (i & l & n & -> & Hl & Hn).
assert (length l = V) as HlenV.
{ rewrite Forall_forall in HlV. apply HlV. by eapply list_elem_of_lookup_2. }
assert (distribution (softmax (map Fin l))) as (Hne & _ & Hsum).
{ rewrite Forall_forall in Hdist. apply Hdist. by eapply list_elem_of_lookup_2. }
rewrite <- HlenV, <- (length_map Fin l), <- (length_softmax (map Fin l)).
apply inverse_cdf_lt; [done|done|apply Hg]. }
destruct next as [|k0 next'] eqn:Hnext; [simpl in HnB; lia|].
assert (k0 < V)%nat as Hk0 by (by inversion HnV).
destruct (lookup_lt_is_Some_2 cs k0 Hk0) as [c Hc].
apply returns_bind. eapply returns_lift; [reflexivity|].
apply returns_bind. eapply (returns_lift _ [c]).
{ unfold decode. simpl. rewrite itos_lookup, Hc. done. }
apply returns_bind. eexists tt, _. split; [reflexivity|].
apply returns_ret. exists (k0 :: next'), k0, c, lasts.
split_and!; [done|done|done|done| |done| | | | |done|done| | |].
- simpl. f_equal. apply (zip_with_singletons st.1 (k0 :: next')).
- simpl. congruence.
- simpl. by apply rng_skip_ok.
- simpl. rewrite Htrace, <- app_assoc. done.
- exists x. apply mapM_Some in Hlasts. rewrite Hx in Hlasts.
apply Forall2_fmap_l in Hlasts. eapply Forall2_impl; [exact Hlasts|].
intros xb l Hl. simpl in Hl. unfold py_last in Hl. rewrite fmap_last in Hl.
destruct (last xb) as [v|]; [|done]. exists v. split; [done|].
simpl in Hl. congruence.
- done.
- simpl. congruence.
- by exists logits, wa.
Qed.

End GenerateFacts.

Section GenerateLoop.
Context (hp : hyper) (cs : list ascii).

Lemma crop_snoc_rows (ctx idx : list (list Z)) (appended : list (list nat))
(next : list nat) :
(1 <= block_size hp)%nat ->
crop hp ctx = crop hp (append_tokens idx appended) ->
crop hp (zip_with (fun row k => row ++ [Z.of_nat k]) ctx next)
= crop hp (append_tokens idx (zip_with (fun a n => a ++ [n]) appended next)).
Proof.
intros Hbs. rewrite !crop_last_n by done. unfold append_tokens.
revert idx appended next.
induction ctx as [|r ctx IH]; intros [|row idx] [|a appended] [|n next] H;
simpl in *; try done.
injection H as Hr Hrest. f_equal; [|by apply IH].
rewrite <- last_n_snoc, Hr, last_n_snoc by done.
by rewrite map_app, app_assoc.
Qed.

Lemma append_tokens_nil (idx : list (list Z)) :
append_tokens idx (replicate (length idx) []) = idx.
Proof.
unfold append_tokens. induction idx as [|r idx IH]; [done|].
simpl. by rewrite IH, app_nil_r.
Qed.

Lemma generation_trace_snoc mode ng T out c :
generation_trace hp mode ng T (out ++ [c])
= generation_trace hp mode ng T out
++ [EvModel mode ng (Nat.min (T + length out) (block_size hp)) None; EvToken [c]].
Proof.
unfold generation_trace. rewrite imap_app, concat_app. simpl.
by rewrite Nat.add_0_r.
Qed.

(** A round of [generate_step] is a round of generation as the
specification words it. *)
Lemma generate_step_round (m : GPTLanguageModel)
(st : list (list Z) * list ascii) (w : world) (B T : nat) :
model_ok m -> lm_head_ok (length cs) m ->
(1 <= length cs)%nat -> (1 <= block_size hp)%nat ->
(1 <= B)%nat -> (1 <= T)%nat ->
tokens_shape B T st.1 -> rng_ok (numpy_rng w) ->
returns (generate_step hp cs m st) w (fun st' w' =>
generation_round hp cs m B (Nat.min T (block_size hp)) st w st' w'
/\ tokens_shape B (Nat.min (T + 1) (block_size hp)) st'.1
/\ rng_ok (numpy_rng w')).
Proof.
intros Hm Hh HV Hbs HB HT Hidx Hg.
eapply returns_mono; [by apply (generate_step_spec hp cs m st w B T)|].
intros st' w' (next & k0 & c & lasts & HnB & HnV & Hhd & Hc & Hst1 & Hst2
             & _ & Hg2 & _ & _ & Hdist & Hnext & Hnp & _
             & logits & wa & Hcall & Hshape & Hlasts).
set (T' := Nat.min T (block_size hp)) in *.
split_and!; [|  |done].
- exists logits, wa, lasts, next. split_and!; [|done| |done|done| | | |done].
+ by rewrite <- crop_last_n.
+ apply mapM_Some in Hlasts. destruct Hshape as [_ Hrows].
  clear -Hlasts Hrows. induction Hlasts as [|xb l x lasts Hl _ IH]; [constructor|].
  inversion Hrows as [|? ? [HxT _] Hrows']; subst.
  constructor; [|by apply IH]. unfold py_last in Hl.
  rewrite last_lookup in Hl. rewrite <- Hl. f_equal. lia.
+ intros b l k Hl Hk.
  assert (k = inverse_cdf (softmax (map Fin l)) (numpy_rng w b)) as Hkeq.
  { rewrite Hnext in Hk. rewrite lookup_zip_with, Hl in Hk. simpl in Hk.
    destruct (seq 0 B !! b) as [n|] eqn:Hn; [|done]. simpl in Hk.
    apply lookup_seq in Hn as [-> _]. by injection Hk as <-. }
  assert (distribution (softmax (map Fin l))) as (Hne & Hnn & Hsum).
  { rewrite Forall_forall in Hdist. apply Hdist. by eapply list_elem_of_lookup_2. }
  assert (sampled (softmax (map Fin l)) (numpy_rng w b) k) as Hs.
  { rewrite Hkeq. apply inverse_cdf_sampled; [done..|apply Hg|apply Hg]. }
  split_and!; [|done|].
  * rewrite Forall_forall in HnV. apply HnV. by eapply list_elem_of_lookup_2.
  * intros k' Hk'. by apply (sampled_unique _ _ _ _ Hnn Hk' Hs).
+ by rewrite Hst1, crop_last_n.
+ exists k0, c. split_and!; [|done..]. by rewrite <- head_lookup.
- rewrite Hst1. apply crop_shape; [done|]. destruct Hidx as [HlB HlT]. split.
+ rewrite length_zip_with. lia.
+ clear -HlT. revert next. induction HlT as [|r idx Hr _ IH]; intros [|k next];
    simpl; try constructor; [|by apply IH].
  rewrite length_app. simpl. lia.
Qed.

(** The run of [generate]: one state per round and the last; each round
is a round of generation, and round [j] shows the model
[min (T + j) block_size] positions. *)
Lemma generate_run_spec (m : GPTLanguageModel) (idx : list (list Z))
(N : nat) (w : world) (B T : nat) :
model_ok m -> lm_head_ok (length cs) m ->
(1 <= length cs)%nat -> (1 <= block_size hp)%nat ->
(1 <= B)%nat -> (1 <= T)%nat ->
tokens_shape B T idx -> rng_ok (numpy_rng w) ->
exists run : list ((list (list Z) * list ascii) * world),
length run = S N
/\ run !! 0%nat = Some ((idx, []), w)
/\ (exists p, run !! N = Some p
    /\ for_each (range N) (fun _ => generate_step hp cs m) (idx, []) w = Some p)
/\ forall (j : nat) p p', run !! j = Some p -> run !! S j = Some p' ->
   generate_step hp cs m p.1 p.2 = Some p'
   /\ generation_round hp cs m B (Nat.min (T + j) (block_size hp))
        p.1 p.2 p'.1 p'.2.
Proof.
intros Hm Hh HV Hbs HB HT Hidx Hg.
pose (I := fun (done : list nat) (st : list (list Z) * list ascii) (w' : world) =>
exists T', (1 <= T')%nat /\ tokens_shape B T' st.1
  /\ Nat.min T' (block_size hp) = Nat.min (T + length done) (block_size hp)
  /\ rng_ok (numpy_rng w')).
assert (forall done st w1, I done st w1 ->
        returns (generate_step hp cs m st) w1 (fun st' w' =>
          I (done ++ [length done]) st' w'
          /\ generation_round hp cs m B (Nat.min (T + length done) (block_size hp))
               st w1 st' w')) as Hround.
{ intros done st w1 (T' & HT' & Hsh & Hmin & Hg1).
eapply returns_mono;
  [by apply (generate_step_round m st w1 B T')|].
intros st' w' (Hr & Hsh' & Hg'). split; [|by rewrite <- Hmin].
exists (Nat.min (T' + 1) (block_size hp)). rewrite length_app. simpl.
split_and!; [lia|done|lia|done]. }
destruct (returns_for_each_run (range N) (fun _ => generate_step hp cs m) I
          (idx, []) w) as (run & Hlen & Hhd & (p & Hp & Hfor & _) & Hrun).
{ exists T. simpl. rewrite Nat.add_0_r. by split_and!. }
{ intros done x st w1 Hpre HI. apply prefix_range in Hpre as [-> _].
eapply returns_mono; [by apply Hround|]. by intros st' w' [HI' _]. }
unfold range in *. rewrite length_seq in *.
exists run. split_and!; [done|done|by exists p|].
intros j q q' Hq Hq'.
assert (j < N)%nat as Hj.
{ apply lookup_lt_Some in Hq'. lia. }
destruct (Hrun j j q) as [HI (q0 & Hq0 & Hbody)]; [by apply lookup_seq|done|].
rewrite Hq' in Hq0. injection Hq0 as <-. split; [done|].
destruct q as [st w1], q' as [st' w']. simpl in *.
destruct (Hround (take j (seq 0 N)) st w1 HI) as (st0 & w0 & Hrun0 & _ & Hr).
rewrite Hbody in Hrun0. injection Hrun0 as <- <-.
rewrite length_take, length_seq in Hr.
by replace (Nat.min j N) with j in Hr by lia.
Qed.

(** The loop of [generate] after any number of rounds. *)
Lemma generate_loop_spec (m : GPTLanguageModel) (idx : list (list Z))
(N : nat) (w : world) (B T : nat) :
model_ok m -> lm_head_ok (length cs) m ->
(1 <= length cs)%nat -> (1 <= block_size hp)%nat ->
(1 <= B)%nat -> (1 <= T)%nat ->
tokens_shape B T idx -> rng_ok (numpy_rng w) ->
returns (for_each (range N) (fun _ => generate_step hp cs m) (idx, [])) w
(fun st w' =>
exists appended : list (list nat),
 length appended = B
 /\ Forall (fun a => length a = N
                     /\ Forall (fun k => (k < length cs)%nat) a) appended
 /\ st.1 = match N with
           | O => idx
           | S _ => crop hp (append_tokens idx appended)
           end
 /\ Forall2 (fun k c => cs !! k = Some c) (hd [] appended) st.2
 /\ training w' = training w
 /\ rng_ok (numpy_rng w')
 /\ trace w' = trace w ++ generation_trace hp (training w) (no_grad w) T st.2
 /\ no_grad w' = no_grad w).
Proof.
intros Hm Hh HV Hbs HB HT Hidx Hg.
pose (I := fun (done : list nat) (st : list (list Z) * list ascii) (w' : world) =>
exists appended : list (list nat),
length appended = B
/\ Forall (fun a => length a = length done
                  /\ Forall (fun k => (k < length cs)%nat) a) appended
/\ crop hp st.1 = crop hp (append_tokens idx appended)
/\ st.1 = match length done with
        | O => idx
        | S _ => crop hp (append_tokens idx appended)
        end
/\ Forall2 (fun k c => cs !! k = Some c) (hd [] appended) st.2
/\ training w' = training w
/\ rng_ok (numpy_rng w')
/\ trace w' = trace w ++ generation_trace hp (training w) (no_grad w) T st.2
/\ no_grad w' = no_grad w).
eapply returns_mono.
{ apply (returns_for_each (range N) (fun _ => generate_step hp cs m) I).
- destruct Hidx as [HlB HlT]. exists (replicate (length idx) []).
rewrite append_tokens_nil. simpl.
split_and!; [by rewrite length_replicate| |done|done| |done|done| |done].
+ apply Forall_replicate. by split.
+ destruct idx; [simpl in HlB; lia|]. simpl. constructor.
+ unfold generation_trace. simpl. by rewrite app_nil_r.
- intros done x st w1 _
  (appended & HaB & HaV & Hcrop & Hctx & Hout & Htr & Hg1 & Htrace & Hng).
set (k := length done) in *.
assert (tokens_shape B (match k with O => T | S _ => Nat.min (T + k) (block_size hp) end)
        st.1) as Hshape.
{ rewrite Hctx. destruct k as [|k']; [done|].
assert (tokens_shape B (T + S k') (append_tokens idx appended)) as Hap.
{ destruct Hidx as [HlB HlT]. unfold append_tokens. split.
  - rewrite length_zip_with. lia.
  - clear -HlT HaV. revert appended HaV.
    induction HlT as [|r idx Hr _ IH]; intros [|a appended] HaV; simpl; try done.
    inversion HaV as [|? ? [Ha _] HaV']; subst.
    constructor; [|by apply IH].
    rewrite length_app, length_map. lia. }
by apply crop_shape. }
assert (length st.2 = k) as Hlen.
{ apply Forall2_length in Hout. rewrite <- Hout.
destruct appended as [|a appended]; [simpl in HaB; lia|].
simpl. by inversion HaV as [|? ? [? _] _]. }
eapply returns_mono.
{ apply (generate_step_spec hp cs m st w1 B
         (match k with O => T | S _ => Nat.min (T + k) (block_size hp) end)
         Hm Hh HV Hbs HB); [|exact Hshape|done].
destruct k; lia. }
intros st' w2 (next & k0 & c & lasts & HnB & HnV & Hhd & Hc & Hst1 & Hst2
             & Htr2 & Hg2 & Htrace2 & _ & _ & _ & _ & Hng2 & _).
exists (zip_with (fun a n => a ++ [n]) appended next).
assert (crop hp (zip_with (fun row k => row ++ [Z.of_nat k]) st.1 next)
      = crop hp (append_tokens idx (zip_with (fun a n => a ++ [n]) appended next)))
as Hstep by (by apply crop_snoc_rows).
rewrite length_app. simpl. rewrite Nat.add_1_r.
split_and!.
+ rewrite length_zip_with. lia.
+ clear -HaV HnV HaB HnB. revert next HnV HaB HnB. revert B.
induction HaV as [|a appended [Ha HaV] _ IH]; intros B [|n next] HnV HaB HnB;
  simpl in *; try done.
inversion HnV; subst. constructor.
* split; [rewrite length_app; simpl; lia|].
  apply Forall_app. split; [done|by constructor].
* eapply (IH (length appended)); [done|done|lia].
+ rewrite Hst1, Hstep. unfold crop. rewrite List.map_map. apply map_ext.
intros row. rewrite !py_slice_from_last_n by done.
unfold last_n. rewrite length_drop.
replace (length row - (length row - block_size hp) - block_size hp)%nat
  with O by lia. done.
+ by rewrite Hst1, Hstep.
+ rewrite Hst2. destruct appended as [|a appended]; [simpl in HaB; lia|].
destruct next as [|n next]; [simpl in HnB; lia|].
simpl in *. injection Hhd as ->. apply Forall2_app; [done|].
by constructor.
+ congruence.
+ done.
+ rewrite Htrace2, Htrace, Hst2, generation_trace_snoc, Htr, Hng, <- app_assoc.
do 4 f_equal. rewrite Hlen. destruct k; lia.
+ congruence. }
intros st w' (appended & HaB & HaV & _ & Hctx & Hout & Htr & Hg' & Htrace & Hng').
unfold range in *. rewrite length_seq in *. by exists appended.
Qed.

End GenerateLoop.

(** C3.  For a seed context of shape (B, T), B >= 1 and T >= 1, a model
    whose output projection has one row per character of the vocabulary
    (not empty), [block_size] >= 1, [n_embd] >= 1 and draws of numpy's
    generator in [0,1), [generate] returns after exactly N rounds, with N
    tokens appended per row, each an index below [vocab_size], and the
    string it returns is the decoding of the N tokens of the first row,
    each printed as it is drawn.  The run goes through N + 1 states, from
    the seed context to the result, and every round [j] is a round of
    generation: the model is called, without targets, on the last
    [block_size] tokens of every context ([min (T + j) block_size]
    positions); the logits of that call at the final time position, and
    only those, are softmaxed, row by row, into a probability distribution;
    row [b] gets the one index whose interval of the cumulative
    distribution holds the [b]-th next draw of numpy's generator; the
    indices are appended to the contexts, and the character of the first
    row's index to the output. *)
Theorem generate_tokens (hp : hyper) (cs : list ascii) (m : GPTLanguageModel)
    (idx : list (list Z)) (N : nat) (w : world) (B T : nat) :
  model_ok m -> lm_head_ok (length cs) m ->
  (1 <= length cs)%nat -> (1 <= block_size hp)%nat -> (1 <= n_embd hp)%nat ->
  (1 <= B)%nat -> (1 <= T)%nat ->
  tokens_shape B T idx -> rng_ok (numpy_rng w) ->
  exists (out : list ascii) (ctx : list (list Z)) (w' : world)
         (appended : list (list nat))
         (run : list ((list (list Z) * list ascii) * world)),
    for_each (range N) (fun _ => generate_step hp cs m) (idx, []) w
      = Some ((ctx, out), w')
    /\ generate hp cs m idx N w = Some (out, w')
    /\ length appended = B
    /\ Forall (fun a => length a = N /\ Forall (fun k => (k < length cs)%nat) a)
              appended
    /\ ctx = match N with
             | O => idx
             | S _ => map (last_n (block_size hp)) (append_tokens idx appended)
             end
    /\ decode cs (hd [] appended) = Some out
    /\ length out = N
    /\ training w' = training w
    /\ trace w' = trace w ++ generation_trace hp (training w) (no_grad w) T out
    /\ length run = S N
    /\ run !! 0%nat = Some ((idx, []), w)
    /\ run !! N = Some ((ctx, out), w')
    /\ (forall (j : nat) p p', run !! j = Some p -> run !! S j = Some p' ->
          generate_step hp cs m p.1 p.2 = Some p'
          /\ generation_round hp cs m B (Nat.min (T + j) (block_size hp))
               p.1 p.2 p'.1 p'.2).
Proof.
  intros Hm Hh HV Hbs _ HB HT Hidx Hg.
  destruct (generate_loop_spec hp cs m idx N w B T Hm Hh HV Hbs HB HT Hidx Hg)
    as ([ctx out] & w' & Hloop & appended & HaB & HaV & Hctx & Hout & Htr & _
        & Htrace & _).
  destruct (generate_run_spec hp cs m idx N w B T Hm Hh HV Hbs HB HT Hidx Hg)
    as (run & Hlen & Hhd & (p & Hp & Hfor) & Hrun).
  rewrite Hloop in Hfor. injection Hfor as <-.
  simpl in *. exists out, ctx, w', appended, run.
  split_and!; [done| |done|done| | | |done|done|done|done|done|done].
  - unfold generate. by rewrite (bind_Some _ _ _ _ _ Hloop).
  - rewrite Hctx. destruct N; [done|]. by apply crop_last_n.
  - unfold decode. apply mapM_Some. eapply Forall2_impl; [exact Hout|].
    intros k c Hk. by rewrite itos_lookup.
  - apply Forall2_length in Hout. rewrite <- Hout.
    destruct appended as [|a appended]; [simpl in HaB; lia|].
    simpl. by inversion HaV as [|? ? [? _] _].
Qed.

Lemma generate_tokens_witness :
  exists (out : list ascii) (w' : world),
    generate small_hyper small_chars small_model [[0]] 2 small_world = Some (out, w')
    /\ length out = 2%nat.
Proof.
  destruct small_model_ok as [Hm Hh].
  assert (rng_ok (numpy_rng small_world)) as Hg.
  { apply constant_rng_ok; unfold Qle, Qlt; simpl; lia. }
  assert (tokens_shape 1 1 [[0]]) as Hidx by (split; repeat constructor).
  destruct (generate_tokens small_hyper small_chars small_model [[0]] 2 small_world
              1 1 Hm Hh)
    as (out & ctx & w' & appended & run & _ & Hgen & _ & _ & _ & _ & Hlen & _);
    [simpl; lia|simpl; lia|simpl; lia|lia|lia|exact Hidx|exact Hg|].
  exists out, w'. split; [exact Hgen|exact Hlen].
Defined.

(** ** Evaluation and training *)

Section TrainingFacts.
Context (hp : hyper) (train_data val_data : list Z).
Context {opt_state : Type}.
Context (optimizer_step : opt_state -> GPTLanguageModel ->
   list (list Z) -> list (list Z) -> rng -> opt_state * GPTLanguageModel).
Context (V : nat).
Hypothesis Hbatch : (1 <= batch_size hp)%nat.
Hypothesis Hblock : (1 <= block_size hp)%nat.
Hypothesis HV : (1 <= V)%nat.
Hypothesis HV31 : Z.of_nat V <= 2 ^ 31.
Hypothesis Htrain : data_ok hp V train_data.
Hypothesis Hval : data_ok hp V val_data.

Lemma split_data_ok s : data_ok hp V (split_data train_data val_data s).
Proof. by destruct s. Qed.

(** A batch: inputs and targets of shape (batch_size, block_size), the
targets valid; the state changes by the draws and the mark. *)
Lemma get_batch_returns (s : split) (w : world) :
rng_ok (tensor_rng w) ->
returns (get_batch hp train_data val_data s) w (fun b w' =>
tokens_shape (batch_size hp) (block_size hp) b.1
/\ targets_ok (batch_size hp) (block_size hp) V (Some b.2)
/\ training w' = training w
/\ rng_ok (tensor_rng w')
/\ trace w' = trace w ++ [EvBatch s]
/\ no_grad w' = no_grad w).
Proof.
intros Hg. destruct (split_data_ok s) as (HL & H31 & Hvalid).
set (data := split_data train_data val_data s) in *.
destruct (get_batch_ix_spec hp data w Hg HL H31) as (ix & Hix & Hlen & Hrange).
eexists _, _. split; [by apply get_batch_eq|]. simpl. fold data.
assert (forall i, i ∈ ix ->
    py_slice data i (i + Z.of_nat (block_size hp))
      = take (block_size hp) (drop (Z.to_nat i) data)
    /\ py_slice data (i + 1) (i + Z.of_nat (block_size hp) + 1)
       = take (block_size hp) (drop (Z.to_nat i + 1) data)
    /\ (Z.to_nat i + 1 + block_size hp <= length data)%nat) as Hsl.
{ intros i Hi. rewrite Forall_forall in Hrange. specialize (Hrange i Hi).
split_and!.
- apply py_slice_window; lia.
- replace (i + Z.of_nat (block_size hp) + 1)
with (i + 1 + Z.of_nat (block_size hp)) by lia.
rewrite py_slice_window by lia. do 2 f_equal. lia.
- lia. }
refine (conj _ (conj (conj _ (conj _ (conj Hblock (conj HV HV31))))
              (conj eq_refl (conj _ (conj eq_refl eq_refl))))).
- split; [by rewrite length_map|]. apply Forall_map, Forall_forall.
intros i Hi. destruct (Hsl i Hi) as (-> & _ & Hb). simpl.
rewrite length_take, length_drop. lia.
- split; [by rewrite length_map|]. apply Forall_map, Forall_forall.
intros i Hi. destruct (Hsl i Hi) as (_ & -> & Hb). simpl.
rewrite length_take, length_drop. lia.
- apply Forall_map, Forall_forall. intros i Hi.
destruct (Hsl i Hi) as (_ & -> & _). simpl.
by apply Forall_take, Forall_drop.
- by apply rng_skip_ok.
Qed.

(** A model call on a batch of the sampler. *)
Lemma model_on_batch (m : GPTLanguageModel) (b : list (list Z) * list (list Z))
(w : world) :
model_ok m -> lm_head_ok V m ->
tokens_shape (batch_size hp) (block_size hp) b.1 ->
targets_ok (batch_size hp) (block_size hp) V (Some b.2) ->
rng_ok (tensor_rng w) ->
returns (GPTLanguageModel_call hp m b.1 (Some b.2)) w (fun r w' =>
exists l, r.2 = Some l
/\ training w' = training w
/\ rng_ok (tensor_rng w')
/\ trace w' = trace w
          ++ [EvModel (training w) (no_grad w) (block_size hp) (Some l)]
/\ no_grad w' = no_grad w).
Proof.
intros Hm Hh Hx Hy Hg. eapply returns_mono.
{ by apply (GPTLanguageModel_call_spec hp m b.1 (Some b.2) w
        (batch_size hp) (block_size hp) V). }
intros r w' (_ & _ & (w1 & Hs & ->) & _ & l & Hl & _).
exists l. simpl. rewrite Hl. split_and!; [done| | |done|].
- by apply steps_training.
- by apply steps_rng_ok with w.
- by apply steps_no_grad.
Qed.

(** The mean numpy takes is the average of the losses. *)
Lemma np_mean_average (ls : list R) : np_mean ls = average ls.
Proof. unfold np_mean, average. by destruct ls. Qed.

Lemma eval_events_snoc ng s ls l :
eval_events hp ng s (ls ++ [l])
= eval_events hp ng s ls ++ [EvBatch s; EvModel false ng (block_size hp) (Some l)].
Proof. unfold eval_events. by rewrite flat_map_app. Qed.

(** The inner loop of [estimate_loss], run in evaluation mode. *)
Lemma estimate_split_spec (m : GPTLanguageModel) (s : split) (w : world) :
model_ok m -> lm_head_ok V m ->
training w = false -> rng_ok (tensor_rng w) ->
returns (estimate_split hp train_data val_data m s) w (fun avg w' =>
exists ls : list R,
length ls = eval_iters hp /\ avg = average ls
/\ training w' = false /\ rng_ok (tensor_rng w')
/\ trace w' = trace w ++ eval_events hp (no_grad w) s ls
/\ no_grad w' = no_grad w).
Proof.
intros Hm Hh Ht Hg. unfold estimate_split.
apply returns_bind. eapply returns_mono.
{ apply (returns_for_each _ _ (fun done (losses : list R) w' =>
 exists ls : list R,
   length ls = length done
   /\ losses = ls ++ replicate (eval_iters hp - length done) 0%R
   /\ training w' = false /\ rng_ok (tensor_rng w')
   /\ trace w' = trace w ++ eval_events hp (no_grad w) s ls
   /\ no_grad w' = no_grad w)).
- exists []. simpl. rewrite Nat.sub_0_r, app_nil_r. done.
- intros done k losses w1 Hpre (ls & Hlen & -> & Ht1 & Hg1 & Htr1 & Hn1).
apply prefix_range in Hpre as [-> Hk].
apply returns_bind. eapply returns_mono; [by apply get_batch_returns|].
intros b w2 (Hx & Hy & Ht2 & Hg2 & Htr2 & Hn2).
apply returns_bind. eapply returns_mono; [by apply model_on_batch|].
intros r w3 (l & Hl & Ht3 & Hg3 & Htr3 & Hn3).
apply returns_bind. eapply returns_lift; [exact Hl|]. apply returns_ret.
exists (ls ++ [l]). rewrite !length_app. simpl.
split_and!; [lia| |congruence|done| |congruence].
+ rewrite insert_app_r_alt by lia. rewrite Hlen, Nat.sub_diag.
  replace (eval_iters hp - length done)%nat
    with (S (eval_iters hp - (length done + 1))) by lia.
  simpl. by rewrite <- app_assoc.
+ rewrite Htr3, Htr2, Htr1, eval_events_snoc, <- !app_assoc.
  do 3 f_equal. congruence. }
intros losses w' (ls & Hlen & -> & Ht' & Hg' & Htr' & Hn').
unfold range in Hlen |- *. rewrite length_seq in Hlen |- *.
rewrite Nat.sub_diag, app_nil_r.
apply returns_ret. exists ls. by rewrite np_mean_average.
Qed.

(** [estimate_loss]: evaluation mode on, both splits, training mode on. *)
Lemma estimate_loss_spec (m : GPTLanguageModel) (w : world) :
model_ok m -> lm_head_ok V m -> rng_ok (tensor_rng w) ->
returns (estimate_loss hp train_data val_data m) w (fun out w' =>
exists lt lv : list R,
length lt = eval_iters hp /\ length lv = eval_iters hp
/\ out Train = Some (average lt) /\ out Val = Some (average lv)
/\ training w' = true /\ rng_ok (tensor_rng w')
/\ trace w' = trace w ++ eval_events hp (no_grad w) Train lt
                      ++ eval_events hp (no_grad w) Val lv
/\ no_grad w' = no_grad w).
Proof.
intros Hm Hh Hg. unfold estimate_loss.
apply returns_bind. eexists tt, _. split; [reflexivity|].
apply returns_bind. simpl for_each.
apply returns_bind. apply returns_bind.
eapply returns_mono; [by apply estimate_split_spec|].
intros avg_t w1 (lt & Hlt & -> & Ht1 & Hg1 & Htr1 & Hn1).
apply returns_ret. apply returns_bind. apply returns_bind.
eapply returns_mono; [by apply estimate_split_spec|].
intros avg_v w2 (lv & Hlv & -> & Ht2 & Hg2 & Htr2 & Hn2).
apply returns_ret. apply returns_ret.
apply returns_bind. eexists tt, _. split; [reflexivity|].
apply returns_ret. exists lt, lv.
split_and!; [done..| |].
- simpl. rewrite Htr2, Htr1, Hn1. simpl. by rewrite <- app_assoc.
- simpl. by rewrite Hn2, Hn1.
Qed.

Hypothesis Hinterval : (1 <= eval_interval hp)%nat.
(** The optimizer keeps the shapes of the parameters. *)
Hypothesis Hopt : forall o m xb yb g,
model_ok m -> lm_head_ok V m ->
model_ok (optimizer_step o m xb yb g).2
/\ lm_head_ok V (optimizer_step o m xb yb g).2.

Lemma train_iter_spec (iter : nat) (st : opt_state * GPTLanguageModel) (w : world) :
model_ok st.2 -> lm_head_ok V st.2 ->
training w = true -> rng_ok (tensor_rng w) ->
returns (train_iter hp train_data val_data optimizer_step iter st) w
(fun st' w' =>
 model_ok st'.2 /\ lm_head_ok V st'.2
 /\ training w' = true /\ rng_ok (tensor_rng w')
 /\ no_grad w' = no_grad w
 /\ exists seg, trace w' = trace w ++ seg
                /\ iteration_events hp (no_grad w) iter seg).
Proof.
intros Hm Hh Ht Hg. unfold train_iter, is_checkpoint.
destruct (Nat.eqb_spec (eval_interval hp) 0) as [|_]; [lia|].
apply returns_bind. eapply returns_lift; [reflexivity|].
set (ck := ((iter mod eval_interval hp =? 0)%nat
        || (iter =? max_iters hp - 1)%nat)%bool).
assert (forall (w1 : world) (pre : list event),
training w1 = true -> rng_ok (tensor_rng w1) -> trace w1 = trace w ++ pre ->
no_grad w1 = no_grad w ->
returns
(b ← get_batch hp train_data val_data Train;
 g ← get_tensor_rng;
 r ← GPTLanguageModel_call hp st.2 b.1 (Some b.2);
 _ ← emit EvOptimizer;
 mret (optimizer_step st.1 st.2 b.1 b.2 g)) w1
(fun st' w' =>
   model_ok st'.2 /\ lm_head_ok V st'.2
   /\ training w' = true /\ rng_ok (tensor_rng w')
   /\ no_grad w' = no_grad w
   /\ exists l, trace w' = trace w ++ pre ++ step_events hp (no_grad w) l))
as Hstep.
{ intros w1 pre Ht1 Hg1 Htr1 Hn1.
apply returns_bind. eapply returns_mono; [by apply get_batch_returns|].
intros b w2 (Hx & Hy & Ht2 & Hg2 & Htr2 & Hn2).
apply returns_bind. exists (tensor_rng w2), w2. split; [done|].
apply returns_bind. eapply returns_mono; [by apply model_on_batch|].
intros r w3 (l & Hl & Ht3 & Hg3 & Htr3 & Hn3).
apply returns_bind. eexists tt, _. split; [reflexivity|].
apply returns_ret. destruct (Hopt st.1 st.2 b.1 b.2 (tensor_rng w2) Hm Hh) as [Hm' Hh'].
split_and!; [done|done|simpl; congruence|done|simpl; congruence|].
exists l. simpl. rewrite Htr3, Htr2, Htr1, Ht2, Ht1, Hn2, Hn1.
unfold step_events. by rewrite <- !app_assoc. }
apply returns_bind. destruct ck eqn:Hck.
- apply returns_bind. eapply returns_mono; [by apply estimate_loss_spec|].
intros out w1 (lt & lv & Hlt & Hlv & Hot & Hov & Ht1 & Hg1 & Htr1 & Hn1).
apply returns_bind. eapply returns_lift; [exact Hot|].
apply returns_bind. eapply returns_lift; [exact Hov|].
eexists tt, _. split; [reflexivity|].
eapply returns_mono.
{ apply (Hstep _ (checkpoint_events hp (no_grad w) iter lt lv)); [done|done| |done].
simpl. rewrite Htr1. unfold checkpoint_events. by rewrite <- !app_assoc. }
intros st' w' (Hm' & Hh' & Ht' & Hg' & Hn' & l & Htr').
split_and!; [done..|]. eexists. split; [exact Htr'|].
exists l. unfold ck in Hck. rewrite Hck. by exists lt, lv.
- apply returns_ret. eapply returns_mono.
{ apply (Hstep w []); [done|done|by rewrite app_nil_r|done]. }
intros st' w' (Hm' & Hh' & Ht' & Hg' & Hn' & l & Htr').
split_and!; [done..|]. eexists. split; [exact Htr'|].
exists l. unfold ck in Hck. by rewrite Hck.
Qed.

(** The loop: one segment of the trace per iteration. *)
Lemma training_loop_spec (o : opt_state) (m : GPTLanguageModel) (w : world) :
model_ok m -> lm_head_ok V m -> rng_ok (tensor_rng w) ->
returns (training_loop hp train_data val_data optimizer_step o m) w
(fun st' w' =>
 training w' = true
 /\ no_grad w' = no_grad w
 /\ exists segs : list (list event),
      length segs = max_iters hp
      /\ trace w' = trace w ++ concat segs
      /\ forall (i : nat) seg, segs !! i = Some seg ->
           iteration_events hp (no_grad w) i seg).
Proof.
intros Hm Hh Hg. unfold training_loop.
apply returns_bind. eexists tt, _. split; [reflexivity|].
eapply returns_mono.
{ apply (returns_for_each _ _ (fun done (st : opt_state * GPTLanguageModel) w' =>
 model_ok st.2 /\ lm_head_ok V st.2
 /\ training w' = true /\ rng_ok (tensor_rng w')
 /\ no_grad w' = no_grad w
 /\ exists segs : list (list event),
      length segs = length done
      /\ trace w' = trace w ++ concat segs
      /\ forall (i : nat) seg, segs !! i = Some seg ->
           iteration_events hp (no_grad w) i seg)).
- split_and!; [done..|]. exists []. simpl. rewrite app_nil_r.
split_and!; [done|done|]. intros i seg Hi. done.
- intros done iter st w1 Hpre
  (Hm1 & Hh1 & Ht1 & Hg1 & Hn1 & segs & Hlen & Htr1 & Hsegs).
apply prefix_range in Hpre as [-> _].
eapply returns_mono; [by apply train_iter_spec|].
intros st' w2 (Hm2 & Hh2 & Ht2 & Hg2 & Hn2 & seg & Htr2 & Hseg).
rewrite Hn1 in Hseg.
split_and!; [done..|congruence|]. exists (segs ++ [seg]).
rewrite !length_app. simpl. split_and!; [lia| |].
+ rewrite Htr2, Htr1, concat_app. simpl. by rewrite app_nil_r, <- app_assoc.
+ intros i seg' Hi. destruct (decide (i < length segs)%nat).
  * rewrite lookup_app_l in Hi by done. by apply Hsegs.
  * rewrite lookup_app_r in Hi by lia.
    apply list_lookup_singleton_Some in Hi as [Hi <-].
    replace i with (length done) by lia. done. }
intros st' w' (_ & _ & Ht' & _ & Hn' & segs & Hlen & Htr' & Hsegs).
split; [done|]. split; [done|].
exists segs. unfold range in Hlen. rewrite length_seq in Hlen. done.
Qed.

End TrainingFacts.

Lemma small_data_ok : data_ok small_hyper 2 small_data.
Proof.
  split_and!; [simpl; lia|simpl; lia|].
  unfold small_data. repeat constructor; lia.
Defined.

(** ** Seeds *)

Section Reproducibility.
Context (hp : hyper) (train_data val_data : list Z).

Lemma get_batch_ix_eq (data : list Z) (w : world) :
get_batch_ix hp data w
= Some (map cast_int32
      (map (fun u => (inject_Z (Z.of_nat (length data)
                                - Z.of_nat (block_size hp) - 0) * u
                      + inject_Z 0)%Q)
           (map (tensor_rng w) (seq 0 (batch_size hp)))),
    with_tensor_rng (rng_skip (batch_size hp) (tensor_rng w)) w).
Proof.
unfold get_batch_ix, Tensor_uniform.
erewrite bind_Some; [|erewrite bind_Some by apply Tensor_rand_eq; reflexivity].
reflexivity.
Qed.

(** The batches of a sequence of sampler calls depend on the state only
through the tensor library's generator. *)
Lemma batches_depend_on_tensor_rng (ss : list split) (w1 w2 : world) :
tensor_rng w1 = tensor_rng w2 ->
fst <$> mapM (get_batch hp train_data val_data) ss w1
= fst <$> mapM (get_batch hp train_data val_data) ss w2.
Proof.
revert w1 w2. induction ss as [|s ss IH]; intros w1 w2 Hg; [done|].
cbn [mapM].
erewrite (bind_Some _ _ w1) by (apply get_batch_eq, get_batch_ix_eq).
erewrite (bind_Some _ _ w2) by (apply get_batch_eq, get_batch_ix_eq).
rewrite Hg.
set (wa := with_trace _ (with_tensor_rng _ w1)).
set (wb := with_trace _ (with_tensor_rng _ w2)).
specialize (IH wa wb eq_refl).
unfold mbind, M_bind.
destruct (mapM (get_batch hp train_data val_data) ss wa) as [[bs1 wa']|],
     (mapM (get_batch hp train_data val_data) ss wb) as [[bs2 wb']|];
simpl in IH |- *; congruence.
Qed.

(** Under a fixed seed of the tensor library the same sequence of sampler
calls gives the same batches, whatever the rest of the state is. *)
Lemma batches_reproducible (default_rng : Z -> rng) (seed : Z) (ss : list split)
(w1 w2 : world) :
fst <$> (manual_seed default_rng seed
     ≫= fun _ => mapM (get_batch hp train_data val_data) ss) w1
= fst <$> (manual_seed default_rng seed
       ≫= fun _ => mapM (get_batch hp train_data val_data) ss) w2.
Proof.
erewrite !bind_Some by reflexivity. by apply batches_depend_on_tensor_rng.
Qed.

End Reproducibility.

Section Divergence.
Local Open Scope R_scope.

(** The small model's logits are 0 whatever the trunk computes. *)
Lemma small_model_logits (v : list R) :
exists a b, Linear_call (lm_head small_model) v = [a; b] /\ a = 0 /\ b = 0.
Proof.
unfold Linear_call, dot. simpl. eexists _, _. split; [reflexivity|].
destruct v; simpl; split; lra.
Qed.

Lemma softmax_zero_logits (a b : R) :
a = 0 -> b = 0 ->
exists p q, softmax [Fin a; Fin b] = [p; q] /\ p = 1 / 2 /\ q = 1 / 2.
Proof.
intros -> ->. unfold softmax. simpl. rewrite exp_0.
eexists _, _. split; [reflexivity|]. split; lra.
Qed.

(** With two equally likely tokens a draw below 1/2 selects the first and
a draw in [1/2, 1) the second. *)
Lemma inverse_cdf_halves (p q : R) (u : Q) :
p = 1 / 2 -> q = 1 / 2 -> (u < 1)%Q ->
inverse_cdf [p; q] u = if decide (1 / 2 <= Q2R u) then 1%nat else 0%nat.
Proof.
intros -> -> Hu. apply Qlt_Rlt in Hu. rewrite RMicromega.Q2R_1 in Hu.
unfold inverse_cdf, cumsum. simpl.
assert ((0 + 1 / 2) / (0 + 1 / 2 + 1 / 2) = 1 / 2) as -> by lra.
assert ((0 + 1 / 2 + 1 / 2) / (0 + 1 / 2 + 1 / 2) = 1) as -> by lra.
destruct (decide (1 / 2 <= Q2R u)); [|done].
destruct (decide (1 <= Q2R u)); [lra|done].
Qed.

(** What the seeded program prints when numpy's generator draws [q]. *)
Lemma seeded_generation_run (q : Q) :
(0 <= q)%Q -> (q < 1)%Q ->
fst <$> seeded_generation (numpy_world q)
= Some [if decide (1 / 2 <= Q2R q) then "b"%char else "a"%char].
Proof.
intros H0 H1. unfold seeded_generation.
erewrite bind_Some by reflexivity.
set (w1 := with_tensor_rng _ (numpy_world q)).
destruct small_model_ok as [Hm Hh].
destruct (generate_step_spec small_hyper small_chars small_model ([[0%Z]], []) w1 1 1)
as (st' & w' & Hstep & next & k0 & c & lasts & HnB & HnV & Hhd & Hc & Hst1 & Hst2
  & _ & _ & _ & (x & Hx) & Hdist & Hnext & _);
[done|done|simpl; lia|simpl; lia|lia|lia|split; repeat constructor
|by apply constant_rng_ok|].
unfold generate, range. cbn [seq for_each].
erewrite (bind_Some _ _ _ st' w'); [|by erewrite bind_Some by exact Hstep].
unfold mret, M_ret. simpl. f_equal. rewrite Hst2. simpl. f_equal.
destruct lasts as [|l lasts']; [subst next; simpl in HnB; lia|].
inversion Hx as [|xb ? x' ? (v & _ & Hl) _]; subst.
destruct (small_model_logits v) as (a & b & Hab & Ha & Hb).
destruct (softmax_zero_logits a b Ha Hb) as (p & p' & Hp & Hp1 & Hp2).
rewrite Hab in Hhd. cbn [zip_with seq head map] in Hhd. rewrite Hp in Hhd.
rewrite (inverse_cdf_halves p p' _ Hp1 Hp2) in Hhd by done.
cbn in Hhd. unfold constant_rng in Hhd.
destruct (decide (1 / 2 <= Q2R q)); injection Hhd as <-; simpl in Hc; congruence.
Qed.

(** C6 (the part that fails).  Two runs of the program that seed the tensor
library alike and start from states that differ only in numpy's
module-level generator print different strings: [generate] samples
with [np.random.choice], which the seed does not reach. *)
Theorem generation_depends_on_numpy_generator :
fst <$> seeded_generation (numpy_world (1 # 4)) = Some ["a"%char]
/\ fst <$> seeded_generation (numpy_world (3 # 4)) = Some ["b"%char]
/\ tensor_rng (numpy_world (1 # 4)) = tensor_rng (numpy_world (3 # 4))
/\ training (numpy_world (1 # 4)) = training (numpy_world (3 # 4))
/\ trace (numpy_world (1 # 4)) = trace (numpy_world (3 # 4)).
Proof.
split_and!; [| |done..].
- rewrite seeded_generation_run by (unfold Qle, Qlt; simpl; lia).
rewrite decide_False; [done|]. unfold Q2R. simpl. lra.
- rewrite seeded_generation_run by (unfold Qle, Qlt; simpl; lia).
rewrite decide_True; [done|]. unfold Q2R. simpl. lra.
Qed.

End Divergence.

(** * Further properties of the code *)

(** ** The vocabulary: errors, the other round trip, order *)

Section VocabularyMore.
Context (text : list ascii).

(** [encode] raises (KeyError) exactly on a string with a character that
does not occur in the corpus; what it returns has one index per
character, each below [vocab_size]. *)
Theorem encode_defined_iff (s : list ascii) :
(is_Some (encode (chars text) s) <-> forall c, c ∈ s -> c ∈ text)
/\ (forall l, encode (chars text) s = Some l ->
    length l = length s /\ Forall (fun i => (i < vocab_size text)%nat) l).
Proof.
pose proof (chars_NoDup text) as Hnd. split.
- unfold encode. rewrite mapM_is_Some, Forall_forall. split.
+ intros H c Hc. destruct (H c Hc) as [i Hi]. simpl in Hi.
  apply stoi_lookup in Hi; [|done]. apply elem_of_chars.
  by eapply list_elem_of_lookup_2.
+ intros H c Hc. simpl. apply stoi_is_Some; [done|].
  apply elem_of_chars. by apply H.
- intros l Hl. unfold encode in Hl. apply mapM_Some in Hl. split.
+ symmetry. by eapply Forall2_length.
+ unfold vocab_size. induction Hl as [|c i s l Hi _ IH]; constructor; [|done].
  apply stoi_lookup in Hi; [|done]. by eapply lookup_lt_Some.
Qed.

(** Decoding the encoding of any string over the corpus characters gives
the string back. *)
Theorem decode_encode_any_string (s : list ascii) :
(forall c, c ∈ s -> c ∈ text) ->
encode (chars text) s ≫= decode (chars text) = Some s.
Proof.
intros Hs. destruct (encode_decode_known (chars text) s) as (l & He & Hd & _).
- apply chars_NoDup.
- apply Forall_forall. intros c Hc. apply elem_of_chars. by apply Hs.
- rewrite He. simpl. done.
Qed.

(** [decode] raises (KeyError) exactly on a list with an index that is not
below [vocab_size]; encoding what it returns gives the list back. *)
Theorem decode_defined_iff (l : list nat) :
(is_Some (decode (chars text) l) <-> Forall (fun i => (i < vocab_size text)%nat) l)
/\ (forall s, decode (chars text) l = Some s -> encode (chars text) s = Some l).
Proof.
pose proof (chars_NoDup text) as Hnd. split.
- unfold decode. rewrite mapM_is_Some. unfold vocab_size. split; intros H.
+ eapply Forall_impl; [exact H|]. intros i Hi. simpl in Hi.
  rewrite itos_lookup in Hi. by apply lookup_lt_is_Some.
+ eapply Forall_impl; [exact H|]. intros i Hi. simpl.
  rewrite itos_lookup. by apply lookup_lt_is_Some.
- intros s Hd. unfold decode in Hd. apply mapM_Some in Hd.
unfold encode. apply mapM_Some.
induction Hd as [|i c l s Hi _ IH]; constructor; [|done].
rewrite itos_lookup in Hi. by apply stoi_lookup.
Qed.

End VocabularyMore.

Lemma decode_encode_any_string_witness :
  encode (chars (list_ascii_of_string "hello")) (list_ascii_of_string "hole")
  ≫= decode (chars (list_ascii_of_string "hello"))
  = Some (list_ascii_of_string "hole").
Proof.
  apply (decode_encode_any_string (list_ascii_of_string "hello")
           (list_ascii_of_string "hole")).
  intros c Hc. cbn in Hc |- *.
  repeat (apply elem_of_cons in Hc as [->|Hc]);
    [..|by apply elem_of_nil in Hc]; repeat constructor.
Defined.

Lemma StronglySorted_lookup_lt {A} (R : relation A) (l : list A) (i j : nat) x y :
  StronglySorted R l -> l !! i = Some x -> l !! j = Some y -> (i < j)%nat -> R x y.
Proof.
  intros Hs. revert i j. induction Hs as [|a l Hs IH Ha]; intros i j Hi Hj Hij; [done|].
  destruct j as [|j]; [lia|]. simpl in Hj. destruct i as [|i].
  - injection Hi as ->. rewrite Forall_forall in Ha. apply Ha.
    by eapply list_elem_of_lookup_2.
  - simpl in Hi. apply (IH i j); [done|done|lia].
Qed.

Lemma N_of_ascii_inj (a b : ascii) : N_of_ascii a = N_of_ascii b -> a = b.
Proof.
  intros H. rewrite <- (ascii_N_embedding a), <- (ascii_N_embedding b). by rewrite H.
Qed.

(** The indices follow the code points: of two characters of the corpus
    the one with the smaller code point has the smaller index. *)
Theorem stoi_order_preserving (text : list ascii) (c c' : ascii) (i i' : nat) :
  stoi (chars text) !! c = Some i -> stoi (chars text) !! c' = Some i' ->
  ((i < i')%nat <-> (N_of_ascii c < N_of_ascii c')%N).
Proof.
  pose proof (chars_NoDup text) as Hnd.
  pose proof (Sorted_StronglySorted char_le _ (chars_Sorted text)) as Hs.
  intros Hi Hi'. apply stoi_lookup in Hi, Hi'; [|done..].
  assert (forall (a b : ascii) (n m : nat),
            chars text !! n = Some a -> chars text !! m = Some b -> (n < m)%nat ->
            (N_of_ascii a < N_of_ascii b)%N) as Hlt.
  { intros a b n m Hn Hm Hnm.
    pose proof (StronglySorted_lookup_lt _ _ n m a b Hs Hn Hm Hnm) as Hle.
    unfold char_le in Hle.
    assert (N_of_ascii a <> N_of_ascii b); [|lia].
    intros Heq. apply N_of_ascii_inj in Heq. subst b.
    pose proof (NoDup_lookup _ _ _ _ Hnd Hn Hm). lia. }
  split; [by apply Hlt|]. intros Hcc.
  destruct (decide (i < i')%nat) as [|Hge]; [done|]. exfalso.
  destruct (decide (i = i')) as [->|Hne].
  - rewrite Hi in Hi'. injection Hi' as ->. lia.
  - pose proof (Hlt c' c i' i Hi' Hi ltac:(lia)). lia.
Qed.

Lemma stoi_order_preserving_witness :
  ((0 < 3)%nat <-> (N_of_ascii "e" < N_of_ascii "o")%N).
Proof.
  apply (stoi_order_preserving (list_ascii_of_string "hello") "e" "o" 0 3);
    by vm_compute.
Defined.

(** ** The loss: targets out of range, targets below zero *)

Section LossEdges.
Local Open Scope R_scope.

Lemma np_index_is_Some (C : nat) (y : Z) :
is_Some (np_index C y) <-> (- Z.of_nat C <= y < Z.of_nat C)%Z.
Proof.
unfold np_index. destruct (decide (0 <= y < Z.of_nat C)%Z).
- split; [lia|by eexists].
- destruct (decide (- Z.of_nat C <= y < 0)%Z).
+ split; [lia|by eexists].
+ split; [by intros [? ?]|lia].
Qed.

Lemma np_index_target_class (C : nat) (y : Z) :
(- Z.of_nat C <= y < Z.of_nat C)%Z ->
np_index C y = np_index C (target_class C y)
/\ (0 <= target_class C y < Z.of_nat C)%Z.
Proof.
intros Hy. unfold target_class.
assert (0 < Z.of_nat C)%Z as HC by lia.
pose proof (Z.mod_pos_bound y (Z.of_nat C) HC) as Hm. split; [|done].
unfold np_index. destruct (decide (0 <= y < Z.of_nat C)%Z) as [Hy'|Hy'].
- rewrite Z.mod_small by lia. by rewrite decide_True.
- rewrite decide_True by lia. rewrite (decide_True _ _ Hm).
f_equal. f_equal.
rewrite <- (Z.mod_small (y + Z.of_nat C) (Z.of_nat C)) by lia.
rewrite <- (Z.mul_1_l (Z.of_nat C)) at 1. by rewrite Z.mod_add by lia.
Qed.

(** The index assignment succeeds exactly when every index is in
[-C, C); it keeps the number and the length of the rows. *)
Lemma assign_columns_is_Some (C : nat) (YY : list Z) (v : R) :
(is_Some (assign_columns (replicate (length YY) (replicate C 0)) YY v)
<-> Forall (fun y => (- Z.of_nat C <= y < Z.of_nat C)%Z) YY)
/\ (forall rows, assign_columns (replicate (length YY) (replicate C 0)) YY v = Some rows ->
    length (concat rows) = (length YY * C)%nat).
Proof.
induction YY as [|y YY [IH1 IH2]].
- split; [split; [constructor|by eexists]|]. by intros rows [= <-].
- simpl. rewrite length_replicate. split.
+ rewrite Forall_cons, <- IH1, <- np_index_is_Some.
  destruct (np_index C y) as [k|]; simpl.
  * destruct (assign_columns _ YY v); simpl.
    -- split; [by intros _; split; eexists|by eexists].
    -- split; [by intros [? ?]|by intros [_ [? ?]]].
  * split; [by intros [? ?]|by intros [[? ?] _]].
+ intros rows Hr. destruct (np_index C y) as [k|]; [|done]. simpl in Hr.
  destruct (assign_columns _ YY v) as [rest|] eqn:Hrest; [|done].
  simpl in Hr. injection Hr as <-. simpl.
  rewrite length_app, length_insert, length_replicate, (IH2 rest eq_refl). lia.
Qed.

(** Targets that name the same columns give the same assignment. *)
Lemma assign_columns_ext (y0 : list (list R)) (YY YY' : list Z) (v : R) (C : nat) :
Forall (fun row => length row = C) y0 ->
Forall2 (fun a b => np_index C a = np_index C b) YY YY' ->
assign_columns y0 YY v = assign_columns y0 YY' v.
Proof.
intros Hrows HF. revert y0 Hrows.
induction HF as [|a b YY YY' Hab _ IH]; intros y0 Hrows; [by destruct y0|].
destruct y0 as [|row y0]; [done|]. inversion Hrows as [|? ? Hr Hrows']; subst.
simpl. rewrite Hab. by rewrite (IH y0 Hrows').
Qed.

(** For tensors of matching shapes that are not empty, [cross_entropy]
raises (IndexError) exactly when some target, cast to int32, is
outside [-C, C). *)
Theorem cross_entropy_defined_iff (C : nat) (out : ndarray R) (Y : ndarray Z) :
shape out = shape Y ++ [C] ->
well_shaped out -> well_shaped Y ->
(0 < numel (shape out))%nat ->
(is_Some (cross_entropy out Y) <-> Forall (index_ok C) (data Y)).
Proof.
intros Hsh Hout HY Hn. unfold cross_entropy.
rewrite Hsh, last_snoc. simpl.
destruct (assign_columns_is_Some C (map (wrap 32) (data Y)) (-1 * INR C)) as [H1 H2].
rewrite length_map in H1, H2. rewrite Forall_map in H1. rewrite length_map.
unfold index_ok. rewrite <- H1.
destruct (assign_columns _ _ _) as [rows|] eqn:Hrows; simpl;
[|split; intros [? ?]; done].
specialize (H2 rows eq_refl).
unfold reshape. simpl.
rewrite decide_True by (by rewrite numel_snoc, H2, HY). simpl.
unfold Tensor_mul. simpl. rewrite decide_True by done. simpl.
unfold Tensor_mean. simpl.
assert (length (zip_with Rmult (data out) (concat rows)) = length (data out)) as Hlen.
{ rewrite length_zip_with, H2, Hout, Hsh, numel_snoc, HY. lia. }
destruct (zip_with Rmult (data out) (concat rows)) as [|p ps].
- simpl in Hlen. rewrite Hout in Hlen. lia.
- split; by eexists.
Qed.

(** A target below zero counts from the last class: with targets in
[-C, C) the loss is the one of the targets [y mod C]. *)
Theorem cross_entropy_negative_targets (C : nat) (out : ndarray R) (Y : ndarray Z) :
shape out = shape Y ++ [C] ->
(Z.of_nat C <= 2 ^ 31)%Z ->
Forall (fun y => (- Z.of_nat C <= y < Z.of_nat C)%Z) (data Y) ->
cross_entropy out Y
= cross_entropy out (NDArray (shape Y) (map (target_class C) (data Y)))
/\ valid_targets C (NDArray (shape Y) (map (target_class C) (data Y))).
Proof.
intros Hsh HC HY. split.
- unfold cross_entropy. simpl. rewrite Hsh, last_snoc. simpl.
rewrite !length_map.
assert (map (wrap 32) (data Y) = data Y) as ->.
{ clear -HC HY. induction HY as [|y YY Hy _ IH]; [done|]. simpl. rewrite IH.
  f_equal. apply wrap_representable; [lia|]. unfold representable. simpl. lia. }
assert (map (wrap 32) (map (target_class C) (data Y))
        = map (target_class C) (data Y)) as ->.
{ clear -HC HY. induction HY as [|y YY Hy _ IH]; [done|]. simpl. rewrite IH.
  f_equal. apply wrap_representable; [lia|]. unfold representable. simpl.
  destruct (np_index_target_class C y Hy) as [_ ?]. lia. }
rewrite (assign_columns_ext _ _ (map (target_class C) (data Y)) _ C); [done| |].
+ apply Forall_replicate. by rewrite length_replicate.
+ apply Forall2_fmap_r, Forall_Forall2_diag.
  eapply Forall_impl; [exact HY|]. intros y Hy. simpl.
  by destruct (np_index_target_class C y Hy).
- unfold valid_targets. simpl. apply Forall_map.
eapply Forall_impl; [exact HY|]. intros y Hy. simpl.
by destruct (np_index_target_class C y Hy).
Qed.

End LossEdges.

Lemma cross_entropy_defined_iff_witness :
  is_Some (cross_entropy small_out small_targets)
  <-> Forall (index_ok 2) (data small_targets).
Proof.
  destruct small_tensors_ok as (H1 & H2 & H3 & _ & _ & H6).
  exact (cross_entropy_defined_iff 2 small_out small_targets H1 H2 H3 H6).
Defined.

Lemma cross_entropy_negative_targets_witness :
  cross_entropy small_out small_negative_targets
  = cross_entropy small_out (NDArray [2]%nat [1; 0]).
Proof.
  refine (proj1 (cross_entropy_negative_targets 2 small_out small_negative_targets
                   eq_refl _ _)).
  - simpl. lia.
  - unfold small_negative_targets. simpl. repeat constructor; lia.
Defined.

(** ** Attention weights are distributions over the past *)

Section AttentionRows.
Context (hp : hyper).
Local Open Scope R_scope.

Lemma xexp_nonneg (a : xreal) : 0 <= xexp a.
Proof. destruct a; simpl; [left; apply exp_pos|lra]. Qed.

Lemma sum_map_xexp_pos (r : list xreal) (i : nat) (x : R) :
r !! i = Some (Fin x) -> 0 < sum (map xexp r).
Proof.
intros Hi. assert (exp x <= sum (map xexp r)) as Hle.
{ apply elem_le_sum.
- apply Forall_map, Forall_forall. intros a _. apply xexp_nonneg.
- apply list_elem_of_lookup. exists i. by rewrite list_lookup_fmap, Hi. }
pose proof (exp_pos x). lra.
Qed.

(** The softmax of a row with a finite score is a distribution; a finite
score gets a positive weight and a masked one weight 0. *)
Lemma softmax_with_finite (r : list xreal) (i : nat) (x : R) :
r !! i = Some (Fin x) ->
distribution (softmax r)
/\ forall j a p, r !! j = Some a -> softmax r !! j = Some p ->
   match a with Fin _ => 0 < p | NegInf => p = 0 end.
Proof.
intros Hi. pose proof (sum_map_xexp_pos r i x Hi) as Hs. split; [split_and!|].
- intros Heq. apply (f_equal length) in Heq. rewrite length_softmax in Heq.
apply lookup_lt_Some in Hi. rewrite Heq in Hi. simpl in Hi. lia.
- unfold softmax. cbv zeta. apply Forall_map, Forall_map, Forall_forall.
intros a _. simpl. apply Rle_mult_inv_pos; [apply xexp_nonneg|done].
- unfold softmax. cbv zeta. rewrite sum_map_div. field. lra.
- intros j a p Ha Hp. unfold softmax in Hp. cbv zeta in Hp.
rewrite !list_lookup_fmap, Ha in Hp. simpl in Hp. injection Hp as <-.
destruct a as [y|]; simpl.
+ apply Rdiv_pos_pos; [apply exp_pos|done].
+ apply Rdiv_0_l.
Qed.

(** Row [t] of the attention weights is the softmax of the scores of row
[t] plus row [t] of the mask. *)
Lemma attention_weights_row_lookup (h : Head) (xb : list (list R)) (t : nat) :
(t < length xb)%nat ->
exists (wt : list R) (mrow : list xreal),
attention_weights_row hp h xb !! t
  = Some (softmax (zip_with xadd (map Fin wt) mrow))
/\ length wt = length xb /\ length mrow = length xb
/\ forall t', (t' < length xb)%nat ->
     mrow !! t' = Some (if (t + 1 <=? t')%nat then NegInf else Fin 0).
Proof.
intros Ht. unfold attention_weights_row.
set (kqv := map (Linear_call (to_kqv h)) xb).
set (wei := map (map (fun s => s * attention_scale hp))
              (matmul_nt (map (kqv_part 1) kqv) (map (kqv_part 0) kqv))).
assert (length kqv = length xb) as Hkqv by (unfold kqv; by rewrite length_map).
assert (exists wt, wei !! t = Some wt /\ length wt = length xb) as (wt & Hwt & Hlw).
{ destruct (lookup_lt_is_Some_2 kqv t) as [v Hv]; [lia|].
eexists. unfold wei, matmul_nt. rewrite !list_lookup_fmap, Hv. simpl.
split; [done|]. by rewrite !length_map. }
destruct (lookup_causal_mask (length xb) t t) as (mrow & Hm & Hlm & _); [done..|].
exists wt, mrow.
rewrite list_lookup_fmap, lookup_zip_with, list_lookup_fmap, Hwt, Hm. simpl.
split_and!; [done..|]. intros t' Ht'.
destruct (lookup_causal_mask (length xb) t t') as (mrow' & Hm' & _ & Hmt); [done..|].
rewrite Hm in Hm'. by injection Hm' as <-.
Qed.

(** Every row of the attention weights of a head (before dropout) is a
probability distribution over the positions; position [t] gives a
positive weight to itself and to every earlier position and weight 0
to every later one. *)
Theorem attention_row_distribution (h : Head) (xb : list (list R))
(t : nat) (row : list R) :
attention_weights_row hp h xb !! t = Some row ->
distribution row
/\ length row = length xb
/\ forall t' p, row !! t' = Some p ->
   ((t' <= t)%nat -> 0 < p) /\ ((t < t')%nat -> p = 0).
Proof.
intros Hrow.
assert (t < length xb)%nat as Ht.
{ apply lookup_lt_Some in Hrow. by rewrite length_attention_weights_row in Hrow. }
destruct (attention_weights_row_lookup h xb t Ht) as (wt & mrow & Hl & Hlw & Hlm & Hmask).
rewrite Hrow in Hl. injection Hl as ->.
set (r := zip_with xadd (map Fin wt) mrow).
assert (forall t', (t' < length xb)%nat ->
        exists s, wt !! t' = Some s
          /\ r !! t' = Some (if (t + 1 <=? t')%nat then NegInf else Fin (s + 0)))
as Hr.
{ intros t' Ht'. destruct (lookup_lt_is_Some_2 wt t') as [s Hs]; [lia|].
exists s. split; [done|]. unfold r.
rewrite lookup_zip_with, list_lookup_fmap, Hs, (Hmask t' Ht'). simpl.
by destruct (t + 1 <=? t')%nat. }
destruct (Hr t Ht) as (s & _ & Hrt).
destruct (Nat.leb_spec (t + 1) t); [lia|].
destruct (softmax_with_finite r t (s + 0) Hrt) as [Hdist Hent].
split_and!; [done| |].
- rewrite length_softmax. unfold r. rewrite length_zip_with, length_map. lia.
- intros t' p Hp.
assert (t' < length xb)%nat as Ht'.
{ apply lookup_lt_Some in Hp. rewrite length_softmax in Hp. unfold r in Hp.
  rewrite length_zip_with, length_map in Hp. lia. }
destruct (Hr t' Ht') as (s' & _ & Hrt').
specialize (Hent t' _ p Hrt' Hp).
destruct (Nat.leb_spec (t + 1) t'); split; intros; try lia; done.
Qed.

End AttentionRows.

Lemma attention_row_distribution_witness :
  exists row,
    attention_weights_row small_hyper {| to_kqv := small_linear [[1]; [1]; [1]]%R None |}
      [[1]; [2]; [3]]%R !! 1%nat = Some row
    /\ distribution row.
Proof.
  destruct (attention_weights_row_lookup small_hyper
              {| to_kqv := small_linear [[1]; [1]; [1]]%R None |}
              [[1]; [2]; [3]]%R 1) as (wt & mrow & Hl & _); [simpl; lia|].
  eexists. split; [exact Hl|].
  exact (proj1 (attention_row_distribution small_hyper _ _ 1 _ Hl)).
Defined.

(** ** Evaluation mode *)

Section EvaluationFacts.
Context (hp : hyper).
Local Open Scope R_scope.

Lemma M_bind_unfold {A B} (c : M A) (f : A -> M B) (w : world) :
(c ≫= f) w = match c w with Some (a, w') => f a w' | None => None end.
Proof. reflexivity. Qed.

Lemma Tensor_dropout_eval (p : Q) (x : tensor3) (w : world) :
training w = false -> Tensor_dropout p x w = Some (x, w).
Proof.
intros Hw. unfold Tensor_dropout, get_training, mbind, M_bind. by rewrite Hw.
Qed.

Lemma Head_call_eval (h : Head) (x : tensor3) (w : world) :
training w = false -> Head_call hp h x w = Some (Head_eval hp h x, w).
Proof.
intros Hw. unfold Head_call, mbind, M_bind.
by rewrite (Tensor_dropout_eval _ _ _ Hw).
Qed.

Lemma mapM_Head_call_eval (hs : list Head) (x : tensor3) (w : world) :
training w = false ->
mapM (fun h => Head_call hp h x) hs w
= Some (map (fun h => Head_eval hp h x) hs, w).
Proof.
intros Hw. induction hs as [|h hs IH]; [done|].
cbn [mapM]. unfold mbind at 1, M_bind at 1. rewrite (Head_call_eval _ _ _ Hw).
unfold mbind at 1, M_bind at 1. by rewrite IH.
Qed.

Lemma MultiHeadAttention_call_eval (m : MultiHeadAttention) (x : tensor3)
(w : world) :
training w = false ->
MultiHeadAttention_call hp m x w
= (y ← MultiHeadAttention_eval hp m x; Some (y, w)).
Proof.
intros Hw. unfold MultiHeadAttention_call, MultiHeadAttention_eval.
destruct (heads m) as [|h0 hs]; [done|].
unfold mbind at 1, M_bind at 1. rewrite (Head_call_eval _ _ _ Hw).
unfold mbind at 1, M_bind at 1. rewrite (mapM_Head_call_eval _ _ _ Hw).
by rewrite (Tensor_dropout_eval _ _ _ Hw).
Qed.

Lemma Block_call_eval (b : Block) (x : tensor3) (w : world) :
training w = false ->
Block_call hp b x w = (y ← Block_eval hp b x; Some (y, w)).
Proof.
intros Hw. unfold Block_call, Block_eval.
unfold mbind at 1, M_bind at 1. rewrite (MultiHeadAttention_call_eval _ _ _ Hw).
destruct (MultiHeadAttention_eval hp (sa b) _) as [a|]; [|done]. simpl.
unfold mbind at 1, M_bind at 1. unfold FeedForward_call.
by rewrite (Tensor_dropout_eval _ _ _ Hw).
Qed.

Lemma blocks_call_eval (bs : list Block) (x : tensor3) (w : world) :
training w = false ->
for_each bs (Block_call hp) x w = (y ← blocks_eval hp bs x; Some (y, w)).
Proof.
intros Hw. revert x. induction bs as [|b bs IH]; intros x; [done|].
cbn [for_each blocks_eval]. unfold mbind at 1, M_bind at 1.
rewrite (Block_call_eval _ _ _ Hw).
destruct (Block_eval hp b x) as [y|]; [|done]. simpl. apply IH.
Qed.

(** In evaluation mode the model's logits and loss are a function of the
model, the tokens and the targets alone: neither generator and
nothing else of the global state has a say, and a call that raises
raises from every such state. *)
Theorem eval_call_independent_of_state (m : GPTLanguageModel)
(idx : list (list Z)) (targets : option (list (list Z))) (w w' : world) :
training w = false -> training w' = false ->
fst <$> GPTLanguageModel_call hp m idx targets w
= fst <$> GPTLanguageModel_call hp m idx targets w'.
Proof.
intros Hw Hw'. unfold GPTLanguageModel_call.
rewrite !M_bind_unfold, !blocks_call_eval by done.
destruct (blocks_eval hp (blocks m) _) as [y|]; [|done]. cbn [mbind option_bind].
destruct targets as [tg|]; [|reflexivity].
rewrite !M_bind_unfold. unfold lift.
by destruct (cross_entropy _ _) as [l|].
Qed.

End EvaluationFacts.

(** ** Causality: a position never sees a later one *)

Section Causality.
Context (hp : hyper).
Local Open Scope R_scope.

Lemma take_eq_lookup {A} (n : nat) (l l' : list A) :
take n l = take n l' <-> forall i, (i < n)%nat -> l !! i = l' !! i.
Proof.
split.
- intros Heq i Hi. apply (f_equal (fun k => k !! i)) in Heq.
rewrite !lookup_take in Heq. by destruct (decide (i < n)%nat).
- intros Hl. apply list_eq. intros i. rewrite !lookup_take.
destruct (decide (i < n)%nat); [by apply Hl|done].
Qed.

Lemma agree_refl {A} (n : nat) (x : list (list A)) : agree n x x.
Proof. unfold agree. by apply Forall_Forall2_diag, Forall_forall. Qed.

Lemma agree_map_map {A B} (f : A -> B) (n : nat) (x x' : list (list A)) :
agree n x x' -> agree n (map (map f) x) (map (map f) x').
Proof.
unfold agree. intros H. apply Forall2_fmap. eapply Forall2_impl; [exact H|].
intros xb xb' [Hl Ht]. simpl. rewrite !length_map. split; [done|].
change (take n (f <$> xb) = take n (f <$> xb')). by rewrite <- !fmap_take, Ht.
Qed.

Lemma agree_zip_with {A B C} (f : A -> B -> C) (n : nat)
(x x' : list (list A)) (y y' : list (list B)) :
agree n x x' -> agree n y y' ->
agree n (zip_with (zip_with f) x y) (zip_with (zip_with f) x' y').
Proof.
unfold agree. intros Hx. revert y y'.
induction Hx as [|xb xb' x x' [Hl Ht] Hx IH]; intros y y' Hy; [constructor|].
destruct Hy as [|yb yb' y y' [Hl' Ht'] Hy]; [constructor|].
simpl. constructor; [|by apply IH].
rewrite !length_zip_with. split; [lia|].
pose proof (proj1 (take_eq_lookup _ _ _) Ht) as Hk.
pose proof (proj1 (take_eq_lookup _ _ _) Ht') as Hk'.
apply take_eq_lookup. intros i Hi.
by rewrite !lookup_zip_with, (Hk i Hi), (Hk' i Hi).
Qed.

(** The scores of position [t], masked: a later position has negative
infinity, the others the scaled product of the query of [t] and
their key. *)
Lemma attention_row_entries (h : Head) (xb : mat) (t : nat) (xt : vec) :
xb !! t = Some xt ->
exists r : list xreal,
attention_weights_row hp h xb !! t = Some (softmax r)
/\ forall i,
     r !! i
     = (fun xi => if (t + 1 <=? i)%nat then NegInf
                  else Fin (dot (kqv_part 1 (Linear_call (to_kqv h) xt))
                                (kqv_part 0 (Linear_call (to_kqv h) xi))
                            * attention_scale hp + 0)) <$> xb !! i.
Proof.
intros Hxt. pose proof (lookup_lt_Some _ _ _ Hxt) as Ht.
destruct (lookup_causal_mask (length xb) t t) as (mrow & Hm & Hlm & _); [done..|].
eexists. split.
- unfold attention_weights_row, matmul_nt.
rewrite list_lookup_fmap, lookup_zip_with, !list_lookup_fmap, Hxt, Hm.
simpl. reflexivity.
- intros i. rewrite lookup_zip_with, !list_lookup_fmap.
destruct (xb !! i) as [xi|] eqn:Hxi; [|done]. simpl.
pose proof (lookup_lt_Some _ _ _ Hxi) as Hi.
destruct (lookup_causal_mask (length xb) t i) as (mrow' & Hm' & _ & Hmi); [done..|].
rewrite Hm in Hm'. injection Hm' as <-. rewrite Hmi. simpl.
by destruct (t + 1 <=? i)%nat.
Qed.

Lemma dot_masked (a b b' : vec) :
length b = length b' ->
(forall i p, a !! i = Some p -> p = 0 \/ b !! i = b' !! i) ->
dot a b = dot a b'.
Proof.
intros Hl Ha. unfold dot. f_equal. apply list_eq. intros i.
rewrite !lookup_zip_with. destruct (a !! i) as [p|] eqn:Hp; [|done]. simpl.
destruct (Ha i p Hp) as [->|Hb]; [|by rewrite Hb].
destruct (b !! i) as [v|] eqn:Hv.
- destruct (lookup_lt_is_Some_2 b' i) as [v' Hv'].
{ apply lookup_lt_Some in Hv. lia. }
rewrite Hv'. simpl. f_equal. lra.
- apply lookup_ge_None in Hv. rewrite (lookup_ge_None_2 b' i) by lia. done.
Qed.

(** One batch row of a head: the output at a position depends on the
input at that position and before it, and on nothing after. *)
Lemma Head_row_causal (h : Head) (n : nat) (xb xb' : mat) :
length xb = length xb' -> take n xb = take n xb' ->
take n (matmul (attention_weights_row hp h xb)
             (map (fun xt => kqv_part 2 (Linear_call (to_kqv h) xt)) xb))
= take n (matmul (attention_weights_row hp h xb')
               (map (fun xt => kqv_part 2 (Linear_call (to_kqv h) xt)) xb')).
Proof.
intros Hl Ht. pose proof (proj1 (take_eq_lookup n xb xb') Ht) as Hlk.
set (val := fun xt => kqv_part 2 (Linear_call (to_kqv h) xt)).
apply take_eq_lookup. intros t Htn. unfold matmul. rewrite !list_lookup_fmap.
destruct (xb !! t) as [xt|] eqn:Hxt.
2:{ apply lookup_ge_None in Hxt.
  rewrite !(proj2 (lookup_ge_None _ t)); [done|..];
    rewrite length_attention_weights_row; lia. }
assert (xb' !! t = Some xt) as Hxt' by (by rewrite <- Hlk).
destruct (attention_row_entries h xb t xt Hxt) as (r & Hr & Hre).
destruct (attention_row_entries h xb' t xt Hxt') as (r' & Hr' & Hre').
assert (r' = r) as ->.
{ apply list_eq. intros i. rewrite Hre, Hre'.
destruct (decide (i < n)%nat) as [Hi|Hi]; [by rewrite Hlk|].
destruct (Nat.leb_spec (t + 1) i); [|lia].
destruct (xb !! i) as [xi|] eqn:Hxi.
- destruct (lookup_lt_is_Some_2 xb' i) as [xi' Hxi'].
  { apply lookup_lt_Some in Hxi. lia. }
  by rewrite Hxi'.
- apply lookup_ge_None in Hxi. by rewrite (lookup_ge_None_2 xb' i) by lia. }
rewrite Hr, Hr'. simpl. f_equal.
assert (hd [] (map val xb) = hd [] (map val xb')) as ->.
{ destruct xb as [|x0 xb0], xb' as [|x0' xb0']; try done.
assert (Some x0 = Some x0') as Heq by (apply (Hlk 0%nat); lia).
simpl. congruence. }
apply map_ext. intros j. apply dot_masked.
{ unfold column. by rewrite !length_map. }
intros i p Hp. destruct (decide (i <= t)%nat) as [Hi|Hi].
- right. unfold column. rewrite !list_lookup_fmap, Hlk by lia. done.
- left. pose proof (Hre i) as Hri.
destruct (xb !! i) as [xi|] eqn:Hxi; simpl in Hri.
+ destruct (Nat.leb_spec (t + 1) i); [|lia].
  apply softmax_masked in Hri. congruence.
+ unfold softmax in Hp. cbv zeta in Hp.
  by rewrite !list_lookup_fmap, Hri in Hp.
Qed.

Lemma Head_eval_causal (h : Head) (n : nat) (x x' : tensor3) :
agree n x x' -> agree n (Head_eval hp h x) (Head_eval hp h x').
Proof.
unfold agree, Head_eval, attention_weights, attention_values.
induction 1 as [|xb xb' x x' [Hl Ht] Hx IH]; [constructor|].
simpl. constructor; [|exact IH]. split.
- unfold matmul. by rewrite !length_map, !length_attention_weights_row.
- by apply Head_row_causal.
Qed.

Lemma foldl_cat_last_causal (n : nat) (o o' : tensor3) (os os' : list tensor3) :
agree n o o' -> Forall2 (agree n) os os' ->
agree n (foldl cat_last o os) (foldl cat_last o' os').
Proof.
intros Ho Hos. revert o o' Ho.
induction Hos as [|a a' os os' Ha Hos IH]; intros o o' Ho; [done|].
simpl. apply IH. by apply agree_zip_with.
Qed.

Lemma MultiHeadAttention_eval_causal (m : MultiHeadAttention) (n : nat)
(x x' y y' : tensor3) :
agree n x x' ->
MultiHeadAttention_eval hp m x = Some y ->
MultiHeadAttention_eval hp m x' = Some y' ->
agree n y y'.
Proof.
unfold MultiHeadAttention_eval. intros Hx Hy Hy'.
destruct (heads m) as [|h0 hs]; [done|].
injection Hy as <-. injection Hy' as <-.
apply agree_map_map, foldl_cat_last_causal; [by apply Head_eval_causal|].
apply Forall2_fmap, Forall_Forall2_diag, Forall_forall.
intros h _. by apply Head_eval_causal.
Qed.

Lemma Block_eval_causal (b : Block) (n : nat) (x x' y y' : tensor3) :
agree n x x' ->
Block_eval hp b x = Some y -> Block_eval hp b x' = Some y' ->
agree n y y'.
Proof.
unfold Block_eval. intros Hx Hy Hy'.
destruct (MultiHeadAttention_eval hp (sa b) (map _ x)) as [a|] eqn:Ha; [|done].
destruct (MultiHeadAttention_eval hp (sa b) (map _ x')) as [a'|] eqn:Ha'; [|done].
simpl in Hy, Hy'. injection Hy as <-. injection Hy' as <-.
assert (agree n a a') as Haa.
{ eapply MultiHeadAttention_eval_causal; [|exact Ha|exact Ha'].
by apply agree_map_map. }
assert (agree n (tadd x a) (tadd x' a')) as Hxa by (by apply agree_zip_with).
apply agree_zip_with; [done|]. by do 2 apply agree_map_map.
Qed.

Lemma blocks_eval_causal (bs : list Block) (n : nat) (x x' y y' : tensor3) :
agree n x x' ->
blocks_eval hp bs x = Some y -> blocks_eval hp bs x' = Some y' ->
agree n y y'.
Proof.
revert x x'. induction bs as [|b bs IH]; intros x x' Hx Hy Hy'; simpl in *.
- congruence.
- destruct (Block_eval hp b x) as [z|] eqn:Hz; [|done].
destruct (Block_eval hp b x') as [z'|] eqn:Hz'; [|done].
simpl in Hy, Hy'. eapply IH; [|exact Hy|exact Hy'].
by eapply Block_eval_causal.
Qed.

Lemma MultiHeadAttention_eval_is_Some (m : MultiHeadAttention) (x : tensor3) :
heads m <> [] -> is_Some (MultiHeadAttention_eval hp m x).
Proof. unfold MultiHeadAttention_eval. by destruct (heads m). Qed.

Lemma blocks_eval_is_Some (bs : list Block) (x : tensor3) :
Forall (fun b => heads (sa b) <> []) bs -> is_Some (blocks_eval hp bs x).
Proof.
intros Hbs. revert x. induction Hbs as [|b bs Hb _ IH]; intros x; [done|].
simpl. unfold Block_eval.
destruct (MultiHeadAttention_eval_is_Some (sa b)
          (map (map (LayerNorm_call (ln1 b))) x) Hb) as [a ->].
simpl. apply IH.
Qed.

(** In evaluation mode and without targets, the call returns the logits
of the evaluation-mode trunk. *)
Lemma GPTLanguageModel_call_eval (m : GPTLanguageModel) (idx : list (list Z))
(w : world) :
training w = false ->
fst <$> GPTLanguageModel_call hp m idx None w
= (fun y => (map (map (Linear_call (lm_head m)))
               (map (map (LayerNorm_call (ln_f m))) y), None))
<$> blocks_eval hp (blocks m)
      (map (fun xb => zip_with vadd xb
                        (map (Embedding_call (position_embedding_table m))
                             (arange_int8 (length (hd [] idx)))))
           (map (map (Embedding_call (token_embedding_table m))) idx)).
Proof.
intros Hw. unfold GPTLanguageModel_call.
rewrite M_bind_unfold, blocks_call_eval by done.
by destruct (blocks_eval hp (blocks m) _) as [y|].
Qed.

(** The model is causal.  In evaluation mode, a model whose attention
layers have heads returns logits for every batch of contexts, and two
batches of the same extents that agree on the first [n] positions of
every sequence get logits that agree on the first [n] positions: the
prediction at a position is blind to the tokens after it. *)
Theorem model_logits_causal (m : GPTLanguageModel) (n : nat)
(idx idx' : list (list Z)) (w w' : world) :
model_ok m -> training w = false -> training w' = false ->
agree n idx idx' ->
exists logits logits',
fst <$> GPTLanguageModel_call hp m idx None w = Some (logits, None)
/\ fst <$> GPTLanguageModel_call hp m idx' None w' = Some (logits', None)
/\ agree n logits logits'.
Proof.
intros Hm Hw Hw' Hidx.
rewrite !GPTLanguageModel_call_eval by done.
assert (length (hd [] idx) = length (hd [] idx')) as ->.
{ destruct Hidx as [|? ? ? ? [? _] _]; done. }
set (pos := map _ (arange_int8 _)).
set (e := map (fun xb => zip_with vadd xb pos) (map _ idx)).
set (e' := map (fun xb => zip_with vadd xb pos) (map _ idx')).
assert (agree n e e') as He.
{ pose proof (agree_map_map (Embedding_call (token_embedding_table m)) n _ _ Hidx)
  as He.
unfold agree in *. apply Forall2_fmap. eapply Forall2_impl; [exact He|].
intros xb xb' [Hl Ht]. simpl. rewrite !length_zip_with. split; [lia|].
pose proof (proj1 (take_eq_lookup _ _ _) Ht) as Hk.
apply take_eq_lookup. intros i Hi.
by rewrite !lookup_zip_with, (Hk i Hi). }
destruct (blocks_eval_is_Some (blocks m) e Hm) as [y Hy].
destruct (blocks_eval_is_Some (blocks m) e' Hm) as [y' Hy'].
rewrite Hy, Hy'. simpl. eexists _, _. split_and!; [done..|].
do 2 apply agree_map_map. by eapply blocks_eval_causal.
Qed.

End Causality.

Lemma eval_call_independent_of_state_witness :
  fst <$> GPTLanguageModel_call small_hyper small_model [[0; 1]] (Some [[1; 0]])
            (with_training false small_world)
  = fst <$> GPTLanguageModel_call small_hyper small_model [[0; 1]] (Some [[1; 0]])
              (with_training false (with_tensor_rng (constant_rng (3 # 4)) small_world)).
Proof.
  exact (eval_call_independent_of_state small_hyper small_model [[0; 1]]
           (Some [[1; 0]]) (with_training false small_world)
           (with_training false (with_tensor_rng (constant_rng (3 # 4)) small_world))
           eq_refl eq_refl).
Defined.

Lemma model_logits_causal_witness :
  exists logits logits',
    fst <$> GPTLanguageModel_call small_hyper small_model [[0; 1]] None
              (with_training false small_world) = Some (logits, None)
    /\ fst <$> GPTLanguageModel_call small_hyper small_model [[0; 0]] None
                 (with_training false small_world) = Some (logits', None)
    /\ agree 1 logits logits'.
Proof.
  apply (model_logits_causal small_hyper small_model 1 [[0; 1]] [[0; 0]]).
  - exact (proj1 small_model_ok).
  - reflexivity.
  - reflexivity.
  - repeat constructor.
Defined.

(** ** Generation reads numpy's generator only *)

Section GenerationState.
Context (hp : hyper) (cs : list ascii).

Lemma sim_ret {A} (a : A) (w w' : world) :
same_numpy w w' -> sim ((mret a : M A) w) ((mret a : M A) w').
Proof. by intros H. Qed.

Lemma sim_bind {A B} (c : M A) (f : A -> M B) (w w' : world) :
sim (c w) (c w') ->
(forall a w1 w1', same_numpy w1 w1' -> sim (f a w1) (f a w1')) ->
sim ((c ≫= f) w) ((c ≫= f) w').
Proof.
intros Hc Hf. rewrite !M_bind_unfold.
destruct (c w) as [[a w1]|], (c w') as [[a' w1']|]; try done.
destruct Hc as [<- Hw]. by apply Hf.
Qed.

Lemma sim_lift {A} (o : option A) (w w' : world) :
same_numpy w w' -> sim (lift o w) (lift o w').
Proof. intros H. unfold lift. by destruct o. Qed.

Lemma sim_emit (e : event) (w w' : world) :
same_numpy w w' -> sim (emit e w) (emit e w').
Proof. by intros H. Qed.

Lemma sim_choice (p : list R) (w w' : world) :
same_numpy w w' -> sim (choice p w) (choice p w').
Proof.
intros (Ht & Ht' & Hn). unfold choice.
destruct (decide (p = [])); [done|].
destruct (decide _); [|done].
apply sim_bind.
- unfold numpy_draw. simpl. rewrite Hn. split; [done|].
split_and!; simpl; by rewrite ?Hn.
- intros u w1 w1' H1. by apply sim_ret.
Qed.

Lemma sim_mapM {A B} (f : A -> M B) (l : list A) (w w' : world) :
(forall a w1 w1', same_numpy w1 w1' -> sim (f a w1) (f a w1')) ->
same_numpy w w' -> sim (mapM f l w) (mapM f l w').
Proof.
intros Hf. revert w w'. induction l as [|a l IH]; intros w w' Hw; [done|].
cbn [mapM]. apply sim_bind; [by apply Hf|].
intros b w1 w1' H1. apply sim_bind; [by apply IH|].
intros k w2 w2' H2. by apply sim_ret.
Qed.

Lemma sim_for_each {A S} (l : list A) (body : A -> S -> M S) (s : S)
(w w' : world) :
(forall a s w1 w1', same_numpy w1 w1' -> sim (body a s w1) (body a s w1')) ->
same_numpy w w' -> sim (for_each l body s w) (for_each l body s w').
Proof.
intros Hb. revert s w w'. induction l as [|a l IH]; intros s w w' Hw; [done|].
cbn [for_each]. apply sim_bind; [by apply Hb|].
intros s' w1 w1' H1. by apply IH.
Qed.

Lemma sim_call (m : GPTLanguageModel) (idx : list (list Z)) (w w' : world) :
same_numpy w w' ->
sim (GPTLanguageModel_call hp m idx None w) (GPTLanguageModel_call hp m idx None w').
Proof.
intros (Ht & Ht' & Hn). unfold GPTLanguageModel_call.
rewrite !M_bind_unfold, !blocks_call_eval by done.
destruct (blocks_eval hp (blocks m) _) as [y|]; [|done].
cbn [mbind option_bind].
apply sim_bind; [by apply sim_ret|]. intros loss w1 w1' H1.
apply sim_bind.
{ unfold get_training. destruct H1 as (Hw1 & Hw1' & ?).
rewrite Hw1, Hw1'. by split. }
intros t w2 w2' H2. destruct H2 as (Hw2 & Hw2' & Hn2).
rewrite !M_bind_unfold. unfold get_no_grad. rewrite !M_bind_unfold.
unfold emit, mret, M_ret. split; [done|]. by split_and!.
Qed.

Lemma sim_generate_step (m : GPTLanguageModel) (st : list (list Z) * list ascii)
(w w' : world) :
same_numpy w w' ->
sim (generate_step hp cs m st w) (generate_step hp cs m st w').
Proof.
intros Hw. unfold generate_step.
apply sim_bind; [by apply sim_call|]. intros r w1 w1' H1.
apply sim_bind; [by apply sim_lift|]. intros logits w2 w2' H2.
apply sim_bind; [apply sim_mapM; [|done]; intros; by apply sim_choice|].
intros next w3 w3' H3.
apply sim_bind; [by apply sim_lift|]. intros first w4 w4' H4.
apply sim_bind; [by apply sim_lift|]. intros token w5 w5' H5.
apply sim_bind; [by apply sim_emit|]. intros [] w6 w6' H6.
by apply sim_ret.
Qed.

(** With dropout off, as the program generates, what [generate] returns
is a function of the model, the context and numpy's generator: the
tensor library's generator, the one the seed sets, has no say, and a
run that raises raises whatever that generator holds. *)
Theorem generate_reads_numpy_only (m : GPTLanguageModel) (idx : list (list Z))
(N : nat) (w w' : world) :
training w = false -> training w' = false ->
numpy_rng w = numpy_rng w' ->
fst <$> generate hp cs m idx N w = fst <$> generate hp cs m idx N w'.
Proof.
intros Ht Ht' Hn. unfold generate. rewrite !M_bind_unfold.
pose proof (sim_for_each (range N) (fun _ => generate_step hp cs m) (idx, []) w w')
as Hs.
destruct (for_each _ _ _ w) as [[st w1]|], (for_each _ _ _ w') as [[st' w1']|];
simpl in *.
- destruct Hs as [-> _]; [|done..]. intros _ s ? ? ?. by apply sim_generate_step.
- destruct Hs; [|done]. intros _ s ? ? ?. by apply sim_generate_step.
- destruct Hs; [|done]. intros _ s ? ? ?. by apply sim_generate_step.
- done.
Qed.

End GenerationState.

Lemma generate_reads_numpy_only_witness :
  fst <$> generate small_hyper small_chars small_model [[0]] 1 (numpy_world (1 # 4))
  = fst <$> generate small_hyper small_chars small_model [[0]] 1
              (with_tensor_rng (constant_rng (3 # 4)) (numpy_world (1 # 4))).
Proof.
  exact (generate_reads_numpy_only small_hyper small_chars small_model [[0]] 1
           (numpy_world (1 # 4))
           (with_tensor_rng (constant_rng (3 # 4)) (numpy_world (1 # 4)))
           eq_refl eq_refl eq_refl).
Defined.

(** ** What an evaluation costs *)

Section EvaluationFrame.
Context (hp : hyper) (train_data val_data : list Z).
Context (V : nat).
Hypothesis Hbatch : (1 <= batch_size hp)%nat.
Hypothesis Hblock : (1 <= block_size hp)%nat.
Hypothesis HV : (1 <= V)%nat.
Hypothesis HV31 : Z.of_nat V <= 2 ^ 31.
Hypothesis Htrain : data_ok hp V train_data.
Hypothesis Hval : data_ok hp V val_data.
Local Open Scope R_scope.

(** A batch costs [batch_size] draws of the tensor generator. *)
Lemma get_batch_frame (s : split) (w : world) :
rng_ok (tensor_rng w) ->
returns (get_batch hp train_data val_data s) w (fun b w' =>
tokens_shape (batch_size hp) (block_size hp) b.1
/\ targets_ok (batch_size hp) (block_size hp) V (Some b.2)
/\ training w' = training w
/\ numpy_rng w' = numpy_rng w
/\ tensor_rng w' = rng_skip (batch_size hp) (tensor_rng w)).
Proof.
intros Hg.
destruct (get_batch_returns hp train_data val_data V Hbatch Hblock HV HV31
          Htrain Hval s w Hg) as (b & w' & Hrun & Hx & Hy & Ht & _).
exists b, w'. split; [done|]. split_and!; [done..| |].
- rewrite (get_batch_eq hp train_data val_data s w _ _ (get_batch_ix_eq hp _ w))
  in Hrun.
by injection Hrun as _ <-.
- rewrite (get_batch_eq hp train_data val_data s w _ _ (get_batch_ix_eq hp _ w))
  in Hrun.
by injection Hrun as _ <-.
Qed.

(** A model call in evaluation mode costs no draw, and its loss is not
negative. *)
Lemma model_on_batch_frame (m : GPTLanguageModel)
(b : list (list Z) * list (list Z)) (w : world) :
model_ok m -> lm_head_ok V m ->
tokens_shape (batch_size hp) (block_size hp) b.1 ->
targets_ok (batch_size hp) (block_size hp) V (Some b.2) ->
training w = false ->
returns (GPTLanguageModel_call hp m b.1 (Some b.2)) w (fun r w' =>
exists l, r.2 = Some l /\ 0 <= l
  /\ training w' = false
  /\ numpy_rng w' = numpy_rng w
  /\ tensor_rng w' = tensor_rng w).
Proof.
intros Hm Hh Hx Hy Ht. eapply returns_mono.
{ by apply (GPTLanguageModel_call_spec hp m b.1 (Some b.2) w
            (batch_size hp) (block_size hp) V). }
intros r w' (_ & _ & (w1 & Hs & ->) & _ & l & Hl & _ & _ & Hpos).
destruct Hs as [_ Hs]. rewrite (Hs Ht). by exists l.
Qed.

Lemma np_mean_nonneg (l : list R) (a : R) :
Forall (fun x => 0 <= x) l -> np_mean l = Some a -> 0 <= a.
Proof.
intros Hl Ha. unfold np_mean in Ha.
assert (0 < INR (length l)) as Hlen.
{ apply lt_0_INR. destruct l; [done|]. simpl. lia. }
pose proof (sum_nonneg l Hl) as Hs.
destruct l as [|x l]; [done|]. injection Ha as <-.
by apply Rle_mult_inv_pos.
Qed.

Lemma estimate_split_frame (m : GPTLanguageModel) (s : split) (w : world) :
model_ok m -> lm_head_ok V m ->
training w = false -> rng_ok (tensor_rng w) ->
returns (estimate_split hp train_data val_data m s) w (fun avg w' =>
(forall a, avg = Some a -> 0 <= a)
/\ ((1 <= eval_iters hp)%nat -> is_Some avg)
/\ training w' = false
/\ numpy_rng w' = numpy_rng w
/\ tensor_rng w'
   = rng_skip (eval_iters hp * batch_size hp) (tensor_rng w)).
Proof.
intros Hm Hh Ht Hg. unfold estimate_split.
apply returns_bind. eapply returns_mono.
{ apply (returns_for_each _ _ (fun done (losses : list R) w' =>
   length losses = eval_iters hp
   /\ Forall (fun x => 0 <= x) losses
   /\ training w' = false
   /\ numpy_rng w' = numpy_rng w
   /\ tensor_rng w'
      = rng_skip (length done * batch_size hp) (tensor_rng w))).
- split_and!; [by rewrite length_replicate| |done..].
  apply Forall_replicate. lra.
- intros done k losses w1 Hpre (Hlen & Hpos & Ht1 & Hn1 & Hr1).
  apply returns_bind. eapply returns_mono.
  { apply get_batch_frame. rewrite Hr1. by apply rng_skip_ok. }
  intros b w2 (Hx & Hy & Ht2 & Hn2 & Hr2).
  apply returns_bind. eapply returns_mono.
  { apply model_on_batch_frame; [done..|congruence]. }
  intros r w3 (l & Hl & Hl0 & Ht3 & Hn3 & Hr3).
  apply returns_bind. eapply returns_lift; [exact Hl|]. apply returns_ret.
  split_and!; [by rewrite length_insert| |done|congruence|].
  + apply Forall_insert; done.
  + rewrite Hr3, Hr2, Hr1, rng_skip_add, length_app. simpl.
    f_equal. lia. }
intros losses w' (Hlen & Hpos & Ht' & Hn' & Hr').
apply returns_ret. split_and!; [|  |done..|].
- intros a. by apply np_mean_nonneg.
- intros He. destruct losses; [simpl in Hlen; lia|]. by eexists.
- unfold range in Hr'. by rewrite length_seq in Hr'.
Qed.

(** What [estimate_loss] costs and leaves behind.  Whatever the mode
before the call, the program is in training mode after it; the tensor
library's generator has given [2 * eval_iters * batch_size] draws (the
offsets of the batches), numpy's generator none; and the two averages
are in the dictionary, neither negative, and numbers as soon as
[eval_iters] is at least 1 (the mean of no loss is nan). *)
Theorem estimate_loss_cost (m : GPTLanguageModel) (w : world) :
model_ok m -> lm_head_ok V m -> rng_ok (tensor_rng w) ->
exists (out : split -> option (option R)) (tl vl : option R) (w' : world),
estimate_loss hp train_data val_data m w = Some (out, w')
/\ out Train = Some tl /\ out Val = Some vl
/\ (forall a, tl = Some a \/ vl = Some a -> 0 <= a)
/\ ((1 <= eval_iters hp)%nat -> is_Some tl /\ is_Some vl)
/\ training w' = true
/\ numpy_rng w' = numpy_rng w
/\ tensor_rng w'
   = rng_skip (2 * eval_iters hp * batch_size hp) (tensor_rng w).
Proof.
intros Hm Hh Hg. unfold estimate_loss.
rewrite M_bind_unfold. cbn [set_training]. rewrite M_bind_unfold.
cbn [for_each]. rewrite !M_bind_unfold.
destruct (estimate_split_frame m Train (with_training false w) Hm Hh eq_refl Hg)
as (tl & w1 & -> & Htl & Htl' & Ht1 & Hn1 & Hr1).
cbn [mret M_ret]. rewrite !M_bind_unfold.
destruct (estimate_split_frame m Val w1 Hm Hh Ht1) as
(vl & w2 & -> & Hvl & Hvl' & Ht2 & Hn2 & Hr2).
{ rewrite Hr1. by apply rng_skip_ok. }
cbn [mret M_ret set_training].
eexists _, tl, vl, _. split; [reflexivity|].
split_and!; [done..| | |done| |].
- intros a [->| ->]; [by apply Htl|by apply Hvl].
- intros He. split; [by apply Htl'|by apply Hvl'].
- simpl. by rewrite Hn2, Hn1.
- simpl. rewrite Hr2, Hr1, rng_skip_add. simpl. f_equal. lia.
Qed.

End EvaluationFrame.

Lemma estimate_loss_cost_witness :
  exists out w',
    estimate_loss small_hyper small_data small_data small_model
      (with_training false small_world) = Some (out, w')
    /\ training w' = true
    /\ tensor_rng w' = rng_skip 12 (tensor_rng small_world).
Proof.
  destruct small_model_ok as [Hm Hh].
  assert (rng_ok (tensor_rng (with_training false small_world))) as Hg.
  { apply constant_rng_ok; unfold Qle, Qlt; simpl; lia. }
  destruct (estimate_loss_cost small_hyper small_data small_data 2
              ltac:(simpl; lia) ltac:(simpl; lia) ltac:(lia) ltac:(simpl; lia)
              small_data_ok small_data_ok small_model
              (with_training false small_world) Hm Hh Hg)
    as (out & tl & vl & w' & Hrun & _ & _ & _ & _ & Ht & _ & Hr).
  exists out, w'. split; [exact Hrun|]. split; [exact Ht|exact Hr].
Defined.

(** ** The loop and a zero interval *)

Section LoopEdges.
Context (hp : hyper) (train_data val_data : list Z).
Context {opt_state : Type}.
Context (optimizer_step : opt_state -> GPTLanguageModel ->
   list (list Z) -> list (list Z) -> rng -> opt_state * GPTLanguageModel).

Lemma training_loop_zero_interval (o : opt_state) (m : GPTLanguageModel)
(w : world) :
(1 <= max_iters hp)%nat -> eval_interval hp = 0%nat ->
training_loop hp train_data val_data optimizer_step o m w = None.
Proof.
intros Hi H0. unfold training_loop. rewrite M_bind_unfold. cbn [set_training].
destruct (max_iters hp) as [|n]; [lia|].
unfold range. cbn [seq for_each]. rewrite M_bind_unfold.
unfold train_iter. rewrite M_bind_unfold.
unfold is_checkpoint. by rewrite H0.
Qed.

(** The loop takes the remainder of the iteration number by
[eval_interval] before anything else.  With at least one iteration to
run, and data, model and optimizer as the loop needs them, it returns
exactly when [eval_interval] is not 0; with [eval_interval = 0] the
first iteration raises (ZeroDivisionError).  With no iteration to run
the interval is never looked at: the loop returns at once, and has
only switched training mode on. *)
Theorem training_loop_returns_iff (V : nat) (o : opt_state)
(m : GPTLanguageModel) (w : world) :
(1 <= batch_size hp)%nat -> (1 <= block_size hp)%nat ->
(1 <= V)%nat -> Z.of_nat V <= 2 ^ 31 ->
data_ok hp V train_data -> data_ok hp V val_data ->
(forall o m xb yb g, model_ok m -> lm_head_ok V m ->
 model_ok (optimizer_step o m xb yb g).2
 /\ lm_head_ok V (optimizer_step o m xb yb g).2) ->
model_ok m -> lm_head_ok V m -> rng_ok (tensor_rng w) ->
((1 <= max_iters hp)%nat ->
 (is_Some (training_loop hp train_data val_data optimizer_step o m w)
  <-> (1 <= eval_interval hp)%nat))
/\ (max_iters hp = 0%nat ->
    training_loop hp train_data val_data optimizer_step o m w
    = Some ((o, m), with_training true w)).
Proof.
intros Hb Hbl HV H31 Htd Hvd Hopt Hm Hh Hg. split.
- intros Hi. split.
+ intros [r Hr]. destruct (eval_interval hp) as [|k] eqn:Hk; [|lia].
  by rewrite training_loop_zero_interval in Hr.
+ intros Hint.
  destruct (training_loop_spec hp train_data val_data optimizer_step V
              Hb Hbl HV H31 Htd Hvd Hint Hopt o m w Hm Hh Hg)
    as (st' & w' & Hrun & _).
  by rewrite Hrun.
- intros H0. unfold training_loop. by rewrite H0.
Qed.

End LoopEdges.

Lemma training_loop_returns_iff_witness :
  is_Some (training_loop small_hyper small_data small_data idle_optimizer tt
             small_model small_world)
  <-> (1 <= eval_interval small_hyper)%nat.
Proof.
  destruct small_model_ok as [Hm Hh].
  assert (rng_ok (tensor_rng small_world)) as Hg.
  { apply constant_rng_ok; unfold Qle, Qlt; simpl; lia. }
  refine (proj1 (training_loop_returns_iff small_hyper small_data small_data
                   idle_optimizer 2 tt small_model small_world
                   _ _ _ _ small_data_ok small_data_ok _ Hm Hh Hg) _).
  - simpl; lia.
  - simpl; lia.
  - lia.
  - simpl; lia.
  - intros o m xb yb g Hm' Hh'. exact (conj Hm' Hh').
  - simpl; lia.
Defined.

(** ** Generation forgets what the crop drops *)

Section GenerationContext.
Context (hp : hyper) (cs : list ascii).

Lemma M_bind_ext {A B} (c : M A) (f g : A -> M B) (w : world) :
(forall a w1, f a w1 = g a w1) -> (c ≫= f) w = (c ≫= g) w.
Proof.
intros Hfg. rewrite !M_bind_unfold. by destruct (c w) as [[a w1]|].
Qed.

(** Cropping, appending and cropping again is appending and cropping,
also for [block_size = 0], where [idx[:, -0:]] keeps everything. *)
Lemma py_slice_from_app {A} (b : nat) (row sfx : list A) :
py_slice_from (py_slice_from row (- Z.of_nat b) ++ sfx) (- Z.of_nat b)
= py_slice_from (row ++ sfx) (- Z.of_nat b).
Proof.
destruct b as [|b].
- unfold py_slice_from, slice_bound. simpl.
rewrite !Z.min_l by lia. done.
- rewrite !py_slice_from_last_n by lia. unfold last_n.
rewrite !length_app, length_drop.
destruct (decide (length row <= S b)%nat) as [Hle|Hgt].
+ replace (length row - S b)%nat with O by lia. simpl.
  f_equal. lia.
+ destruct (decide (length sfx <= S b)%nat) as [Hs|Hs].
  * rewrite !drop_app_le by (rewrite ?length_drop; lia).
    rewrite drop_drop. do 2 f_equal. lia.
  * rewrite !drop_app_ge by (rewrite ?length_drop; lia).
    rewrite length_drop. f_equal. lia.
Qed.

Lemma crop_crop (idx : list (list Z)) : crop hp (crop hp idx) = crop hp idx.
Proof.
unfold crop. rewrite map_map. apply map_ext. intros row.
pose proof (py_slice_from_app (block_size hp) row []) as H.
by rewrite !app_nil_r in H.
Qed.

Lemma crop_append_crop (idx : list (list Z)) (next : list (list nat)) :
crop hp (zip_with (fun row n => row ++ map Z.of_nat n) (crop hp idx) next)
= crop hp (zip_with (fun row n => row ++ map Z.of_nat n) idx next).
Proof.
unfold crop. revert next. induction idx as [|row idx IH]; intros next; [done|].
destruct next as [|n next]; [done|]. simpl.
by rewrite py_slice_from_app, IH.
Qed.

Lemma generate_step_crop (m : GPTLanguageModel) (idx : list (list Z))
(out : list ascii) (w : world) :
generate_step hp cs m (crop hp idx, out) w = generate_step hp cs m (idx, out) w.
Proof.
unfold generate_step. cbn [fst snd]. rewrite crop_crop.
apply M_bind_ext. intros r w1. apply M_bind_ext. intros logits w2.
apply M_bind_ext. intros next w3. apply M_bind_ext. intros first w4.
apply M_bind_ext. intros token w5. apply M_bind_ext. intros [] w6.
by rewrite crop_append_crop.
Qed.

(** [generate] forgets the context before the last [block_size] tokens at
once: started from a context or from its crop it returns the same
string and leaves the same state, for every number of new tokens.
(With [block_size = 0] the crop [idx[:, -0:]] drops nothing.) *)
Theorem generate_forgets_old_context (m : GPTLanguageModel)
(idx : list (list Z)) (N : nat) (w : world) :
generate hp cs m (crop hp idx) N w = generate hp cs m idx N w.
Proof.
unfold generate. destruct N as [|N]; [done|].
unfold range. cbn [seq for_each].
rewrite !M_bind_unfold. by rewrite generate_step_crop.
Qed.

End GenerationContext.

(** ** The split of the corpus *)

Section SplitFacts.

Lemma round_half_even_ge (x : Q) (lo : Z) :
(inject_Z lo <= x)%Q -> lo <= round_half_even x.
Proof.
intros Hlo. assert (lo <= Qfloor x) as Hf.
{ rewrite <- (Qfloor_Z lo). by apply Qfloor_resp_le. }
unfold round_half_even. cbv zeta.
destruct (Qcompare _ _); [destruct (Z.even _)|..]; lia.
Qed.

Lemma round_half_even_lt (x : Q) (hi : Z) :
(x + (1 # 2) < inject_Z hi)%Q -> round_half_even x < hi.
Proof.
intros Hhi. pose proof (Qfloor_le x) as Hf.
unfold round_half_even. cbv zeta.
destruct (Qcompare_spec (x - inject_Z (Qfloor x)) (1 # 2)) as [He|Hl|Hg].
- assert (inject_Z (Qfloor x + 1) < inject_Z hi)%Q as Hlt.
{ rewrite inject_Z_plus. change (inject_Z 1) with 1%Q. Lqa.lra. }
rewrite <- Zlt_Qlt in Hlt. destruct (Z.even _); lia.
- assert (inject_Z (Qfloor x) < inject_Z hi)%Q as Hlt by Lqa.lra.
by rewrite <- Zlt_Qlt in Hlt.
- assert (inject_Z (Qfloor x + 1) < inject_Z hi)%Q as Hlt.
{ rewrite inject_Z_plus. change (inject_Z 1) with 1%Q. Lqa.lra. }
by rewrite <- Zlt_Qlt in Hlt.
Qed.

Lemma pow2_neg (e : Z) : e < 0 -> pow2 e = 1 # Z.to_pos (2 ^ (- e)).
Proof. intros He. unfold pow2. by destruct (Z.leb_spec 0 e); [lia|]. Qed.

(** The product of 0.9 and a length below 2^31, rounded to a double and
truncated, is nine tenths of the length rounded down: the error of
the literal and the rounding of the product never reach the next
integer. *)
Lemma split_point_pos (l : Z) :
1 <= l < 2 ^ 31 ->
int_of_float (round_double (double_0_9 * inject_Z l)) = 9 * l / 10.
Proof.
intros Hl.
set (M := 8106479329266893).
assert (10 * M = 9 * 2 ^ 53 + 2) as HM by reflexivity.
set (q := (double_0_9 * inject_Z l)%Q).
assert (q == (M * l) # 9007199254740992) as Hq.
{ unfold q, double_0_9, Qeq. simpl. lia. }
assert (0 < q)%Q as Hq0.
{ rewrite Hq. unfold Qlt. simpl. lia. }
unfold round_double.
destruct (Qle_bool q 0) eqn:Hb.
{ apply Qle_bool_iff in Hb. Lqa.lra. }
assert (Qfloor (q * inject_Z (2 ^ 53)) = M * l) as ->.
{ rewrite <- (Qfloor_Z (M * l)). apply Qfloor_comp. rewrite Hq.
unfold Qeq. simpl. lia. }
set (K := Z.log2 (M * l)).
assert (52 <= K <= 83) as HK.
{ split.
- apply Z.log2_le_pow2; lia.
- cut (K < 84); [lia|]. apply Z.log2_lt_pow2; lia. }
cbv zeta. replace (K - 53 - 52) with (- (105 - K)) by lia.
set (E := 105 - K). rewrite pow2_neg by lia. rewrite Z.opp_involutive.
set (s := 2 ^ E).
assert (2 ^ 22 <= s) as Hs by (apply Z.pow_le_mono_r; lia).
assert (Z.pos (Z.to_pos s) = s) as Hsp by (apply Z2Pos.id; lia).
set (u := 1 # Z.to_pos s).
set (n := 9 * l / 10).
assert (10 * n <= 9 * l < 10 * n + 10) as Hn
by (unfold n; Z.div_mod_to_equations; lia).
assert (q / u == (M * l * s) # 9007199254740992)%Q as Hx.
{ rewrite Hq. unfold u, Qdiv, Qinv, Qeq. simpl. rewrite Hsp. lia. }
set (r := round_half_even (q / u)).
assert (n * s <= r) as Hr1.
{ apply round_half_even_ge. rewrite Hx. unfold Qle. simpl. nia. }
assert (r < (n + 1) * s) as Hr2.
{ apply round_half_even_lt. rewrite Hx. unfold Qlt, Qplus. simpl. nia. }
unfold int_of_float.
assert (0 <= inject_Z r * u)%Q as Hres.
{ unfold Qle, u. simpl. nia. }
rewrite (proj2 (Qle_bool_iff _ _) Hres).
unfold u, Qfloor, Qmult, inject_Z. simpl Qnum. simpl Qden.
rewrite Pos.mul_1_l, Z.mul_1_r, Hsp.
symmetry. apply (Z.div_unique r s n (r - n * s)); lia.
Qed.

Lemma split_point_eq (L : nat) :
Z.of_nat L < 2 ^ 31 -> split_point L = 9 * Z.of_nat L / 10.
Proof.
intros HL. unfold split_point. destruct L as [|L]; [done|].
apply split_point_pos. lia.
Qed.

Lemma split_corpus_eq (data : list Z) :
Z.of_nat (length data) < 2 ^ 31 ->
split_corpus data
= (take (9 * length data / 10) data, drop (9 * length data / 10) data).
Proof.
intros HL. unfold split_corpus. cbv zeta. rewrite split_point_eq by done.
set (L := length data) in *.
assert (9 * Z.of_nat L / 10 = Z.of_nat (9 * L / 10)) as ->.
{ rewrite Nat2Z.inj_div, Nat2Z.inj_mul. done. }
assert (9 * L / 10 <= L)%nat as Hle.
{ apply Nat.Div0.div_le_upper_bound. lia. }
set (n := (9 * L / 10)%nat) in *.
unfold py_slice, py_slice_from, slice_bound. fold L.
destruct (Z.ltb_spec (Z.of_nat n) 0); [lia|].
destruct (Z.ltb_spec 0 0); [lia|].
rewrite (Z.min_l 0) by lia. rewrite (Z.min_l (Z.of_nat n)) by lia.
rewrite Z.sub_0_r, Nat2Z.id. done.
Qed.

(** The split of lines 243-245, for a corpus of fewer than 2^31 tokens.
The split point [int(0.9*L)] is nine tenths of the length rounded
down, exactly, despite the rounding of the literal 0.9 and of the
product; the training split is the first [n] tokens and the
validation split the rest, so the two splits in this order are the
corpus, and the validation split has a tenth of the length rounded
up. *)
Theorem split_corpus_partition (data train val : list Z) :
Z.of_nat (length data) < 2 ^ 31 ->
split_corpus data = (train, val) ->
split_point (length data) = 9 * Z.of_nat (length data) / 10
/\ train ++ val = data
/\ length train = (9 * length data / 10)%nat
/\ length val = ((length data + 9) / 10)%nat.
Proof.
intros HL Hs. pose proof (split_corpus_eq data HL) as He.
pose proof (split_point_eq (length data) HL) as Hp.
pose proof (Nat.div_mod_eq (9 * length data) 10) as H1.
pose proof (Nat.mod_upper_bound (9 * length data) 10) as H2.
pose proof (Nat.div_mod_eq (length data + 9) 10) as H3.
pose proof (Nat.mod_upper_bound (length data + 9) 10) as H4.
set (n := (9 * length data / 10)%nat) in *.
set (b := ((length data + 9) / 10)%nat) in *.
set (c := ((9 * length data) mod 10)%nat) in *.
set (d := ((length data + 9) mod 10)%nat) in *.
clearbody n b c d.
rewrite He in Hs. injection Hs as <- <-.
split_and!; [done|apply take_drop|..].
- rewrite length_take. lia.
- rewrite length_drop. lia.
Qed.

End SplitFacts.

Lemma split_corpus_partition_witness :
  split_point 7 = 6
  /\ [5; 4; 3; 2; 1; 0] ++ [6] = [5; 4; 3; 2; 1; 0; 6].
Proof.
  destruct (split_corpus_partition [5; 4; 3; 2; 1; 0; 6] [5; 4; 3; 2; 1; 0] [6])
    as (Hn & Happ & _).
  - simpl. lia.
  - by vm_compute.
  - split; [exact Hn|exact Happ].
Defined.

(** ** From the text to the two splits *)

Section CorpusFacts.
Import Vocabulary VocabularyFacts.
Context (hp : hyper).

Lemma vocab_size_le (text : list ascii) : (vocab_size text <= length text)%nat.
Proof.
unfold vocab_size. apply submseteq_length, NoDup_submseteq; [apply chars_NoDup|].
intros c. by rewrite elem_of_chars.
Qed.

Lemma encode_corpus (text : list ascii) :
exists l, encode (chars text) text = Some l
/\ length l = length text
/\ Forall (fun i => (i < vocab_size text)%nat) l.
Proof.
pose proof (chars_NoDup text) as Hnd.
assert (is_Some (encode (chars text) text)) as [l Hl].
{ unfold encode. rewrite mapM_is_Some, Forall_forall. intros c Hc. simpl.
apply stoi_is_Some; [done|]. by apply elem_of_chars. }
exists l. split; [done|]. unfold encode in Hl. apply mapM_Some in Hl. split.
- symmetry. by eapply Forall2_length.
- unfold vocab_size. apply Forall_forall. intros i Hi.
apply list_elem_of_lookup in Hi as [k Hk].
destruct (Forall2_lookup_r _ _ _ _ _ Hl Hk) as (c & _ & Hc).
apply stoi_lookup in Hc; [|done]. by eapply lookup_lt_Some.
Qed.

(** The data and its two splits, and when the sampler can use them. *)
Lemma corpus_split_data_ok (text : list ascii) :
(1 <= block_size hp)%nat ->
Z.of_nat (length text) < 2 ^ 31 ->
exists data train val,
corpus text = Some data
/\ length data = length text
/\ split_corpus data = (train, val)
/\ (data_ok hp (vocab_size text) train /\ data_ok hp (vocab_size text) val
    <-> (10 * block_size hp < length text)%nat).
Proof.
intros Hbs HL. destruct (encode_corpus text) as (l & He & Hlen & Hl).
pose proof (vocab_size_le text) as HV.
set (data := map (fun i => wrap 64 (Z.of_nat i)) l).
assert (length data = length text) as Hld by (unfold data; by rewrite length_map).
assert (Forall (fun y => 0 <= y < Z.of_nat (vocab_size text)) data) as Htok.
{ unfold data. apply Forall_map. eapply Forall_impl; [exact Hl|].
intros i Hi. simpl in Hi |- *. rewrite wrap_representable.
- lia.
- lia.
- unfold representable. change (2 ^ (64 - 1)) with (2 ^ 32 * 2 ^ 31). lia. }
pose proof (split_corpus_eq data) as Hs. rewrite Hld in Hs.
specialize (Hs HL).
pose proof (Nat.div_mod_eq (9 * length text) 10) as H1.
pose proof (Nat.mod_upper_bound (9 * length text) 10) as H2.
set (n := (9 * length text / 10)%nat) in *.
set (c := ((9 * length text) mod 10)%nat) in *.
clearbody n c.
exists data, (take n data), (drop n data).
split_and!; [unfold corpus; by rewrite He|done|done|].
unfold data_ok. rewrite length_take, length_drop, Hld. split.
- intros [(Ht & _) (Hv & _)]. lia.
- intros Hlong. split_and!; [lia|lia|by apply Forall_take|lia|lia|by apply Forall_drop].
Qed.

(** From the text to the sampler.  For a text of fewer than 2^31
characters and [block_size >= 1], the program's [data], [train_data]
and [val_data] exist (encoding the corpus with its own vocabulary
raises nothing, and the tokens fit int64), and both splits are data
[get_batch] can draw from (longer than a block, tokens below
[vocab_size]) exactly when the text has more than [10 * block_size]
characters: the validation split, a tenth of the text, is the
bottleneck. *)
Theorem corpus_splits_feed_sampler (text : list ascii) :
(1 <= block_size hp)%nat ->
Z.of_nat (length text) < 2 ^ 31 ->
exists data train val,
corpus text = Some data
/\ length data = length text
/\ split_corpus data = (train, val)
/\ (data_ok hp (vocab_size text) train /\ data_ok hp (vocab_size text) val
    <-> (10 * block_size hp < length text)%nat).
Proof. apply corpus_split_data_ok. Qed.

End CorpusFacts.

Lemma corpus_splits_feed_sampler_witness :
  exists data train val,
    corpus (list_ascii_of_string "to be or not to be, that is the question")
      = Some data
    /\ split_corpus data = (train, val)
    /\ length val = 4%nat.
Proof.
  destruct (corpus_splits_feed_sampler small_hyper
              (list_ascii_of_string "to be or not to be, that is the question"))
    as (data & train & val & Hc & Hl & Hs & _).
  - simpl. lia.
  - simpl. lia.
  - exists data, train, val. split; [exact Hc|]. split; [exact Hs|].
    assert (Z.of_nat (length data) < 2 ^ 31) as HL by (rewrite Hl; simpl; lia).
    pose proof (split_corpus_eq data HL) as He. rewrite Hs, Hl in He.
    injection He as -> ->. rewrite length_drop, Hl. reflexivity.
Defined.

(** ** Training never touches numpy's generator *)

Create HintDb keeps.

Section NumpyFrame.
Context (hp : hyper) (train_data val_data : list Z).
Context {opt_state : Type}.
Context (optimizer_step : opt_state -> GPTLanguageModel ->
   list (list Z) -> list (list Z) -> rng -> opt_state * GPTLanguageModel).

Lemma keeps_ret {A} (a : A) : keeps_numpy (mret a : M A).
Proof. intros w a' w' H. by injection H as _ <-. Qed.

Lemma keeps_bind {A B} (c : M A) (f : A -> M B) :
keeps_numpy c -> (forall a, keeps_numpy (f a)) -> keeps_numpy (c ≫= f).
Proof.
intros Hc Hf w b w' H. rewrite M_bind_unfold in H.
destruct (c w) as [[a w1]|] eqn:Hcw; [|done].
rewrite (Hf a w1 b w' H). by eapply Hc.
Qed.

Lemma keeps_lift {A} (o : option A) : keeps_numpy (lift o).
Proof. intros w a w' H. unfold lift in H. destruct o; [|done]. by injection H as _ <-. Qed.

Lemma keeps_emit (e : event) : keeps_numpy (emit e).
Proof. intros w a w' H. by injection H as _ <-. Qed.

Lemma keeps_set_training (b : bool) : keeps_numpy (set_training b).
Proof. intros w a w' H. by injection H as _ <-. Qed.

Lemma keeps_get_training : keeps_numpy get_training.
Proof. intros w a w' H. by injection H as _ <-. Qed.

Lemma keeps_get_no_grad : keeps_numpy get_no_grad.
Proof. intros w a w' H. by injection H as _ <-. Qed.

Lemma keeps_get_tensor_rng : keeps_numpy get_tensor_rng.
Proof. intros w a w' H. by injection H as _ <-. Qed.

Lemma keeps_tensor_draw : keeps_numpy tensor_draw.
Proof. intros w a w' H. by injection H as _ <-. Qed.

Lemma keeps_mapM {A B} (f : A -> M B) (l : list A) :
(forall a, keeps_numpy (f a)) -> keeps_numpy (mapM f l).
Proof.
intros Hf. induction l as [|a l IH]; cbn [mapM]; [apply keeps_ret|].
apply keeps_bind; [done|]. intros b. apply keeps_bind; [done|].
intros k. apply keeps_ret.
Qed.

Lemma keeps_for_each {A S} (l : list A) (body : A -> S -> M S) (s : S) :
(forall a s, keeps_numpy (body a s)) -> keeps_numpy (for_each l body s).
Proof.
intros Hb. revert s. induction l as [|a l IH]; intros s; cbn [for_each];
[apply keeps_ret|].
apply keeps_bind; [done|]. intros s'. apply IH.
Qed.

#[local] Hint Resolve keeps_ret keeps_bind keeps_lift keeps_emit
keeps_set_training keeps_get_training keeps_get_no_grad keeps_get_tensor_rng keeps_tensor_draw
keeps_mapM keeps_for_each : keeps.

Lemma keeps_Tensor_dropout (p : Q) (x : tensor3) : keeps_numpy (Tensor_dropout p x).
Proof.
unfold Tensor_dropout. apply keeps_bind; [auto with keeps|].
intros [|]; [|auto with keeps]. unfold dropout_entry. auto 10 with keeps.
Qed.

#[local] Hint Resolve keeps_Tensor_dropout : keeps.

Lemma keeps_Block_call (b : Block) (x : tensor3) : keeps_numpy (Block_call hp b x).
Proof.
unfold Block_call, MultiHeadAttention_call, FeedForward_call, Head_call.
apply keeps_bind; [|auto with keeps].
destruct (heads (sa b)); [by intros w a w' H|]. auto 10 with keeps.
Qed.

Lemma keeps_GPTLanguageModel_call (m : GPTLanguageModel) (idx : list (list Z))
(targets : option (list (list Z))) :
keeps_numpy (GPTLanguageModel_call hp m idx targets).
Proof.
unfold GPTLanguageModel_call. apply keeps_bind.
{ apply keeps_for_each. intros b x. apply keeps_Block_call. }
intros x. apply keeps_bind; [destruct targets|]; auto 10 with keeps.
Qed.

Lemma keeps_get_batch (s : split) : keeps_numpy (get_batch hp train_data val_data s).
Proof.
unfold get_batch, get_batch_ix, Tensor_uniform, Tensor_rand. auto 10 with keeps.
Qed.

#[local] Hint Resolve keeps_GPTLanguageModel_call keeps_get_batch : keeps.

Lemma keeps_estimate_loss (m : GPTLanguageModel) :
keeps_numpy (estimate_loss hp train_data val_data m).
Proof. unfold estimate_loss, estimate_split. auto 15 with keeps. Qed.

#[local] Hint Resolve keeps_estimate_loss : keeps.

Lemma keeps_train_iter (iter : nat) (st : opt_state * GPTLanguageModel) :
keeps_numpy (train_iter hp train_data val_data optimizer_step iter st).
Proof.
unfold train_iter. apply keeps_bind; [auto with keeps|]. intros ck.
apply keeps_bind; [destruct ck|]; auto 10 with keeps.
Qed.

Lemma keeps_training_loop (o : opt_state) (m : GPTLanguageModel) :
keeps_numpy (training_loop hp train_data val_data optimizer_step o m).
Proof.
unfold training_loop. apply keeps_bind; [auto with keeps|]. intros _.
apply keeps_for_each. intros i st. apply keeps_train_iter.
Qed.

End NumpyFrame.

(** ** The program from the text to the generated string *)

Section ProgramFacts.
Import Vocabulary VocabularyFacts.
Context (hp : hyper).
Context {opt_state : Type}.
Context (optimizer_step : opt_state -> GPTLanguageModel ->
   list (list Z) -> list (list Z) -> rng -> opt_state * GPTLanguageModel).

(** The loop with what it leaves behind: a model the optimizer made, the
training mode, and numpy's generator as it was. *)
Lemma training_loop_frame (train_data val_data : list Z) (V : nat)
(o : opt_state) (m : GPTLanguageModel) (w : world) :
(1 <= batch_size hp)%nat -> (1 <= block_size hp)%nat ->
(1 <= V)%nat -> Z.of_nat V <= 2 ^ 31 ->
data_ok hp V train_data -> data_ok hp V val_data ->
(1 <= eval_interval hp)%nat ->
(forall o m xb yb g, model_ok m -> lm_head_ok V m ->
 model_ok (optimizer_step o m xb yb g).2
 /\ lm_head_ok V (optimizer_step o m xb yb g).2) ->
model_ok m -> lm_head_ok V m -> rng_ok (tensor_rng w) ->
returns (training_loop hp train_data val_data optimizer_step o m) w
(fun st' w' =>
   model_ok st'.2 /\ lm_head_ok V st'.2
   /\ training w' = true /\ rng_ok (tensor_rng w')
   /\ numpy_rng w' = numpy_rng w).
Proof.
intros Hb Hbl HV H31 Htd Hvd Hint Hopt Hm Hh Hg.
assert (returns (training_loop hp train_data val_data optimizer_step o m) w
        (fun st' w' =>
           model_ok st'.2 /\ lm_head_ok V st'.2
           /\ training w' = true /\ rng_ok (tensor_rng w'))) as Hret.
{ unfold training_loop. apply returns_bind. eexists tt, _. split; [reflexivity|].
apply (returns_for_each _ _ (fun _ (st : opt_state * GPTLanguageModel) w' =>
          model_ok st.2 /\ lm_head_ok V st.2
          /\ training w' = true /\ rng_ok (tensor_rng w'))); [done|].
intros done i st w1 _ (Hm1 & Hh1 & Ht1 & Hg1).
eapply returns_mono.
{ by apply (train_iter_spec hp train_data val_data optimizer_step V). }
intros st' w2 (? & ? & ? & ? & _). done. }
destruct Hret as (st' & w' & Hrun & Hm' & Hh' & Ht' & Hg').
exists st', w'. split; [done|]. split_and!; [done..|].
by eapply keeps_training_loop.
Qed.

(** Training never touches numpy's generator: whatever the data, the
model, the optimizer and the state, a training loop that returns
leaves [np.random] as it found it (dropout and the batches draw from
the tensor library's generator), and so does every single model call,
in training mode too.  What [generate] samples from after training is
the generator the program started with. *)
Theorem training_keeps_numpy (train_data val_data : list Z)
(o : opt_state) (m : GPTLanguageModel) (w : world) :
(forall st' w',
 training_loop hp train_data val_data optimizer_step o m w = Some (st', w') ->
 numpy_rng w' = numpy_rng w)
/\ (forall idx targets r w',
    GPTLanguageModel_call hp m idx targets w = Some (r, w') ->
    numpy_rng w' = numpy_rng w).
Proof.
split.
- intros st' w' Hrun. by eapply keeps_training_loop.
- intros idx targets r w' Hrun. by eapply keeps_GPTLanguageModel_call.
Qed.

Lemma main_runs (text : list ascii) (o : opt_state) (m : GPTLanguageModel)
(w : world) :
(1 <= batch_size hp)%nat -> (1 <= block_size hp)%nat ->
(1 <= eval_interval hp)%nat ->
(10 * block_size hp < length text)%nat ->
Z.of_nat (length text) < 2 ^ 31 ->
(forall o m xb yb g, model_ok m -> lm_head_ok (vocab_size text) m ->
 model_ok (optimizer_step o m xb yb g).2
 /\ lm_head_ok (vocab_size text) (optimizer_step o m xb yb g).2) ->
model_ok m -> lm_head_ok (vocab_size text) m ->
rng_ok (tensor_rng w) -> rng_ok (numpy_rng w) ->
exists out w',
main hp optimizer_step text o m w = Some (out, w')
/\ length out = 1000%nat
/\ Forall (fun c => c ∈ text) out
/\ training w' = false.
Proof.
intros Hb Hbl Hint Hlong HL Hopt Hm Hh Hg Hn.
destruct (corpus_split_data_ok hp text Hbl HL)
as (data & train & val & Hc & _ & Hs & Hok).
destruct (proj2 Hok Hlong) as [Htd Hvd].
pose proof (vocab_size_le text) as HVle.
assert (1 <= vocab_size text)%nat as HV.
{ destruct text as [|c text]; [simpl in Hlong; lia|].
assert (is_Some (chars (c :: text) !! 0%nat)) as [c0 Hc0].
{ assert (c ∈ chars (c :: text)) as Hin by (apply elem_of_chars; left).
  apply list_elem_of_lookup in Hin as [i Hi].
  apply lookup_lt_is_Some. apply lookup_lt_Some in Hi. lia. }
apply lookup_lt_Some in Hc0. unfold vocab_size. lia. }
destruct (training_loop_frame train val (vocab_size text) o m w)
as (st' & w1 & Hrun & Hm' & Hh' & _ & _ & Hn1); [done|done|done|lia|done..|].
assert (tokens_shape 1 1 [[0]]) as Hctx by (split; repeat constructor).
destruct (generate_loop_spec hp (chars text) st'.2 [[0]] 1000
          (with_training false w1) 1 1)
as (st & w2 & Hgen & appended & Hla & Happ & _ & Hout & Ht2 & _);
[done|done|done|done|lia|lia|done|by rewrite <- Hn1 in Hn|].
exists st.2, w2. split_and!.
- unfold main. rewrite M_bind_unfold, Hc. unfold lift.
rewrite Hs. cbn [fst snd]. rewrite M_bind_unfold, Hrun.
rewrite M_bind_unfold. cbn [set_training].
unfold generate. by rewrite M_bind_unfold, Hgen.
- destruct appended as [|a [|? ?]]; try done.
apply Forall_inv in Happ as [Hlen _]. simpl in Hout.
apply Forall2_length in Hout. lia.
- apply Forall_forall. intros c Hcin.
apply list_elem_of_lookup in Hcin as [i Hi].
destruct (Forall2_lookup_r _ _ _ _ _ Hout Hi) as (k & _ & Hk).
apply elem_of_chars. by eapply list_elem_of_lookup_2.
- by rewrite Ht2.
Qed.

(** The program from the text on.  For a text of more than
[10 * block_size] and fewer than 2^31 characters, hyperparameters of at
least 1, a model with heads and one output per character, an optimizer
that keeps that, and generators that draw from [0,1), the main block
raises nothing: the data is split, the loop runs, and [generate]
returns a string of exactly 1000 characters, each one a character of
the text, with the program left in evaluation mode. *)
Theorem main_returns_text (text : list ascii) (o : opt_state)
(m : GPTLanguageModel) (w : world) :
(1 <= batch_size hp)%nat -> (1 <= block_size hp)%nat ->
(1 <= eval_interval hp)%nat ->
(10 * block_size hp < length text)%nat ->
Z.of_nat (length text) < 2 ^ 31 ->
(forall o m xb yb g, model_ok m -> lm_head_ok (vocab_size text) m ->
 model_ok (optimizer_step o m xb yb g).2
 /\ lm_head_ok (vocab_size text) (optimizer_step o m xb yb g).2) ->
model_ok m -> lm_head_ok (vocab_size text) m ->
rng_ok (tensor_rng w) -> rng_ok (numpy_rng w) ->
exists out w',
main hp optimizer_step text o m w = Some (out, w')
/\ length out = 1000%nat
/\ Forall (fun c => c ∈ text) out
/\ training w' = false.
Proof. apply main_runs. Qed.

End ProgramFacts.

Lemma training_keeps_numpy_witness :
  exists st' w',
    training_loop small_hyper small_data small_data idle_optimizer tt small_model
      small_world = Some (st', w')
    /\ numpy_rng w' = numpy_rng small_world.
Proof.
  destruct small_model_ok as [Hm Hh].
  assert (rng_ok (tensor_rng small_world)) as Hg.
  { apply constant_rng_ok; unfold Qle, Qlt; simpl; lia. }
  destruct (training_loop_frame small_hyper idle_optimizer small_data small_data 2
              tt small_model small_world)
    as (st' & w' & Hrun & _);
    [simpl; lia|simpl; lia|lia|simpl; lia|apply small_data_ok|apply small_data_ok
    |simpl; lia|by intros|exact Hm|exact Hh|exact Hg|].
  exists st', w'. split; [exact Hrun|].
  exact (proj1 (training_keeps_numpy small_hyper idle_optimizer small_data small_data
                  tt small_model small_world) st' w' Hrun).
Defined.

Lemma main_returns_text_witness :
  exists out w',
    main small_hyper idle_optimizer small_text tt small_model small_world
      = Some (out, w')
    /\ length out = 1000%nat.
Proof.
  destruct small_model_ok as [Hm Hh].
  assert (rng_ok (tensor_rng small_world)) as Hg.
  { apply constant_rng_ok; unfold Qle, Qlt; simpl; lia. }
  assert (rng_ok (numpy_rng small_world)) as Hn.
  { apply constant_rng_ok; unfold Qle, Qlt; simpl; lia. }
  assert (Vocabulary.vocab_size small_text = 2%nat) as HV by (by vm_compute).
  destruct (main_returns_text small_hyper idle_optimizer small_text tt small_model
              small_world)
    as (out & w' & Hrun & Hlen & _).
  - simpl; lia.
  - simpl; lia.
  - simpl; lia.
  - simpl; lia.
  - simpl; lia.
  - intros o m xb yb g Hm' Hh'. exact (conj Hm' Hh').
  - exact Hm.
  - rewrite HV. exact Hh.
  - exact Hg.
  - exact Hn.
  - exists out, w'. split; [exact Hrun|exact Hlen].
Defined.

(** ** The checkpoints of the training loop *)

Section CheckpointFacts.
Context (hp : hyper) (train_data val_data : list Z).
Context (V : nat).
Hypothesis Hbatch : (1 <= batch_size hp)%nat.
Hypothesis Hblock : (1 <= block_size hp)%nat.
Hypothesis HV : (1 <= V)%nat.
Hypothesis HV31 : Z.of_nat V <= 2 ^ 31.
Hypothesis Htrain : data_ok hp V train_data.
Hypothesis Hval : data_ok hp V val_data.



End CheckpointFacts.




